(** * handoff-guard (TypeScript): the guard's retry state machine, its
      ambient retry state, the diagnostic model and the JSON decoder.

    The development embeds [src/types.ts], [src/utils.ts], [src/retry.ts],
    [src/testing.ts] and [src/guard.ts] as Rocq functions and proves the
    properties the specification states about them.

    Conventions of the embedding:
    - a JavaScript string is the list of its UTF-16 code units;
    - a JavaScript number that counts (attempt numbers, [maxAttempts],
      durations, epoch milliseconds) is an integer, a [Z];
    - values are data: no symbols and no accessors, a function is
      kept by its name only, and an object is a plain object, whose
      prototype is [Object.prototype];
    - a raised exception is a value of [thrown] and a call that may raise
      returns a [completion];
    - the producer, the clock and a custom failure handler are effectful:
      they thread a world of type [world];
    - built-ins of the JavaScript runtime that the code calls on
      arbitrary values ([String(x)], [JSON.stringify], the wording of a
      [SyntaxError]) are fields of the [Runtime] class. *)

From Stdlib Require Import List ZArith NArith Bool Lia Ascii.
From Stdlib Require String.
Import String.StringSyntax.
Import ListNotations.

Set Implicit Arguments.
Set Warnings "-register-all".
Local Open Scope Z_scope.

(* ===================================================================== *)
(** ** JavaScript strings *)
(* ===================================================================== *)

Module Js.

(** A string is its sequence of UTF-16 code units. *)
Definition jsstring := list N.

(** Literals of the source, written as Rocq strings of ASCII characters. *)
Fixpoint lit (s : String.string) : jsstring :=
  match s with
  | String.EmptyString => []
  | String.String c r => N_of_ascii c :: lit r
  end.
Arguments lit s%_string_scope.

Definition LF : N := 10%N.
Definition BOM : N := 65279%N.        (* 0xfeff *)
Definition BACKTICK : N := 96%N.

Definition str_eqb (a b : jsstring) : bool :=
  if list_eq_dec N.eq_dec a b then true else false.

(** [s.slice(0, n)] for [0 <= n]. *)
Definition slice_to (n : nat) (s : jsstring) : jsstring := firstn n s.
Arguments slice_to : simpl never.

(** [s.slice(n)] for [0 <= n]. *)
Definition slice_from (n : nat) (s : jsstring) : jsstring := skipn n s.

(** [s.slice(0, -n)]: the end index is [max (length - n) 0]. *)
Definition slice_drop_last (n : nat) (s : jsstring) : jsstring :=
  firstn (length s - n) s.

Fixpoint startsWith (s p : jsstring) : bool :=
  match p, s with
  | [], _ => true
  | _ :: _, [] => false
  | c :: p', d :: s' => N.eqb c d && startsWith s' p'
  end.

Definition endsWith (s p : jsstring) : bool :=
  startsWith (rev s) (rev p).

(** ECMAScript [WhiteSpace] and [LineTerminator] code points, the set
    that [trim], [trimStart] and [trimEnd] remove. *)
Definition isWhiteSpace (c : N) : bool :=
  (N.eqb c 9 || N.eqb c 10 || N.eqb c 11 || N.eqb c 12 || N.eqb c 13
   || N.eqb c 32 || N.eqb c 160 || N.eqb c 5760
   || (N.leb 8192 c && N.leb c 8202)
   || N.eqb c 8232 || N.eqb c 8233 || N.eqb c 8239 || N.eqb c 8287
   || N.eqb c 12288 || N.eqb c 65279)%N.

Fixpoint trimStart (s : jsstring) : jsstring :=
  match s with
  | [] => []
  | c :: r => if isWhiteSpace c then trimStart r else s
  end.

Fixpoint trimEnd (s : jsstring) : jsstring :=
  match s with
  | [] => []
  | c :: r =>
      match trimEnd r with
      | [] => if isWhiteSpace c then [] else [c]
      | t => c :: t
      end
  end.

Definition trim (s : jsstring) : jsstring := trimStart (trimEnd s).

(** [s.split('\n', 1)[0]]: the text before the first line feed. *)
Fixpoint firstLine (s : jsstring) : jsstring :=
  match s with
  | [] => []
  | c :: r => if N.eqb c LF then [] else c :: firstLine r
  end.

(** [parts.join(sep)] on strings. *)
Fixpoint join (sep : jsstring) (parts : list jsstring) : jsstring :=
  match parts with
  | [] => []
  | [p] => p
  | p :: rest => p ++ sep ++ join sep rest
  end.

(** A string is truthy when it is not empty. *)
Definition nonEmpty (s : jsstring) : bool :=
  match s with [] => false | _ => true end.

(** [a || b] on strings. *)
Definition orElse (a b : jsstring) : jsstring :=
  if nonEmpty a then a else b.

(** Decimal rendering of a natural number, as [String(n)] gives it. *)
Fixpoint digits_fuel (fuel : nat) (n : N) (acc : jsstring) : jsstring :=
  match fuel with
  | O => acc
  | S f =>
      let acc' := (48 + n mod 10)%N :: acc in
      if (n <? 10)%N then acc' else digits_fuel f (n / 10)%N acc'
  end.

Definition decimal (n : N) : jsstring :=
  digits_fuel (S (N.to_nat (N.log2 n))) n [].

End Js.
Import Js.

(* ===================================================================== *)
(** ** Values of the program *)
(* ===================================================================== *)

(** Data that callers pass to a guarded function and that producers
    return.  A number is kept as the decimal [m * 10^e] that denotes it
    (rounding to binary64 is not modelled); an object is the list of its
    own properties in insertion order.  A [bigint] is among them: no
    type of the guard excludes it, and [JSON.stringify] throws on it.
    So is a function, kept by its name: [JSON.stringify] has no text
    for it. *)
Inductive value : Type :=
| VUndefined
| VNull
| VBool (b : bool)
| VNum (m e : Z)
| VBigInt (n : Z)
| VStr (s : jsstring)
| VFunction (name : jsstring)
| VArr (items : list value)
| VObj (props : list (jsstring * value)).

(** [typeof v]. *)
Definition typeof (v : value) : jsstring :=
  match v with
  | VUndefined => lit "undefined"
  | VNull => lit "object"
  | VBool _ => lit "boolean"
  | VNum _ _ => lit "number"
  | VBigInt _ => lit "bigint"
  | VStr _ => lit "string"
  | VFunction _ => lit "function"
  | VArr _ => lit "object"
  | VObj _ => lit "object"
  end.

(** [key] is an own property of the object. *)
Fixpoint hasProp (key : jsstring) (props : list (jsstring * value)) : bool :=
  match props with
  | [] => false
  | (k, _) :: r => str_eqb k key || hasProp key r
  end.

(** The own property [key] of the object; [undefined] when there is
    none.  When a key occurs twice the later binding is the live one. *)
Fixpoint getProp (key : jsstring) (props : list (jsstring * value)) : value :=
  match props with
  | [] => VUndefined
  | (k, v) :: r =>
      if hasProp key r then getProp key r
      else if str_eqb k key then v else VUndefined
  end.

(** The own properties of [Object.prototype], which every plain object
    inherits. *)
Definition ObjectPrototype : list (jsstring * value) :=
  [(lit "constructor", VFunction (lit "Object"));
   (lit "__defineGetter__", VFunction (lit "__defineGetter__"));
   (lit "__defineSetter__", VFunction (lit "__defineSetter__"));
   (lit "hasOwnProperty", VFunction (lit "hasOwnProperty"));
   (lit "__lookupGetter__", VFunction (lit "__lookupGetter__"));
   (lit "__lookupSetter__", VFunction (lit "__lookupSetter__"));
   (lit "isPrototypeOf", VFunction (lit "isPrototypeOf"));
   (lit "propertyIsEnumerable", VFunction (lit "propertyIsEnumerable"));
   (lit "toString", VFunction (lit "toString"));
   (lit "valueOf", VFunction (lit "valueOf"));
   (lit "toLocaleString", VFunction (lit "toLocaleString"))].

(** What a plain object without own property [key] gives for [key]:
    the property of [Object.prototype], and for [__proto__] that
    prototype itself; [None] when [key in obj] is false. *)
Definition inherited (key : jsstring) : option value :=
  if str_eqb key (lit "__proto__") then Some (VObj ObjectPrototype)
  else if hasProp key ObjectPrototype then Some (getProp key ObjectPrototype)
  else None.

(* ===================================================================== *)
(** ** src/types.ts *)
(* ===================================================================== *)

Inductive Kind : Type := validation | parse.

Definition Kind_eqb (a b : Kind) : bool :=
  match a, b with
  | validation, validation => true
  | parse, parse => true
  | _, _ => false
  end.

Definition Kind_name (k : Kind) : jsstring :=
  match k with
  | validation => lit "validation"
  | parse => lit "parse"
  end.

Inductive ContractType : Type := input_contract | output_contract.

Module Diagnostic.
Record t : Type := mk {
  type : Kind;
  message : jsstring;
  field : option jsstring;
  expected : option jsstring;
  received : option jsstring;
  suggestion : option jsstring;
  rawOutput : option jsstring
}.
End Diagnostic.

Module AttemptRecord.
Record t : Type := mk {
  attempt : Z;
  timestamp : Z;                  (* a Date, as epoch milliseconds *)
  durationMs : Z;
  diagnostic : option Diagnostic.t
}.
End AttemptRecord.

Module ViolationContext.
Record t : Type := mk {
  nodeName : jsstring;
  contractType : ContractType;
  fieldPath : jsstring;
  expected : jsstring;
  received : jsstring;
  receivedType : jsstring;
  suggestion : jsstring
}.
End ViolationContext.

(** [createDiagnostic(data)]: a copy of [data] whose [rawOutput] is
    [data.rawOutput?.slice(0, 500)]. *)
Definition createDiagnostic (data : Diagnostic.t) : Diagnostic.t :=
  {| Diagnostic.type := Diagnostic.type data;
     Diagnostic.message := Diagnostic.message data;
     Diagnostic.field := Diagnostic.field data;
     Diagnostic.expected := Diagnostic.expected data;
     Diagnostic.received := Diagnostic.received data;
     Diagnostic.suggestion := Diagnostic.suggestion data;
     Diagnostic.rawOutput := option_map (slice_to 500) (Diagnostic.rawOutput data) |}.

Module HandoffViolation.
Record t : Type := mk {
  message : jsstring;             (* of the Error base class *)
  nodeName : jsstring;
  fieldPath : jsstring;
  context : ViolationContext.t;
  totalAttempts : Z;
  history : list AttemptRecord.t
}.

(** [new HandoffViolation({ context, history })]; [history] is [None]
    when the option is left out.  The object keeps the array it is
    given, the one the loop of the guard pushes to; the record here
    holds the content of that array when the violation is built, which
    is also its content when the failure policy receives it. *)
Definition new (context : ViolationContext.t)
    (history : option (list AttemptRecord.t)) : t :=
  let h := match history with Some h => h | None => [] end in
  {| message :=
       lit "Validation failed at '" ++ ViolationContext.nodeName context
         ++ lit "': " ++ ViolationContext.expected context;
     nodeName := ViolationContext.nodeName context;
     fieldPath := ViolationContext.fieldPath context;
     context := context;
     history := h;
     totalAttempts :=
       (* this.history.length || 1 *)
       if Z.eqb (Z.of_nat (length h)) 0 then 1 else Z.of_nat (length h) |}.
End HandoffViolation.

(* ===================================================================== *)
(** ** Exceptions and completions *)
(* ===================================================================== *)

Module ParseError.
Record t : Type := mk {
  message : jsstring;
  rawOutput : jsstring
}.

(** [new ParseError(message, rawOutput = '')]. *)
Definition new (message : jsstring) (rawOutput : option jsstring) : t :=
  {| message := message;
     rawOutput := match rawOutput with Some r => r | None => [] end |}.
End ParseError.

(** What a [throw] can carry.  [error instanceof ParseError] holds of
    [ThrownParseError] only. *)
Inductive thrown : Type :=
| ThrownParseError (e : ParseError.t)
| ThrownViolation (v : HandoffViolation.t)
| ThrownError (message : jsstring)          (* new Error(message) *)
| ThrownTypeError (message : jsstring)      (* new TypeError(message) *)
| ThrownOther (v : value).                  (* any other thrown value *)

Inductive completion (A : Type) : Type :=
| Returned (a : A)
| Threw (e : thrown).
Arguments Returned {A} a.
Arguments Threw {A} e.

(** Built-ins of the JavaScript runtime and the environment of a call. *)
Class Runtime : Type := {
  (** everything the producer, the clock and a custom handler can read
      or change *)
  world : Type;
  (** [Date.now()], also the instant [new Date()] captures *)
  Date_now : world -> Z * world;
  (** [String(v)] *)
  ToString : value -> jsstring;
  (** [JSON.stringify(v)]: it returns a text, or [undefined] ([None]),
      or it throws - a [TypeError] on a [bigint] or on a cyclic
      structure, whatever a [toJSON] method throws.  It is a function of
      the value: asked twice, it answers twice the same. *)
  JSON_stringify : value -> completion (option jsstring);
  (** the message of the [SyntaxError] that [JSON.parse] raises on a text *)
  SyntaxError_message : jsstring -> jsstring
}.

(* ===================================================================== *)
(** ** The runtime's [JSON.parse] (ECMA-404) *)
(* ===================================================================== *)

Module Json.

Inductive token : Type :=
| TLBrace | TRBrace | TLBracket | TRBracket | TComma | TColon
| TStr (s : jsstring)
| TNum (m e : Z)
| TTrue | TFalse | TNull.

(** JSON white space: space, tab, line feed, carriage return. *)
Definition isJsonWS (c : N) : bool :=
  (N.eqb c 32 || N.eqb c 9 || N.eqb c 10 || N.eqb c 13)%N.

Definition isDigit (c : N) : bool := (N.leb 48 c && N.leb c 57)%N.
Definition isLower (c : N) : bool := (N.leb 97 c && N.leb c 122)%N.

(** Code units that continue a number once it has started. *)
Definition isNumChar (c : N) : bool :=
  (isDigit c || N.eqb c 46 || N.eqb c 101 || N.eqb c 69
   || N.eqb c 43 || N.eqb c 45)%N.

Definition punct (c : N) : option token :=
  if N.eqb c 123 then Some TLBrace
  else if N.eqb c 125 then Some TRBrace
  else if N.eqb c 91 then Some TLBracket
  else if N.eqb c 93 then Some TRBracket
  else if N.eqb c 44 then Some TComma
  else if N.eqb c 58 then Some TColon
  else None.

Fixpoint takeDigits (s : jsstring) : jsstring * jsstring :=
  match s with
  | c :: r =>
      if isDigit c then let (d, rest) := takeDigits r in (c :: d, rest)
      else ([], s)
  | [] => ([], [])
  end.

Definition digitsValue (ds : jsstring) : Z :=
  fold_left (fun acc d => acc * 10 + (Z.of_N d - 48)) ds 0.

(** The number grammar: an optional minus sign; an integer part that is
    a single zero or starts with a non-zero digit; an optional fraction
    of a dot and at least one digit; an optional exponent of e or E, an
    optional sign and at least one digit. *)
Definition number_of_lexeme (s : jsstring) : option (Z * Z) :=
  let (neg, s1) :=
    match s with
    | c :: r => if N.eqb c 45 then (true, r) else (false, s)
    | [] => (false, s)
    end in
  let (ip, s2) := takeDigits s1 in
  let int_ok :=
    match ip with
    | [] => false
    | [_] => true
    | c :: _ => negb (N.eqb c 48)
    end in
  let frac :=
    match s2 with
    | c :: r =>
        if N.eqb c 46 then
          let (fp, rest) := takeDigits r in
          match fp with [] => None | _ => Some (fp, rest) end
        else Some ([], s2)
    | [] => Some ([], [])
    end in
  match frac with
  | None => None
  | Some (fp, s3) =>
      let expo :=
        match s3 with
        | [] => Some 0
        | c :: r =>
            if (N.eqb c 101 || N.eqb c 69)%bool then
              let (eneg, r') :=
                match r with
                | d :: r2 =>
                    if N.eqb d 45 then (true, r2)
                    else if N.eqb d 43 then (false, r2) else (false, r)
                | [] => (false, r)
                end in
              let (ep, rest) := takeDigits r' in
              match ep, rest with
              | _ :: _, [] =>
                  Some (if eneg then - digitsValue ep else digitsValue ep)
              | _, _ => None
              end
            else None
        end in
      match expo with
      | Some e =>
          if int_ok then
            let m := digitsValue (ip ++ fp) in
            Some (if neg then - m else m, e - Z.of_nat (length fp))
          else None
      | None => None
      end
  end.

Definition escape (c : N) : option N :=
  if N.eqb c 34 then Some 34%N
  else if N.eqb c 92 then Some 92%N
  else if N.eqb c 47 then Some 47%N
  else if N.eqb c 98 then Some 8%N
  else if N.eqb c 102 then Some 12%N
  else if N.eqb c 110 then Some 10%N
  else if N.eqb c 114 then Some 13%N
  else if N.eqb c 116 then Some 9%N
  else None.

Definition hexval (c : N) : option N :=
  if isDigit c then Some (c - 48)%N
  else if (N.leb 97 c && N.leb c 102)%bool then Some (c - 87)%N
  else if (N.leb 65 c && N.leb c 70)%bool then Some (c - 55)%N
  else None.

(** Where the scanner is: between tokens, inside a number, inside a
    literal name, inside a string, after a backslash, inside [\uXXXX].
    Accumulators are reversed. *)
Inductive lexmode : Type :=
| LIdle
| LNum (acc : jsstring)
| LWord (acc : jsstring)
| LStr (acc : jsstring)
| LEsc (acc : jsstring)
| LHex (acc : jsstring) (ds : list N).

Definition lexstate : Type := (lexmode * list token)%type.

Definition close_num (acc : jsstring) : option token :=
  match number_of_lexeme (rev acc) with
  | Some (m, e) => Some (TNum m e)
  | None => None
  end.

Definition close_word (acc : jsstring) : option token :=
  let w := rev acc in
  if str_eqb w (lit "true") then Some TTrue
  else if str_eqb w (lit "false") then Some TFalse
  else if str_eqb w (lit "null") then Some TNull
  else None.

Definition idle_step (toks : list token) (c : N) : option lexstate :=
  if isJsonWS c then Some (LIdle, toks)
  else
    match punct c with
    | Some t => Some (LIdle, t :: toks)
    | None =>
        if N.eqb c 34 then Some (LStr [], toks)
        else if (N.eqb c 45 || isDigit c)%bool then Some (LNum [c], toks)
        else if isLower c then Some (LWord [c], toks)
        else None
    end.

Definition lex_step (st : lexstate) (c : N) : option lexstate :=
  let (mode, toks) := st in
  match mode with
  | LIdle => idle_step toks c
  | LNum acc =>
      if isNumChar c then Some (LNum (c :: acc), toks)
      else match close_num acc with
           | Some t => idle_step (t :: toks) c
           | None => None
           end
  | LWord acc =>
      if isLower c then Some (LWord (c :: acc), toks)
      else match close_word acc with
           | Some t => idle_step (t :: toks) c
           | None => None
           end
  | LStr acc =>
      if N.eqb c 34 then Some (LIdle, TStr (rev acc) :: toks)
      else if N.eqb c 92 then Some (LEsc acc, toks)
      else if N.ltb c 32 then None
      else Some (LStr (c :: acc), toks)
  | LEsc acc =>
      match escape c with
      | Some d => Some (LStr (d :: acc), toks)
      | None => if N.eqb c 117 then Some (LHex acc [], toks) else None
      end
  | LHex acc ds =>
      match hexval c with
      | Some h =>
          match ds with
          | [a; b; d] =>
              Some (LStr ((((a * 16 + b) * 16 + d) * 16 + h)%N :: acc), toks)
          | _ => Some (LHex acc (ds ++ [h]), toks)
          end
      | None => None
      end
  end.

Fixpoint lex_run (st : lexstate) (s : jsstring) : option lexstate :=
  match s with
  | [] => Some st
  | c :: r =>
      match lex_step st c with
      | Some st' => lex_run st' r
      | None => None
      end
  end.

(** End of input: an open number or name is closed, an open string is
    an error. *)
Definition lex_end (st : lexstate) : option (list token) :=
  let (mode, toks) := st in
  match mode with
  | LIdle => Some (rev toks)
  | LNum acc =>
      match close_num acc with Some t => Some (rev (t :: toks)) | None => None end
  | LWord acc =>
      match close_word acc with Some t => Some (rev (t :: toks)) | None => None end
  | _ => None
  end.

Definition tokenize (s : jsstring) : option (list token) :=
  match lex_run (LIdle, []) s with
  | Some st => lex_end st
  | None => None
  end.

(** Defining a property: a repeated key keeps its place and takes the
    later value. *)
Fixpoint setProp (k : jsstring) (v : value) (props : list (jsstring * value))
    : list (jsstring * value) :=
  match props with
  | [] => [(k, v)]
  | (k', v') :: r =>
      if str_eqb k' k then (k', v) :: r else (k', v') :: setProp k v r
  end.

Fixpoint parse_value (fuel : nat) (ts : list token) {struct fuel}
    : option (value * list token) :=
  match fuel with
  | O => None
  | S f =>
      match ts with
      | TNull :: r => Some (VNull, r)
      | TTrue :: r => Some (VBool true, r)
      | TFalse :: r => Some (VBool false, r)
      | TNum m e :: r => Some (VNum m e, r)
      | TStr s :: r => Some (VStr s, r)
      | TLBracket :: TRBracket :: r => Some (VArr [], r)
      | TLBracket :: r => parse_elements f r []
      | TLBrace :: TRBrace :: r => Some (VObj [], r)
      | TLBrace :: r => parse_members f r []
      | _ => None
      end
  end
with parse_elements (fuel : nat) (ts : list token) (acc : list value)
    {struct fuel} : option (value * list token) :=
  match fuel with
  | O => None
  | S f =>
      match parse_value f ts with
      | Some (v, TComma :: r) => parse_elements f r (v :: acc)
      | Some (v, TRBracket :: r) => Some (VArr (rev (v :: acc)), r)
      | _ => None
      end
  end
with parse_members (fuel : nat) (ts : list token)
    (acc : list (jsstring * value)) {struct fuel}
    : option (value * list token) :=
  match fuel with
  | O => None
  | S f =>
      match ts with
      | TStr k :: TColon :: r =>
          match parse_value f r with
          | Some (v, TComma :: r') => parse_members f r' (setProp k v acc)
          | Some (v, TRBrace :: r') => Some (VObj (setProp k v acc), r')
          | _ => None
          end
      | _ => None
      end
  end.

(** [JSON.parse(text)]: [None] stands for the raised [SyntaxError]. *)
Definition JSON_parse (text : jsstring) : option value :=
  match tokenize text with
  | Some ts =>
      match parse_value (S (length ts)) ts with
      | Some (v, []) => Some v
      | _ => None
      end
  | None => None
  end.

End Json.
Import Json.

(* ===================================================================== *)
(** ** src/utils.ts *)
(* ===================================================================== *)

(** [if (text.charCodeAt(0) === 0xfeff) text = text.slice(1)]. *)
Definition stripBOM (text : jsstring) : jsstring :=
  match text with
  | c :: r => if N.eqb c BOM then r else text
  | [] => text
  end.

Definition FENCE : jsstring := lit "```".

(** The text [parseJson] hands to [JSON.parse] for a string input: the
    byte-order mark and the Markdown code fence are stripped. *)
Definition normalizedText (input : jsstring) : jsstring :=
  let text := stripBOM input in
  let stripped := trim text in
  if startsWith stripped FENCE then
    let line0 := firstLine stripped in
    let body := slice_from (length line0 + 1) stripped in
    let body :=
      if endsWith (trimEnd body) FENCE
      then slice_drop_last 3 (trimEnd body)
      else body in
    trim body
  else stripped.

Section Utils.
Context {rt : Runtime}.

Definition parseJson (input : value) : completion value :=
  match input with
  | VStr s =>
      let text := normalizedText s in
      match JSON_parse text with
      | Some v => Returned v
      | None =>
          Threw (ThrownParseError
                   (ParseError.new (SyntaxError_message text) (Some s)))
      end
  | _ =>
      Threw (ThrownParseError
               (ParseError.new (lit "Expected string, got " ++ typeof input)
                  (Some (slice_to 500 (ToString input)))))
  end.

End Utils.

(* ===================================================================== *)
(** ** src/retry.ts *)
(* ===================================================================== *)

Module RetryState.
Record t : Type := mk {
  attempt : Z;
  maxAttempts : Z;
  remaining : Z;
  isRetry : bool;
  isFinalAttempt : bool;
  lastError : option Diagnostic.t;
  history : list AttemptRecord.t;
  feedback : unit -> option jsstring
}.
End RetryState.

(** What [retryStorage.getStore()] returns in the running asynchronous
    context: the state of the innermost enclosing [run], if any. *)
Definition Store : Type := option RetryState.t.

Definition getDefaultState : RetryState.t :=
  {| RetryState.attempt := 1;
     RetryState.maxAttempts := 1;
     RetryState.remaining := 0;
     RetryState.isRetry := false;
     RetryState.isFinalAttempt := true;
     RetryState.lastError := None;
     RetryState.history := [];
     RetryState.feedback := fun _ => None |}.

(** The [retry] proxy: reading property [prop] of it. *)
Definition retry {A : Type} (store : Store) (prop : RetryState.t -> A) : A :=
  match store with
  | None => prop getDefaultState
  | Some state => prop state
  end.

(** [retryStorage.run(state, fn)]: [fn] runs with [state] as the store;
    the caller's store is in force again afterwards. *)
Definition runWithRetryState {A : Type} (state : RetryState.t)
    (fn : Store -> A) (outer : Store) : A :=
  fn (Some state).

Definition runWithRetryStateAsync {A : Type} (state : RetryState.t)
    (fn : Store -> A) (outer : Store) : A :=
  fn (Some state).

(* ===================================================================== *)
(** ** src/testing.ts *)
(* ===================================================================== *)

Module MockRetryOptions.
Record t : Type := mk {
  attempt : option Z;
  maxAttempts : option Z;
  lastError : option Diagnostic.t;
  feedbackText : option jsstring
}.
End MockRetryOptions.

Definition mockRetryState (options : MockRetryOptions.t) : RetryState.t :=
  let attempt :=
    match MockRetryOptions.attempt options with Some a => a | None => 2 end in
  let maxAttempts :=
    match MockRetryOptions.maxAttempts options with Some m => m | None => 3 end in
  let lastError :=
    match MockRetryOptions.lastError options with
    | Some d => Some d
    | None =>
        match MockRetryOptions.feedbackText options with
        | Some text =>
            if nonEmpty text then
              Some {| Diagnostic.type := validation;
                      Diagnostic.message := text;
                      Diagnostic.field := None;
                      Diagnostic.expected := None;
                      Diagnostic.received := None;
                      Diagnostic.suggestion := None;
                      Diagnostic.rawOutput := None |}
            else None
        | None => None
        end
    end in
  {| RetryState.attempt := attempt;
     RetryState.maxAttempts := maxAttempts;
     RetryState.remaining := maxAttempts - attempt;
     RetryState.isRetry := 1 <? attempt;
     RetryState.isFinalAttempt := attempt =? maxAttempts;
     RetryState.lastError := lastError;
     RetryState.history := [];
     RetryState.feedback := fun _ =>
       match lastError with
       | Some d => Some (lit "Mock feedback for: " ++ Diagnostic.message d)
       | None => None
       end |}.

Definition mockRetry {A : Type} (options : MockRetryOptions.t)
    (fn : Store -> A) (outer : Store) : A :=
  runWithRetryStateAsync (mockRetryState options) fn outer.

(* ===================================================================== *)
(** ** The schema validator, as the guard consumes it *)
(* ===================================================================== *)

Inductive IssueCode : Type :=
| too_small | too_big | invalid_type | invalid_value | other_code.

Inductive PathSegment : Type :=
| PathKey (k : jsstring)
| PathIndex (i : N).

Module ZodIssue.
Record t : Type := mk {
  code : IssueCode;
  path : list PathSegment;
  message : jsstring;
  expected : option jsstring;         (* of an invalid_type issue *)
  values : option (list value)        (* of an invalid_value issue *)
}.
End ZodIssue.

(** The result of [schema.safeParse(v)]; a failure has at least one issue. *)
Inductive SafeParseResult : Type :=
| ParseSuccess
| ParseFailure (firstError : ZodIssue.t) (others : list ZodIssue.t).

Definition ZodType : Type := value -> SafeParseResult.

(* ===================================================================== *)
(** ** src/guard.ts *)
(* ===================================================================== *)

(** An argument the producer is called with: one the caller passed, the
    injected retry state, or the copy [{ ...asRecord, retry: state }] of
    the caller's options object. *)
Inductive callarg : Type :=
| ArgValue (v : value)
| ArgState (state : RetryState.t)
| ArgOptions (asRecord : list (jsstring * value)) (state : RetryState.t).

(** Observations of one guarded call, in the order they happen: the
    producer was invoked under a published state; the failure policy was
    applied to a violation. *)
Inductive event : Type :=
| Invoked (state : RetryState.t) (callArgs : list callarg)
| PolicyApplied (violation : HandoffViolation.t).

Inductive signal : Type :=
| Continue
| Done (result : completion value).

Definition optionTruthy (s : option jsstring) : bool :=
  match s with Some t => nonEmpty t | None => false end.

Definition includes (kinds : list Kind) (k : Kind) : bool :=
  existsb (Kind_eqb k) kinds.

(** [error.path.join('.')]. *)
Definition pathJoin (path : list PathSegment) : jsstring :=
  join (lit ".")
    (map (fun seg => match seg with
                     | PathKey k => k
                     | PathIndex i => decimal i
                     end) path).

Definition isWordChar (c : N) : bool :=
  (isDigit c || isLower c || (N.leb 65 c && N.leb c 90) || N.eqb c 95)%N.

Fixpoint takeWord (s : jsstring) : jsstring :=
  match s with
  | c :: r => if isWordChar c then c :: takeWord r else []
  | [] => []
  end.

(** [message.match(/received (\w+)/)?.[1]]. *)
Fixpoint matchReceived (s : jsstring) : option jsstring :=
  match s with
  | [] => None
  | _ :: r =>
      if startsWith s (lit "received ") then
        let w := takeWord (slice_from 9 s) in
        if nonEmpty w then Some w else matchReceived r
      else matchReceived r
  end.

(** Lines 205-221.  [inputParam in firstArg] also holds of a property
    that the object inherits. *)
Definition resolveInputData (args : list value) (inputParam : option jsstring)
    : value :=
  match args with
  | [] => VUndefined
  | firstArg :: _ =>
      if optionTruthy inputParam then
        match firstArg, inputParam with
        | VObj props, Some key =>
            (* inputParam in firstArg, then firstArg[inputParam] *)
            if hasProp key props then getProp key props
            else match inherited key with
                 | Some v => v
                 | None => firstArg
                 end
        | _, _ => firstArg
        end
      else firstArg
  end.

(** Lines 223-251.  [retry] is no property of [Object.prototype], so
    ['retry' in asRecord] is decided by the own properties. *)
Definition buildCallArgs (args : list value) (state : RetryState.t)
    : list callarg :=
  match args with
  | a0 :: a1 :: rest =>
      match a1 with
      | VUndefined => ArgValue a0 :: ArgState state :: map ArgValue rest
      | _ => map ArgValue args
      end
  | [VObj asRecord] =>
      match hasProp (lit "retry") asRecord, getProp (lit "retry") asRecord with
      | true, VUndefined => [ArgOptions asRecord state]
      | _, _ => [ArgValue (VObj asRecord); ArgState state]
      end
  | _ => map ArgValue args ++ [ArgState state]
  end.

Definition formatFeedback (diagnostic : option Diagnostic.t) : option jsstring :=
  match diagnostic with
  | None => None
  | Some d =>
      let lines :=
        [lit "[Retry] Previous attempt failed ("
           ++ Kind_name (Diagnostic.type d) ++ lit "):"] in
      let lines := lines ++ [lit "  Message: " ++ Diagnostic.message d] in
      let lines :=
        match Diagnostic.field d with
        | Some f => if nonEmpty f then lines ++ [lit "  Field: " ++ f] else lines
        | None => lines
        end in
      let lines :=
        match Diagnostic.suggestion d with
        | Some g =>
            if nonEmpty g then lines ++ [lit "  Suggestion: " ++ g] else lines
        | None => lines
        end in
      let lines :=
        match Diagnostic.rawOutput d with
        | Some r =>
            if nonEmpty r
            then lines ++ [lit "  Raw output: " ++ slice_to 200 r] else lines
        | None => lines
        end in
      Some (join [LF] lines)
  end.

Module Call.
Section WithRuntime.
Context {rt : Runtime}.

(** The mutable state of one guarded call: the world, the local
    variables [history] and [lastError], and the observations so
    far. *)
Record t : Type := mk {
  env : world;
  history : list AttemptRecord.t;
  lastError : option Diagnostic.t;
  log : list event
}.
End WithRuntime.
End Call.

Module Producer.
Section WithRuntime.
Context {rt : Runtime}.

(** The wrapped function: its [name] and what a call does under the
    ambient store, with the arguments it is applied to. *)
Record t : Type := mk {
  name : jsstring;
  apply : Store -> list callarg -> world -> completion value * world
}.
End WithRuntime.
End Producer.

Section OnFailPolicies.
Context {rt : Runtime}.

Inductive OnFail : Type :=
| raise | throw | return_none | returnNull | return_input | returnInput
| handler (h : HandoffViolation.t -> world -> completion value * world).

End OnFailPolicies.

Module GuardOptions.
Section WithRuntime.
Context {rt : Runtime}.

Record t : Type := mk {
  input : option ZodType;
  output : option ZodType;
  nodeName : option jsstring;
  maxAttempts : option Z;
  retryOn : option (list Kind);
  onFail : option OnFail;
  inputParam : option jsstring
}.
End WithRuntime.
End GuardOptions.

Section Guard.
Context {rt : Runtime}.

Definition generateSuggestion (error : ZodIssue.t) : jsstring :=
  let field := orElse (pathJoin (ZodIssue.path error)) (lit "value") in
  match ZodIssue.code error with
  | too_small => lit "Increase the length/value of '" ++ field ++ lit "'"
  | too_big => lit "Decrease the length/value of '" ++ field ++ lit "'"
  | invalid_type =>
      let expected :=
        match ZodIssue.expected error with
        | Some e => e
        | None => lit "undefined"
        end in
      match matchReceived (ZodIssue.message error) with
      | Some received =>
          lit "'" ++ field ++ lit "' should be " ++ expected
            ++ lit ", got " ++ received
      | None => lit "'" ++ field ++ lit "' should be " ++ expected
      end
  | invalid_value =>
      lit "'" ++ field ++ lit "' must be one of: "
        ++ match ZodIssue.values error with
           | Some vs =>
               join (lit ", ")
                 (map (fun v => match v with
                                | VUndefined | VNull => []
                                | _ => ToString v
                                end) vs)
           | None => lit "undefined"
           end
  | other_code =>
      lit "Fix '" ++ field ++ lit "': " ++ ZodIssue.message error
  end.

Definition handleFailure (violation : HandoffViolation.t) (inputData : value)
    (onFail : OnFail) (w : world) : completion value * world :=
  match onFail with
  | raise | throw => (Threw (ThrownViolation violation), w)
  | return_none | returnNull => (Returned VNull, w)
  | return_input | returnInput => (Returned inputData, w)
  | handler h => h violation w
  end.

Variable options : GuardOptions.t.
Variable fn : Producer.t.

(** The defaults of the destructuring in [guard]. *)
Definition maxAttemptsOf : Z :=
  match GuardOptions.maxAttempts options with Some n => n | None => 1 end.

Definition retryOnOf : list Kind :=
  match GuardOptions.retryOn options with
  | Some kinds => kinds
  | None => [validation; parse]
  end.

Definition onFailOf : OnFail :=
  match GuardOptions.onFail options with Some p => p | None => raise end.

(** [nodeName ?? fn.name ?? 'anonymous']; a function always has a name. *)
Definition resolvedNodeName : jsstring :=
  match GuardOptions.nodeName options with
  | Some n => n
  | None => Producer.name fn
  end.

Variable args : list value.
Variable outer : Store.

Definition inputDataOf : value :=
  resolveInputData args (GuardOptions.inputParam options).

(** [fieldPath: firstError.path.join('.') || 'root'] and the fields
    around it, shared by the two schema violations. *)
Definition schemaContext (contractType : ContractType)
    (firstError : ZodIssue.t) (subject : value) : ViolationContext.t :=
  {| ViolationContext.nodeName := resolvedNodeName;
     ViolationContext.contractType := contractType;
     ViolationContext.fieldPath :=
       orElse (pathJoin (ZodIssue.path firstError)) (lit "root");
     ViolationContext.expected := ZodIssue.message firstError;
     ViolationContext.received :=
       (* JSON.stringify(subject)?.slice(0, 200) ?? 'undefined' *)
       match JSON_stringify subject with
       | Returned (Some text) => slice_to 200 text
       | _ => lit "undefined"
       end;
     ViolationContext.receivedType := typeof subject;
     ViolationContext.suggestion := generateSuggestion firstError |}.

(** Evaluating that object literal (lines 59-68 and 126-135): when
    [JSON.stringify(subject)] throws, so does the literal, and no
    context comes to be. *)
Definition contextOrThrow (contractType : ContractType)
    (firstError : ZodIssue.t) (subject : value)
    : completion ViolationContext.t :=
  match JSON_stringify subject with
  | Threw error => Threw error
  | Returned _ => Returned (schemaContext contractType firstError subject)
  end.

(** The state of lines 81-90.  The [feedback] closure reads the
    variable [lastError], which keeps this value until the attempt is
    over. *)
Definition stateOf (attempt : Z) (s : Call.t) : RetryState.t :=
  {| RetryState.attempt := attempt;
     RetryState.maxAttempts := maxAttemptsOf;
     RetryState.remaining := maxAttemptsOf - attempt;
     RetryState.isRetry := 1 <? attempt;
     RetryState.isFinalAttempt := attempt =? maxAttemptsOf;
     RetryState.lastError := Call.lastError s;
     RetryState.history := Call.history s;
     RetryState.feedback := fun _ => formatFeedback (Call.lastError s) |}.

(** The [catch] block of lines 151-197. *)
Definition catchBlock (attempt startTime : Z) (error : thrown) (s : Call.t)
    : signal * Call.t :=
  let (t, w) := Date_now (Call.env s) in
  let durationMs := t - startTime in
  match error with
  | ThrownParseError e =>
      let diagnostic :=
        createDiagnostic
          {| Diagnostic.type := parse;
             Diagnostic.message := ParseError.message e;
             Diagnostic.field := None;
             Diagnostic.expected := None;
             Diagnostic.received := None;
             Diagnostic.suggestion := Some (lit "Return valid JSON");
             Diagnostic.rawOutput := Some (ParseError.rawOutput e) |} in
      let (stamp, w1) := Date_now w in
      let history' :=
        Call.history s
          ++ [ {| AttemptRecord.attempt := attempt;
                  AttemptRecord.timestamp := stamp;
                  AttemptRecord.durationMs := durationMs;
                  AttemptRecord.diagnostic := Some diagnostic |} ] in
      let s1 :=
        {| Call.env := w1; Call.history := history';
           Call.lastError := Some diagnostic; Call.log := Call.log s |} in
      if (attempt <? maxAttemptsOf) && includes retryOnOf parse
      then (Continue, s1)
      else if (maxAttemptsOf =? 1) || negb (includes retryOnOf parse)
      then (Done (Threw error), s1)
      else
        let violation :=
          HandoffViolation.new
            {| ViolationContext.nodeName := resolvedNodeName;
               ViolationContext.contractType := output_contract;
               ViolationContext.fieldPath := lit "root";
               ViolationContext.expected := lit "Valid JSON";
               ViolationContext.received :=
                 slice_to 200 (ParseError.rawOutput e);
               ViolationContext.receivedType := lit "string";
               ViolationContext.suggestion := lit "Return valid JSON" |}
            (Some history') in
        let (r, w2) := handleFailure violation inputDataOf onFailOf w1 in
        (Done r,
         {| Call.env := w2; Call.history := history';
            Call.lastError := Some diagnostic;
            Call.log := Call.log s ++ [PolicyApplied violation] |})
  | _ =>
      (Done (Threw error),
       {| Call.env := w; Call.history := Call.history s;
          Call.lastError := Call.lastError s; Call.log := Call.log s |})
  end.

(** Lines 143-150: the success record and the result. *)
Definition succeed (attempt startTime : Z) (result : value) (s : Call.t)
    : signal * Call.t :=
  let (stamp, w1) := Date_now (Call.env s) in
  let (t, w2) := Date_now w1 in
  (Done (Returned result),
   {| Call.env := w2;
      Call.history :=
        Call.history s
          ++ [ {| AttemptRecord.attempt := attempt;
                  AttemptRecord.timestamp := stamp;
                  AttemptRecord.durationMs := t - startTime;
                  AttemptRecord.diagnostic := None |} ];
      Call.lastError := Call.lastError s; Call.log := Call.log s |}).

(** Lines 101-139: the output failed validation with [firstError].
    All of this is inside the [try] block: what [JSON.stringify] throws
    while the diagnostic (line 108) or the context of the violation
    (line 132) is built, and what the failure policy throws, goes
    through [catchBlock].  At line 108 nothing has been recorded yet. *)
Definition outputInvalid (attempt startTime : Z) (result : value)
    (firstError : ZodIssue.t) (s : Call.t) : signal * Call.t :=
  match JSON_stringify result with
  | Threw error => catchBlock attempt startTime error s
  | Returned text =>
      let diagnostic :=
        createDiagnostic
          {| Diagnostic.type := validation;
             Diagnostic.message := ZodIssue.message firstError;
             Diagnostic.field :=
               Some (orElse (pathJoin (ZodIssue.path firstError))
                       (lit "root"));
             Diagnostic.expected := Some (ZodIssue.message firstError);
             Diagnostic.received := option_map (slice_to 200) text;
             Diagnostic.suggestion := Some (generateSuggestion firstError);
             Diagnostic.rawOutput := None |} in
      let (stamp, w1) := Date_now (Call.env s) in
      let (t, w2) := Date_now w1 in
      let history' :=
        Call.history s
          ++ [ {| AttemptRecord.attempt := attempt;
                  AttemptRecord.timestamp := stamp;
                  AttemptRecord.durationMs := t - startTime;
                  AttemptRecord.diagnostic := Some diagnostic |} ] in
      let s1 :=
        {| Call.env := w2; Call.history := history';
           Call.lastError := Some diagnostic; Call.log := Call.log s |} in
      if (attempt <? maxAttemptsOf) && includes retryOnOf validation
      then (Continue, s1)
      else
        match contextOrThrow output_contract firstError result with
        | Threw error => catchBlock attempt startTime error s1
        | Returned context =>
            let violation := HandoffViolation.new context (Some history') in
            let (r, w3) := handleFailure violation inputDataOf onFailOf w2 in
            let s2 :=
              {| Call.env := w3; Call.history := history';
                 Call.lastError := Some diagnostic;
                 Call.log := Call.log s ++ [PolicyApplied violation] |} in
            match r with
            | Returned v => (Done (Returned v), s2)
            | Threw error => catchBlock attempt startTime error s2
            end
        end
  end.

(** One iteration of the loop of lines 78-198. *)
Definition attemptBody (attempt : Z) (s : Call.t) : signal * Call.t :=
  let (startTime, w1) := Date_now (Call.env s) in
  let state := stateOf attempt s in
  let callArgs := buildCallArgs args state in
  let (outcome, w2) :=
    runWithRetryStateAsync state
      (fun store => Producer.apply fn store callArgs w1) outer in
  let s1 :=
    {| Call.env := w2; Call.history := Call.history s;
       Call.lastError := Call.lastError s;
       Call.log := Call.log s ++ [Invoked state callArgs] |} in
  match outcome with
  | Returned result =>
      match GuardOptions.output options with
      | Some outputSchema =>
          match outputSchema result with
          | ParseFailure firstError _ =>
              outputInvalid attempt startTime result firstError s1
          | ParseSuccess => succeed attempt startTime result s1
          end
      | None => succeed attempt startTime result s1
      end
  | Threw error => catchBlock attempt startTime error s1
  end.

(** [for (let attempt = 1; attempt <= maxAttempts; attempt++)], then
    the [throw] of line 200.  [None]: the fuel ran out. *)
Fixpoint attemptLoop (fuel : nat) (attempt : Z) (s : Call.t)
    : option (completion value * Call.t) :=
  if attempt <=? maxAttemptsOf then
    match fuel with
    | O => None
    | S fuel' =>
        match attemptBody attempt s with
        | (Continue, s') => attemptLoop fuel' (attempt + 1) s'
        | (Done r, s') => Some (r, s')
        end
    end
  else Some (Threw (ThrownError (lit "Unexpected end of retry loop")), s).

(** The function [guard(options)(fn)] returns, applied to [args] in the
    world [w]. *)
Definition guarded (w : world) : option (completion value * Call.t) :=
  let inputData := inputDataOf in
  let s0 :=
    {| Call.env := w; Call.history := []; Call.lastError := None;
       Call.log := [] |} in
  let run := attemptLoop (Z.to_nat maxAttemptsOf) 1 s0 in
  match GuardOptions.input options with
  | Some inputSchema =>
      match inputSchema inputData with
      | ParseFailure firstError _ =>
          match contextOrThrow input_contract firstError inputData with
          | Threw error =>
              (* line 65 throws, outside any [try] *)
              Some (Threw error, s0)
          | Returned context =>
              let violation := HandoffViolation.new context None in
              let (r, w1) := handleFailure violation inputData onFailOf w in
              Some (r,
                    {| Call.env := w1; Call.history := [];
                       Call.lastError := None;
                       Call.log := [PolicyApplied violation] |})
          end
      | ParseSuccess => run
      end
  | None => run
  end.

End Guard.

(* ===================================================================== *)
(** ** A concrete runtime and configurations, for closed examples *)
(* ===================================================================== *)

(** A runtime whose world is a millisecond counter that every reading of
    the clock advances.  [String(v)] and [JSON.stringify(v)] are given
    for the values the examples below use. *)
Definition demoRuntime : Runtime :=
  {| world := nat;
     Date_now := fun w => (Z.of_nat w, S w);
     ToString := fun v =>
       match v with
       | VUndefined => lit "undefined"
       | VNull => lit "null"
       | VBool true => lit "true"
       | VBool false => lit "false"
       | VNum m 0 | VBigInt m =>
           (if m <? 0 then lit "-" else []) ++ decimal (Z.to_N (Z.abs m))
       | VStr s => s
       | VFunction name =>
           lit "function " ++ name ++ lit "() { [native code] }"
       | _ => lit "[object Object]"
       end;
     JSON_stringify := fun v =>
       match v with
       | VUndefined | VFunction _ => Returned None
       | VNull => Returned (Some (lit "null"))
       | VBigInt _ =>
           Threw (ThrownTypeError (lit "Do not know how to serialize a BigInt"))
       | _ => Returned (Some (lit "{}"))
       end;
     SyntaxError_message := fun _ => lit "Unexpected token" |}.


(** The text [info] on the opening fence line, then [body], then the
    closing fence on a line of its own. *)
Definition fenced (info body : jsstring) : jsstring :=
  FENCE ++ info ++ LF :: body ++ LF :: FENCE.


(* ===================================================================== *)
(** ** Vocabulary of the properties *)
(* ===================================================================== *)

(** The [rawOutput] of a diagnostic, when present, has at most 500 code
    units. *)
Definition rawOutputBounded (d : Diagnostic.t) : Prop :=
  match Diagnostic.rawOutput d with
  | Some r => (length r <= 500)%nat
  | None => True
  end.

(** A diagnostic the guard holds is a value [createDiagnostic] returned,
    unchanged since, and so has a bounded [rawOutput]. *)
Definition constructedDiagnostic (d : option Diagnostic.t) : Prop :=
  match d with
  | Some d => (exists data, d = createDiagnostic data) /\ rawOutputBounded d
  | None => True
  end.

Definition constructedLedger (ledger : list AttemptRecord.t) : Prop :=
  Forall (fun r => constructedDiagnostic (AttemptRecord.diagnostic r)) ledger.

(** The derived fields of a retry state agree with its counters. *)
Definition stateConsistent (st : RetryState.t) : Prop :=
  RetryState.remaining st = RetryState.maxAttempts st - RetryState.attempt st
  /\ RetryState.isRetry st = (1 <? RetryState.attempt st)
  /\ RetryState.isFinalAttempt st
     = (RetryState.attempt st =? RetryState.maxAttempts st).

(** What every observation of a call satisfies. *)
Definition eventSound (ev : event) : Prop :=
  match ev with
  | Invoked st _ =>
      stateConsistent st
      /\ constructedDiagnostic (RetryState.lastError st)
      /\ constructedLedger (RetryState.history st)
  | PolicyApplied v =>
      constructedLedger (HandoffViolation.history v)
      /\ HandoffViolation.totalAttempts v
         = Z.max 1 (Z.of_nat (length (HandoffViolation.history v)))
  end.

(** The states under which the producer was invoked, in order. *)
Fixpoint invocations (log : list event) : list RetryState.t :=
  match log with
  | [] => []
  | Invoked st _ :: r => st :: invocations r
  | PolicyApplied _ :: r => invocations r
  end.

(** The violations the failure policy was applied to, in order. *)
Fixpoint violations (log : list event) : list HandoffViolation.t :=
  match log with
  | [] => []
  | Invoked _ _ :: r => violations r
  | PolicyApplied v :: r => v :: violations r
  end.

(** The ledger numbers its records 1, 2, 3, ... *)
Definition numbered (ledger : list AttemptRecord.t) : Prop :=
  map AttemptRecord.attempt ledger
  = map Z.of_nat (seq 1 (length ledger)).

Section Vocabulary.
Context {rt : Runtime}.

Definition soundCall (s : Call.t) : Prop :=
  constructedLedger (Call.history s)
  /\ constructedDiagnostic (Call.lastError s)
  /\ Forall eventSound (Call.log s).

(** Stores that the library establishes: none, the state of an attempt
    of a guarded call, the state [mockRetry] synthesises. *)
Inductive Published : Store -> Prop :=
| Published_none : Published None
| Published_guard options fn args outer w r s st callArgs :
    guarded options fn args outer w = Some (r, s) ->
    In (Invoked st callArgs) (Call.log s) ->
    Published (Some st)
| Published_mock mockOptions :
    Published (Some (mockRetryState mockOptions)).

End Vocabulary.

Section Vocabulary2.
Context {rt : Runtime}.
Variable options : GuardOptions.t.
Variable fn : Producer.t.
Variable args : list value.

(** What the producer does when attempt number [attempt] invokes it in
    call state [s]: it runs under the state of that attempt, after the
    clock has been read once. *)
Definition producerOutcome (attempt : Z) (s : Call.t)
    : completion value * world :=
  Producer.apply fn (Some (stateOf options attempt s))
    (buildCallArgs args (stateOf options attempt s))
    (snd (Date_now (Call.env s))).

(** The event of that invocation. *)
Definition invocationOf (attempt : Z) (s : Call.t) : event :=
  Invoked (stateOf options attempt s)
    (buildCallArgs args (stateOf options attempt s)).

(** The call state a guarded call starts its loop in. *)
Definition initialCall (w : world) : Call.t :=
  {| Call.env := w; Call.history := []; Call.lastError := None;
     Call.log := [] |}.

End Vocabulary2.

Section Vocabulary3.
Context {rt : Runtime}.

(** Every invocation of the producer returns, and returns a value that
    the schema rejects. *)
Definition alwaysInvalid (fn : Producer.t) (schema : ZodType) : Prop :=
  forall store callArgs w,
  exists v w',
    Producer.apply fn store callArgs w = (Returned v, w')
    /\ exists firstError others, schema v = ParseFailure firstError others.

(** [JSON.stringify(v)] returns, a text or [undefined]: it does not
    throw. *)
Definition serialisable (v : value) : Prop :=
  exists text, JSON_stringify v = Returned text.

(** Whatever the producer returns can be serialised. *)
Definition returnsSerialisable (fn : Producer.t) : Prop :=
  forall store callArgs w v w',
    Producer.apply fn store callArgs w = (Returned v, w') ->
    serialisable v.

(** The input schema, if there is one, accepts the input. *)
Definition inputAccepted (options : GuardOptions.t) (args : list value)
    : Prop :=
  forall inputSchema,
    GuardOptions.input options = Some inputSchema ->
    inputSchema (inputDataOf options args) = ParseSuccess.

End Vocabulary3.

Section Vocabulary4.
Context {rt : Runtime}.
Variable options : GuardOptions.t.
Variable fn : Producer.t.
Variable args : list value.
Variable outer : Store.

(** [Attempting w fuel attempt s]: the guarded call that started in the
    world [w] has passed input validation and is about to test the loop
    condition for attempt number [attempt], in call state [s], with
    [fuel] iterations left to it. *)
Inductive Attempting (w : world) : nat -> Z -> Call.t -> Prop :=
| Attempting_first :
    inputAccepted options args ->
    Attempting w (Z.to_nat (maxAttemptsOf options)) 1 (initialCall w)
| Attempting_next fuel attempt s s' :
    Attempting w (S fuel) attempt s ->
    attempt <= maxAttemptsOf options ->
    attemptBody options fn args outer attempt s = (Continue, s') ->
    Attempting w fuel (attempt + 1) s'.

End Vocabulary4.

(* ===================================================================== *)
(** ** Configurations for the closed examples *)
(* ===================================================================== *)

(** The issue a schema with a required number [score] reports on an
    object without it. *)
Definition missingScore : ZodIssue.t :=
  {| ZodIssue.code := invalid_type;
     ZodIssue.path := [PathKey (lit "score")];
     ZodIssue.message := lit "Invalid input: expected number, received undefined";
     ZodIssue.expected := Some (lit "number");
     ZodIssue.values := None |}.

Definition rejectAll : ZodType := fun _ => ParseFailure missingScore [].

Definition demoOptions (input : option ZodType) (maxAttempts : Z)
    (retryOn : option (list Kind)) (onFail : OnFail (rt := demoRuntime))
    (inputParam : option jsstring) : GuardOptions.t (rt := demoRuntime) :=
  {| GuardOptions.input := input;
     GuardOptions.output := Some rejectAll;
     GuardOptions.nodeName := None;
     GuardOptions.maxAttempts := Some maxAttempts;
     GuardOptions.retryOn := retryOn;
     GuardOptions.onFail := Some onFail;
     GuardOptions.inputParam := inputParam |}.

(** A producer that takes one millisecond and returns [v]. *)
Definition returning (v : value) : Producer.t (rt := demoRuntime) :=
  Producer.mk (rt := demoRuntime) (lit "producer")
    (fun _ _ (w : nat) => (Returned v, S w)).

(** A producer that takes one millisecond and throws [e]. *)
Definition throwing (e : thrown) : Producer.t (rt := demoRuntime) :=
  Producer.mk (rt := demoRuntime) (lit "producer")
    (fun _ _ (w : nat) => (Threw e, S w)).

Definition badJson : ParseError.t :=
  ParseError.new (lit "bad json") (Some (lit "not json")).

Definition testInput : value :=
  VObj [(lit "name", VStr (lit "Test")); (lit "value", VNum 1 0)].

(** The options object [{ state: testInput }]. *)
Definition wrappedInput : value := VObj [(lit "state", testInput)].


(** A schema of objects with a property [score]. *)
Definition requireScore : ZodType :=
  fun v =>
    match v with
    | VObj props =>
        if hasProp (lit "score") props then ParseSuccess
        else ParseFailure missingScore []
    | _ => ParseFailure missingScore []
    end.

(** The producer of the test "should be truthy on retry": it reads
    [retry.isRetry] and returns a valid object on a retry only. *)
Definition retryAware : Producer.t (rt := demoRuntime) :=
  Producer.mk (rt := demoRuntime) (lit "producer")
    (fun store _ (w : nat) =>
       if retry store RetryState.isRetry
       then (Returned (VObj [(lit "result", VStr (lit "ok"));
                             (lit "score", VNum 1 0)]), S w)
       else (Returned (VObj [(lit "result", VStr (lit "bad"))]), S w)).

(** A failure handler that throws a [ParseError] of its own. *)
Definition parseThrowingHandler : OnFail (rt := demoRuntime) :=
  handler (rt := demoRuntime)
    (fun _ (w : nat) => (Threw (ThrownParseError badJson), w)).

(** What a closed example observes of a call: its completion, the number
    of invocations, the attempt numbers of its ledger and the lengths of
    the ledgers of the violations the policy was applied to. *)
Definition observe (run : option (completion value * Call.t (rt := demoRuntime)))
    : option (completion value * nat * list Z * list nat) :=
  match run with
  | Some (r, s) =>
      Some (r, length (invocations (Call.log s)),
            map AttemptRecord.attempt (Call.history s),
            map (fun v => length (HandoffViolation.history v))
              (violations (Call.log s)))
  | None => None
  end.


(* ===================================================================== *)
(** ** src/types.ts: serialisation of a violation *)
(* ===================================================================== *)

Module SerializedRecord.
Record t : Type := mk {
  attempt : Z;
  timestamp : jsstring;             (* an ISO-8601 text *)
  durationMs : Z;
  diagnostic : option Diagnostic.t
}.
End SerializedRecord.

Module ViolationDict.
Record t : Type := mk {
  nodeName : jsstring;
  fieldPath : jsstring;
  context : ViolationContext.t;
  totalAttempts : Z;
  history : list SerializedRecord.t
}.
End ViolationDict.

Section Serialization.
(** [date.toISOString()] of the date at an epoch millisecond. *)
Variable toISOString : Z -> jsstring.

(** [violation.toDict()]. *)
Definition toDict (violation : HandoffViolation.t) : ViolationDict.t :=
  {| ViolationDict.nodeName := HandoffViolation.nodeName violation;
     ViolationDict.fieldPath := HandoffViolation.fieldPath violation;
     ViolationDict.context := HandoffViolation.context violation;
     ViolationDict.totalAttempts := HandoffViolation.totalAttempts violation;
     ViolationDict.history :=
       map (fun record =>
              {| SerializedRecord.attempt := AttemptRecord.attempt record;
                 SerializedRecord.timestamp :=
                   toISOString (AttemptRecord.timestamp record);
                 SerializedRecord.durationMs := AttemptRecord.durationMs record;
                 SerializedRecord.diagnostic := AttemptRecord.diagnostic record
              |})
         (HandoffViolation.history violation) |}.

End Serialization.

(* ===================================================================== *)
(** ** Vocabulary of the further properties *)
(* ===================================================================== *)

(** A text of blanks only. *)
Definition blank (s : jsstring) : Prop :=
  Forall (fun c => isWhiteSpace c = true) s.

(** The argument is, or carries, the injected retry state. *)
Definition carriesState (a : callarg) : bool :=
  match a with
  | ArgValue _ => false
  | ArgState _ => true
  | ArgOptions _ _ => true
  end.

(** The diagnostic of lines 155-160, made from a caught [ParseError]. *)
Definition parseDiagnostic (e : ParseError.t) : Diagnostic.t :=
  createDiagnostic
    {| Diagnostic.type := parse;
       Diagnostic.message := ParseError.message e;
       Diagnostic.field := None;
       Diagnostic.expected := None;
       Diagnostic.received := None;
       Diagnostic.suggestion := Some (lit "Return valid JSON");
       Diagnostic.rawOutput := Some (ParseError.rawOutput e) |}.

(** What a published state shows of the attempts before it: nothing on
    attempt 1; on a retry the diagnostic of the last record of its
    ledger, which is also what [feedback()] renders. *)
Definition firstOrRetry (st : RetryState.t) : Prop :=
  (RetryState.attempt st = 1
   /\ RetryState.isRetry st = false
   /\ RetryState.lastError st = None
   /\ RetryState.history st = []
   /\ RetryState.feedback st tt = None)
  \/ (1 < RetryState.attempt st
      /\ RetryState.isRetry st = true
      /\ exists earlier record d,
           RetryState.history st = earlier ++ [record]
           /\ AttemptRecord.diagnostic record = Some d
           /\ RetryState.lastError st = Some d
           /\ RetryState.feedback st tt = formatFeedback (Some d)
           /\ RetryState.feedback st tt <> None).

Section Vocabulary5.
Context {rt : Runtime}.

(** One of the six named actions, not a custom handler. *)
Definition isAction (p : OnFail) : bool :=
  match p with
  | handler _ => false
  | _ => true
  end.

Variable options : GuardOptions.t.
Variable fn : Producer.t.
Variable args : list value.

(** The failure policy throws no [ParseError], whatever violation it is
    applied to. *)
Definition policyThrowsNoParseError : Prop :=
  forall violation w e,
    fst (handleFailure violation (inputDataOf options args)
           (onFailOf options) w)
    <> Threw (ThrownParseError e).

(** The output schema, if there is one, accepts [v]. *)
Definition outputAccepts (v : value) : Prop :=
  match GuardOptions.output options with
  | Some outputSchema => outputSchema v = ParseSuccess
  | None => True
  end.

(** The diagnostic of lines 103-110, made from the first issue of a
    rejected output, where [JSON.stringify(result)] returns. *)
Definition validationDiagnostic (firstError : ZodIssue.t) (result : value)
    : Diagnostic.t :=
  createDiagnostic
    {| Diagnostic.type := validation;
       Diagnostic.message := ZodIssue.message firstError;
       Diagnostic.field :=
         Some (orElse (pathJoin (ZodIssue.path firstError)) (lit "root"));
       Diagnostic.expected := Some (ZodIssue.message firstError);
       Diagnostic.received :=
         (* JSON.stringify(result)?.slice(0, 200) *)
         match JSON_stringify result with
         | Returned text => option_map (slice_to 200) text
         | Threw _ => None
         end;
       Diagnostic.suggestion := Some (generateSuggestion firstError);
       Diagnostic.rawOutput := None |}.

(** The violation of lines 125-137. *)
Definition outputViolation (firstError : ZodIssue.t) (result : value)
    (ledger : list AttemptRecord.t) : HandoffViolation.t :=
  HandoffViolation.new (schemaContext options fn output_contract firstError result)
    (Some ledger).

(** The violation of lines 180-191. *)
Definition parseViolation (e : ParseError.t) (ledger : list AttemptRecord.t)
    : HandoffViolation.t :=
  HandoffViolation.new
    {| ViolationContext.nodeName := resolvedNodeName options fn;
       ViolationContext.contractType := output_contract;
       ViolationContext.fieldPath := lit "root";
       ViolationContext.expected := lit "Valid JSON";
       ViolationContext.received := slice_to 200 (ParseError.rawOutput e);
       ViolationContext.receivedType := lit "string";
       ViolationContext.suggestion := lit "Return valid JSON" |}
    (Some ledger).

(** What every violation of a guarded call carries. *)
Definition violationWellFormed (v : HandoffViolation.t) : Prop :=
  HandoffViolation.nodeName v = resolvedNodeName options fn
  /\ ViolationContext.nodeName (HandoffViolation.context v)
     = resolvedNodeName options fn
  /\ HandoffViolation.fieldPath v
     = ViolationContext.fieldPath (HandoffViolation.context v)
  /\ HandoffViolation.fieldPath v <> []
  /\ (length (ViolationContext.received (HandoffViolation.context v)) <= 200)%nat
  /\ HandoffViolation.message v
     = lit "Validation failed at '" ++ resolvedNodeName options fn
         ++ lit "': "
         ++ ViolationContext.expected (HandoffViolation.context v)
  /\ (ViolationContext.contractType (HandoffViolation.context v)
      = input_contract ->
      HandoffViolation.history v = []).

End Vocabulary5.

Section Vocabulary6.
Context {rt : Runtime}.

(** From [s] to [s']: [record] was pushed on the ledger, [lastError] is
    [d], and [events] were observed. *)
Definition pushed (s s' : Call.t) (record : AttemptRecord.t)
    (d : option Diagnostic.t) (events : list event) : Prop :=
  Call.history s' = Call.history s ++ [record]
  /\ Call.lastError s' = d
  /\ Call.log s' = Call.log s ++ events.

(** From [s] to [s']: the ledger and [lastError] are as they were, and
    [events] were observed. *)
Definition kept (s s' : Call.t) (events : list event) : Prop :=
  Call.history s' = Call.history s
  /\ Call.lastError s' = Call.lastError s
  /\ Call.log s' = Call.log s ++ events.

End Vocabulary6.

Section Vocabulary7.
Context {rt : Runtime}.
Variable options : GuardOptions.t.
Variable fn : Producer.t.
Variable args : list value.

(** The violation of lines 58-69, of an input the schema rejects. *)
Definition inputViolation (firstError : ZodIssue.t) : HandoffViolation.t :=
  HandoffViolation.new
    (schemaContext options fn input_contract firstError
       (inputDataOf options args)) None.

(** A violation the guard builds in its loop. *)
Definition loopViolation (v : HandoffViolation.t) : Prop :=
  (exists firstError result ledger,
      v = outputViolation options fn firstError result ledger)
  \/ (exists e ledger, v = parseViolation options fn e ledger).

(** The record of a failed attempt: it has a diagnostic. *)
Definition failed (record : AttemptRecord.t) : Prop :=
  AttemptRecord.diagnostic record <> None.

End Vocabulary7.

Section Vocabulary8.
Context {rt : Runtime}.
Variable options : GuardOptions.t.

(** The failure policy is to throw the violation. *)
Definition policyRaises : Prop :=
  onFailOf options = raise \/ onFailOf options = throw.

End Vocabulary8.

(* ===================================================================== *)
(** ** More closed configurations *)
(* ===================================================================== *)

(** Options with the output schema [requireScore] and no input schema. *)
Definition scoreOptions (maxAttempts : option Z)
    (retryOn : option (list Kind))
    (onFail : option (OnFail (rt := demoRuntime)))
    : GuardOptions.t (rt := demoRuntime) :=
  {| GuardOptions.input := None;
     GuardOptions.output := Some requireScore;
     GuardOptions.nodeName := None;
     GuardOptions.maxAttempts := maxAttempts;
     GuardOptions.retryOn := retryOn;
     GuardOptions.onFail := onFail;
     GuardOptions.inputParam := None |}.

Definition scored : value :=
  VObj [(lit "result", VStr (lit "ok")); (lit "score", VNum 1 0)].

Definition unscored : value := VObj [(lit "result", VStr (lit "bad"))].
(* ===================================================================== *)
(** ** Lemmas on strings *)
(* ===================================================================== *)

Lemma slice_to_length (n : nat) (s : jsstring) :
  (length (slice_to n s) <= n)%nat.
Proof. unfold slice_to. apply firstn_le_length. Qed.

Lemma trimEnd_snoc_ws (s : jsstring) (c : N) :
  isWhiteSpace c = true -> trimEnd (s ++ [c]) = trimEnd s.
Proof.
  intros Hc. induction s as [|d r IH]; simpl.
  - rewrite Hc. reflexivity.
  - rewrite IH. reflexivity.
Qed.

Lemma trimEnd_snoc_keep (s : jsstring) (c : N) :
  isWhiteSpace c = false -> trimEnd (s ++ [c]) = s ++ [c].
Proof.
  intros Hc. induction s as [|d r IH]; simpl.
  - rewrite Hc. reflexivity.
  - rewrite IH. destruct r; reflexivity.
Qed.

Lemma trimEnd_split (s : jsstring) :
  exists w, s = trimEnd s ++ w /\ Forall (fun c => isWhiteSpace c = true) w.
Proof.
  induction s as [|c r [w [Hs Hw]]]; simpl.
  - exists []. split; [reflexivity | constructor].
  - destruct (trimEnd r) as [|t ts] eqn:Ht.
    + destruct (isWhiteSpace c) eqn:Hc.
      * exists (c :: w). split.
        -- simpl in Hs. rewrite <- Hs. reflexivity.
        -- constructor; assumption.
      * exists w. split; [|assumption].
        simpl in *. rewrite <- Hs. reflexivity.
    + exists w. split; [|assumption].
      simpl. f_equal. exact Hs.
Qed.

Lemma trimStart_split (s : jsstring) :
  exists w, s = w ++ trimStart s /\ Forall (fun c => isWhiteSpace c = true) w.
Proof.
  induction s as [|c r [w [Hs Hw]]]; simpl.
  - exists []. split; [reflexivity | constructor].
  - destruct (isWhiteSpace c) eqn:Hc.
    + exists (c :: w). split.
      * simpl. f_equal. exact Hs.
      * constructor; assumption.
    + exists []. split; [reflexivity | constructor].
Qed.

Lemma trim_cons_ws (c : N) (s : jsstring) :
  isWhiteSpace c = true -> trim (c :: s) = trim s.
Proof.
  intros Hc. unfold trim. simpl.
  destruct (trimEnd s) as [|t ts] eqn:Ht.
  - rewrite Hc. reflexivity.
  - simpl. rewrite Hc. reflexivity.
Qed.

Lemma trim_snoc_ws (s : jsstring) (c : N) :
  isWhiteSpace c = true -> trim (s ++ [c]) = trim s.
Proof. intros Hc. unfold trim. rewrite trimEnd_snoc_ws by assumption. reflexivity. Qed.

Lemma trim_stripBOM (s : jsstring) : trim (stripBOM s) = trim s.
Proof.
  destruct s as [|c r]; [reflexivity|]. simpl.
  destruct (N.eqb c BOM) eqn:Hc; [|reflexivity].
  apply N.eqb_eq in Hc. subst c. symmetry. apply trim_cons_ws. reflexivity.
Qed.

(** A text delimited by non-blank code units is its own trimmed form. *)
Lemma trim_delimited (c d : N) (s : jsstring) :
  isWhiteSpace c = false -> isWhiteSpace d = false ->
  trim (c :: s ++ [d]) = c :: s ++ [d].
Proof.
  intros Hc Hd. unfold trim.
  change (c :: s ++ [d]) with ((c :: s) ++ [d]).
  rewrite trimEnd_snoc_keep by assumption.
  simpl. rewrite Hc. reflexivity.
Qed.

Lemma firstLine_app (a b : jsstring) :
  Forall (fun c => c <> LF) a -> firstLine (a ++ LF :: b) = a.
Proof.
  induction 1 as [|c r Hc _ IH]; simpl.
  - reflexivity.
  - destruct (N.eqb_spec c LF) as [E|_]; [contradiction|].
    rewrite IH. reflexivity.
Qed.

Lemma startsWith_app (p s : jsstring) : startsWith (p ++ s) p = true.
Proof.
  induction p as [|c p IH]; simpl.
  - destruct s; reflexivity.
  - rewrite N.eqb_refl, IH. reflexivity.
Qed.

Lemma endsWith_app (s p : jsstring) : endsWith (s ++ p) p = true.
Proof. unfold endsWith. rewrite rev_app_distr. apply startsWith_app. Qed.

Lemma slice_drop_last_app (s p : jsstring) :
  slice_drop_last (length p) (s ++ p) = s.
Proof.
  unfold slice_drop_last. rewrite length_app.
  replace (length s + length p - length p)%nat with (length s + 0)%nat by lia.
  rewrite firstn_app_2. simpl. apply app_nil_r.
Qed.

(* ===================================================================== *)
(** ** Lemmas on the JSON scanner: blank code units around a text *)
(* ===================================================================== *)

(** A blank of ECMAScript is a blank of JSON, a vertical tab, a form
    feed, or a code unit from U+00A0 upwards. *)
Lemma isWhiteSpace_cases (c : N) :
  isWhiteSpace c = true ->
  (c = 32 \/ c = 9 \/ c = 10 \/ c = 13)%N \/ (c = 11 \/ c = 12 \/ 160 <= c)%N.
Proof.
  unfold isWhiteSpace. intros H.
  repeat (apply orb_true_iff in H; destruct H as [H|H]);
    try (apply N.eqb_eq in H; subst c; lia).
  apply andb_true_iff in H. destruct H as [H1 H2].
  apply N.leb_le in H1. right. right. right. lia.
Qed.

Ltac decide_tests c :=
  repeat match goal with
    | |- context [N.eqb c ?k] => rewrite (proj2 (N.eqb_neq c k)) by lia
    | |- context [N.leb c ?k] => rewrite (proj2 (N.leb_gt c k)) by lia
    | |- context [N.leb ?k c] => rewrite (proj2 (N.leb_le k c)) by lia
    | |- context [N.ltb c ?k] => rewrite (proj2 (N.ltb_ge c k)) by lia
    end.

Lemma idle_step_high (toks : list token) (c : N) :
  (160 <= c)%N -> idle_step toks c = None.
Proof.
  intros H. unfold idle_step, isJsonWS, punct, isDigit, isLower.
  decide_tests c. reflexivity.
Qed.

Lemma lex_step_high (mode : lexmode) (toks : list token) (c : N) :
  (160 <= c)%N ->
  lex_step (mode, toks) c =
  match mode with
  | LStr acc => Some (LStr (c :: acc), toks)
  | _ => None
  end.
Proof.
  intros H. destruct mode; simpl.
  - apply idle_step_high; assumption.
  - unfold isNumChar, isDigit. decide_tests c. simpl.
    destruct (close_num acc); [apply idle_step_high; assumption | reflexivity].
  - unfold isLower. decide_tests c. simpl.
    destruct (close_word acc); [apply idle_step_high; assumption | reflexivity].
  - decide_tests c. reflexivity.
  - unfold escape. decide_tests c. reflexivity.
  - unfold hexval, isDigit. decide_tests c. reflexivity.
Qed.

(** Scanning a blank never turns an unfinished text into a finished one:
    if the text is complete after the blank, it was complete before it,
    with the same tokens. *)
Lemma lex_step_ws_end (st st' : lexstate) (c : N) (ts : list token) :
  isWhiteSpace c = true ->
  lex_step st c = Some st' -> lex_end st' = Some ts -> lex_end st = Some ts.
Proof.
  intros Hc Hstep Hend. destruct st as [mode toks].
  destruct (isWhiteSpace_cases c Hc) as [J | [E | [E | Hhigh]]].
  - assert (Hidle : forall tk, idle_step tk c = Some (LIdle, tk)).
    { intros tk. destruct J as [E | [E | [E | E]]]; subst c; reflexivity. }
    assert (Hnum : isNumChar c = false).
    { destruct J as [E | [E | [E | E]]]; subst c; reflexivity. }
    assert (Hlow : isLower c = false).
    { destruct J as [E | [E | [E | E]]]; subst c; reflexivity. }
    destruct mode; simpl in Hstep.
    + rewrite Hidle in Hstep. injection Hstep as <-. exact Hend.
    + rewrite Hnum in Hstep. simpl.
      destruct (close_num acc) as [t|]; [|discriminate].
      rewrite Hidle in Hstep. injection Hstep as <-. exact Hend.
    + rewrite Hlow in Hstep. simpl.
      destruct (close_word acc) as [t|]; [|discriminate].
      rewrite Hidle in Hstep. injection Hstep as <-. exact Hend.
    + destruct J as [E | [E | [E | E]]]; subst c; simpl in Hstep;
        try discriminate; injection Hstep as <-; discriminate.
    + destruct J as [E | [E | [E | E]]]; subst c; discriminate.
    + destruct J as [E | [E | [E | E]]]; subst c; discriminate.
  - subst c. destruct mode; simpl in Hstep; try discriminate.
    + destruct (close_num acc); discriminate.
    + destruct (close_word acc); discriminate.
  - subst c. destruct mode; simpl in Hstep; try discriminate.
    + destruct (close_num acc); discriminate.
    + destruct (close_word acc); discriminate.
  - rewrite lex_step_high in Hstep by assumption.
    destruct mode; try discriminate. injection Hstep as <-. discriminate.
Qed.

Lemma lex_run_app (st : lexstate) (a b : jsstring) :
  lex_run st (a ++ b) =
  match lex_run st a with
  | Some st' => lex_run st' b
  | None => None
  end.
Proof.
  revert st. induction a as [|c r IH]; intros st; simpl; [reflexivity|].
  destruct (lex_step st c); [apply IH | reflexivity].
Qed.

Lemma lex_run_trailing_ws (w : jsstring) :
  Forall (fun c => isWhiteSpace c = true) w ->
  forall st st' ts,
    lex_run st w = Some st' -> lex_end st' = Some ts -> lex_end st = Some ts.
Proof.
  induction 1 as [|c r Hc _ IH]; intros st st' ts Hrun Hend; simpl in Hrun.
  - injection Hrun as <-. exact Hend.
  - destruct (lex_step st c) as [st1|] eqn:Hstep; [|discriminate].
    apply (lex_step_ws_end st c Hc Hstep). apply (IH st1 st'); assumption.
Qed.

Lemma lex_run_leading_ws (w : jsstring) :
  Forall (fun c => isWhiteSpace c = true) w ->
  forall s st,
    lex_run (LIdle, []) (w ++ s) = Some st -> lex_run (LIdle, []) s = Some st.
Proof.
  induction 1 as [|c r Hc _ IH]; intros s st Hrun; simpl in Hrun.
  - exact Hrun.
  - destruct (idle_step [] c) as [st1|] eqn:Hstep; [|discriminate].
    assert (st1 = (LIdle, [])) as ->.
    { destruct (isWhiteSpace_cases c Hc) as [J | [E | [E | Hhigh]]].
      - destruct J as [E | [E | [E | E]]]; subst c; injection Hstep as <-;
          reflexivity.
      - subst c. discriminate.
      - subst c. discriminate.
      - rewrite idle_step_high in Hstep by assumption. discriminate. }
    apply IH. exact Hrun.
Qed.

(** The tokens of a text that scans are the tokens of its trimmed form. *)
Lemma tokenize_trim (s : jsstring) (ts : list token) :
  tokenize s = Some ts -> tokenize (trim s) = Some ts.
Proof.
  unfold tokenize, trim. intros H.
  destruct (trimEnd_split s) as [w [Hs Hw]].
  destruct (trimStart_split (trimEnd s)) as [v [Ht Hv]].
  destruct (lex_run (LIdle, []) s) as [st|] eqn:Hrun; [|discriminate].
  rewrite Hs, lex_run_app in Hrun.
  destruct (lex_run (LIdle, []) (trimEnd s)) as [st1|] eqn:Hcore; [|discriminate].
  rewrite Ht in Hcore. apply (lex_run_leading_ws Hv) in Hcore.
  rewrite Hcore. exact (lex_run_trailing_ws Hw _ Hrun H).
Qed.

Lemma JSON_parse_trim (s : jsstring) (v : value) :
  JSON_parse s = Some v -> JSON_parse (trim s) = Some v.
Proof.
  unfold JSON_parse. intros H.
  destruct (tokenize s) as [ts|] eqn:Hts; [|discriminate].
  rewrite (tokenize_trim s Hts). exact H.
Qed.

(** No JSON text starts with a backquote. *)
Lemma JSON_parse_not_fenced (s : jsstring) (v : value) :
  JSON_parse s = Some v -> startsWith s FENCE = false.
Proof.
  unfold JSON_parse, tokenize. intros H.
  destruct s as [|c r]; [reflexivity|].
  destruct (N.eq_dec c 96) as [->|Hc].
  - discriminate H.
  - change (startsWith (c :: r) FENCE)
      with (N.eqb 96 c && startsWith r [96; 96]%N).
    rewrite (proj2 (N.eqb_neq 96 c)) by congruence. reflexivity.
Qed.

(* ===================================================================== *)
(** ** parseJson *)
(* ===================================================================== *)

Lemma normalizedText_BOM (s : jsstring) :
  normalizedText (BOM :: s) = normalizedText s.
Proof.
  unfold normalizedText.
  rewrite (trim_stripBOM (BOM :: s)), (trim_stripBOM s).
  rewrite (@trim_cons_ws BOM s) by reflexivity. reflexivity.
Qed.

Lemma normalizedText_plain (s : jsstring) :
  startsWith (trim s) FENCE = false -> normalizedText s = trim s.
Proof.
  intros H. unfold normalizedText. rewrite trim_stripBOM, H. reflexivity.
Qed.

Lemma normalizedText_fenced (info body : jsstring) :
  Forall (fun c => c <> LF) info ->
  normalizedText (fenced info body) = trim body.
Proof.
  intros Hinfo. unfold normalizedText. rewrite trim_stripBOM.
  assert (Htrim : trim (fenced info body) = fenced info body).
  { unfold fenced, FENCE. simpl.
    replace (96 :: 96 :: info ++ LF :: body ++ [LF; 96; 96; 96])%N
      with ((96 :: 96 :: info ++ LF :: body ++ [LF; 96; 96]) ++ [96])%N.
    - apply trim_delimited; reflexivity.
    - simpl. rewrite <- !app_assoc. simpl. rewrite <- !app_assoc. reflexivity. }
  rewrite Htrim.
  assert (Hstart : startsWith (fenced info body) FENCE = true)
    by apply startsWith_app.
  rewrite Hstart.
  assert (Hline : firstLine (fenced info body) = FENCE ++ info).
  { unfold fenced. rewrite app_assoc. apply firstLine_app.
    apply Forall_app. split; [|assumption].
    repeat constructor; discriminate. }
  rewrite Hline.
  assert (Hbody : slice_from (length (FENCE ++ info) + 1) (fenced info body)
                  = (body ++ [LF]) ++ FENCE).
  { unfold slice_from, fenced. rewrite app_assoc.
    replace (length (FENCE ++ info) + 1)%nat
      with (length (FENCE ++ info) + 1)%nat by reflexivity.
    rewrite skipn_app, skipn_all2 by lia.
    replace (length (FENCE ++ info) + 1 - length (FENCE ++ info))%nat
      with 1%nat by lia.
    simpl. rewrite <- app_assoc. reflexivity. }
  rewrite Hbody.
  assert (Hend : trimEnd ((body ++ [LF]) ++ FENCE) = (body ++ [LF]) ++ FENCE).
  { unfold FENCE. simpl.
    replace ((body ++ [LF]) ++ [96; 96; 96])%N
      with (((body ++ [LF]) ++ [96; 96]) ++ [96])%N
      by (rewrite <- !app_assoc; reflexivity).
    apply trimEnd_snoc_keep. reflexivity. }
  rewrite Hend, endsWith_app.
  change 3%nat with (length FENCE).
  rewrite slice_drop_last_app.
  apply trim_snoc_ws. reflexivity.
Qed.

Section ParseJsonProperties.
Context {rt : Runtime}.

Lemma parseJson_valid (j : jsstring) (v : value) :
  JSON_parse j = Some v -> parseJson (VStr j) = Returned v.
Proof.
  intros H. unfold parseJson.
  pose proof (JSON_parse_trim j H) as Ht.
  rewrite (normalizedText_plain j (JSON_parse_not_fenced _ Ht)), Ht.
  reflexivity.
Qed.

(** A text that [JSON.parse] rejects after normalisation comes back
    whole in the error. *)
Lemma parseJson_invalid (s : jsstring) :
  JSON_parse (normalizedText s) = None ->
  parseJson (VStr s) =
  Threw (ThrownParseError
           {| ParseError.message := SyntaxError_message (normalizedText s);
              ParseError.rawOutput := s |}).
Proof. intros H. unfold parseJson. rewrite H. reflexivity. Qed.

(** C10.  [parseJson] normalises its input before decoding: a leading
    byte-order mark does not change the text that is decoded; a text
    that does not open with a fence once trimmed is decoded trimmed; of
    a fenced text the opening fence line and the closing fence are
    dropped and the body is decoded trimmed; and for every valid JSON
    text [j], [parseJson] of [j] inside a json fence returns the value
    that [parseJson] of [j] returns, the value [j] denotes. *)
Theorem parseJson_normalizes_input :
  (forall s, normalizedText (BOM :: s) = normalizedText s)
  /\ (forall s, startsWith (trim s) FENCE = false ->
                normalizedText s = trim s)
  /\ (forall info body, Forall (fun c => c <> LF) info ->
                        normalizedText (fenced info body) = trim body)
  /\ (forall j v, JSON_parse j = Some v ->
                  parseJson (VStr (fenced (lit "json") j)) = Returned v
                  /\ parseJson (VStr j) = Returned v).
Proof.
  split; [exact normalizedText_BOM|].
  split; [exact normalizedText_plain|].
  split; [exact normalizedText_fenced|].
  intros j v H. split; [|exact (parseJson_valid j H)].
  unfold parseJson.
  rewrite normalizedText_fenced by (repeat constructor; discriminate).
  rewrite (JSON_parse_trim j H). reflexivity.
Qed.

(** C6.  For an input that is not a string the error carries at most
    500 code units of [String(input)]; for a string of 501 letters x,
    which is not JSON, the error carries all 501 code units. *)
Theorem parseJson_rawOutput_of_rejected_string :
  (forall input,
      match input with
      | VStr _ => True
      | _ =>
          exists e,
            parseJson input = Threw (ThrownParseError e)
            /\ (length (ParseError.rawOutput e) <= 500)%nat
      end)
  /\ (exists e,
         parseJson (VStr (repeat 120%N 501)) = Threw (ThrownParseError e)
         /\ length (ParseError.rawOutput e) = 501%nat).
Proof.
  split.
  - intros input.
    destruct input as [| |b|m x|n|s|name|items|props]; try exact I;
      (eexists; split; [reflexivity | apply slice_to_length]).
  - eexists. split.
    + apply parseJson_invalid. vm_compute. reflexivity.
    + cbn [ParseError.rawOutput]. apply repeat_length.
Qed.

End ParseJsonProperties.

Lemma parseJson_normalizes_input_witness :
  JSON_parse (lit " [1, {}, true] ")
    = Some (VArr [VNum 1 0; VObj []; VBool true])
  /\ parseJson (rt := demoRuntime)
       (VStr (fenced (lit "json") (lit " [1, {}, true] ")))
     = Returned (VArr [VNum 1 0; VObj []; VBool true])
  /\ parseJson (rt := demoRuntime) (VStr (lit " [1, {}, true] "))
     = Returned (VArr [VNum 1 0; VObj []; VBool true]).
Proof.
  split; [vm_compute; reflexivity|].
  apply (proj2 (proj2 (proj2 (parseJson_normalizes_input (rt := demoRuntime))))).
  vm_compute. reflexivity.
Defined.

(* ===================================================================== *)
(** ** The guard: what every call preserves *)
(* ===================================================================== *)

Lemma createDiagnostic_bounded (data : Diagnostic.t) :
  rawOutputBounded (createDiagnostic data).
Proof.
  unfold rawOutputBounded, createDiagnostic. simpl.
  destruct (Diagnostic.rawOutput data); simpl; [apply slice_to_length | exact I].
Qed.

Lemma constructedLedger_snoc (ledger : list AttemptRecord.t) (r : AttemptRecord.t) :
  constructedLedger ledger -> constructedDiagnostic (AttemptRecord.diagnostic r) ->
  constructedLedger (ledger ++ [r]).
Proof.
  intros H Hr. apply Forall_app. split; [exact H | repeat constructor; exact Hr].
Qed.

Lemma new_sound (context : ViolationContext.t)
    (history : option (list AttemptRecord.t)) :
  match history with Some h => constructedLedger h | None => True end ->
  eventSound (PolicyApplied (HandoffViolation.new context history)).
Proof.
  intros H. unfold HandoffViolation.new. simpl. split.
  - destruct history; [exact H | constructor].
  - destruct (Z.eqb_spec
                (Z.of_nat (length match history with Some h => h | None => [] end))
                0); lia.
Qed.

Section GuardInvariants.
Context {rt : Runtime}.
Variable options : GuardOptions.t.
Variable fn : Producer.t.
Variable args : list value.
Variable outer : Store.

Lemma stateOf_consistent (attempt : Z) (s : Call.t) :
  stateConsistent (stateOf options attempt s).
Proof. repeat split. Qed.

Lemma catchBlock_sound attempt startTime error s sig s' :
  soundCall s ->
  catchBlock options fn args attempt startTime error s = (sig, s') ->
  soundCall s'.
Proof.
  intros (Hh & Hl & Hlog) H. unfold catchBlock in H.
  destruct (Date_now (Call.env s)) as [t w].
  destruct error as [e|v|m|m|v].
  2-5: injection H as <- <-; (split; [|split]); assumption.
  destruct (Date_now w) as [stamp w1].
  match type of H with
  | context [Call.mk _ (Call.history s ++ [?r]) (Some ?d) _] =>
      assert (Hd : constructedDiagnostic (Some d))
        by (split; [eexists; reflexivity | apply createDiagnostic_bounded]);
      assert (Hh' : constructedLedger (Call.history s ++ [r]))
        by (apply constructedLedger_snoc; [exact Hh | exact Hd])
  end.
  destruct ((attempt <? maxAttemptsOf options)
            && includes (retryOnOf options) parse).
  { injection H as <- <-. (split; [|split]); assumption. }
  destruct ((maxAttemptsOf options =? 1)
            || negb (includes (retryOnOf options) parse)).
  { injection H as <- <-. (split; [|split]); assumption. }
  destruct (handleFailure _ _ _ _) as [r w2].
  injection H as <- <-. (split; [|split]); try assumption.
  simpl. apply Forall_app. split; [exact Hlog|].
  constructor; [|constructor]. apply new_sound. exact Hh'.
Qed.

Lemma succeed_sound attempt startTime result s sig s' :
  soundCall s ->
  succeed attempt startTime result s = (sig, s') ->
  soundCall s'.
Proof.
  intros (Hh & Hl & Hlog) H. unfold succeed in H.
  destruct (Date_now (Call.env s)) as [stamp w1].
  destruct (Date_now w1) as [t w2].
  injection H as <- <-. (split; [|split]); try assumption.
  simpl. apply constructedLedger_snoc; [exact Hh | exact I].
Qed.

Lemma outputInvalid_sound attempt startTime result firstError s sig s' :
  soundCall s ->
  outputInvalid options fn args attempt startTime result firstError s
    = (sig, s') ->
  soundCall s'.
Proof.
  intros (Hh & Hl & Hlog) H. unfold outputInvalid, contextOrThrow in H.
  destruct (JSON_stringify result) as [text|error0].
  2: { eapply catchBlock_sound; [|exact H]. (split; [|split]); assumption. }
  destruct (Date_now (Call.env s)) as [stamp w1].
  destruct (Date_now w1) as [t w2].
  match type of H with
  | context [Call.mk _ (Call.history s ++ [?r]) (Some ?d) _] =>
      assert (Hd : constructedDiagnostic (Some d))
        by (split; [eexists; reflexivity | apply createDiagnostic_bounded]);
      assert (Hh' : constructedLedger (Call.history s ++ [r]))
        by (apply constructedLedger_snoc; [exact Hh | exact Hd])
  end.
  destruct ((attempt <? maxAttemptsOf options)
            && includes (retryOnOf options) validation).
  { injection H as <- <-. (split; [|split]); assumption. }
  destruct (handleFailure _ _ _ _) as [r w3].
  assert (Hlog' : forall v,
             eventSound (PolicyApplied v) ->
             Forall eventSound (Call.log s ++ [PolicyApplied v])).
  { intros v Hv. apply Forall_app. split; [exact Hlog|].
    constructor; [exact Hv | constructor]. }
  destruct r as [v|error].
  - injection H as <- <-. (split; [|split]); try assumption.
    apply Hlog'. apply new_sound. exact Hh'.
  - eapply catchBlock_sound; [|exact H].
    (split; [|split]); try assumption. apply Hlog'. apply new_sound. exact Hh'.
Qed.

Lemma attemptBody_sound attempt s sig s' :
  soundCall s ->
  attemptBody options fn args outer attempt s = (sig, s') ->
  soundCall s'.
Proof.
  intros Hs H. unfold attemptBody, runWithRetryStateAsync in H.
  destruct (Date_now (Call.env s)) as [startTime w1].
  destruct (Producer.apply fn _ _ w1) as [outcome w2].
  assert (Hs1 : soundCall
                  {| Call.env := w2; Call.history := Call.history s;
                     Call.lastError := Call.lastError s;
                     Call.log :=
                       Call.log s
                         ++ [Invoked (stateOf options attempt s)
                               (buildCallArgs args (stateOf options attempt s))]
                  |}).
  { destruct Hs as (Hh & Hl & Hlog). (split; [|split]); try assumption.
    simpl. apply Forall_app. split; [exact Hlog|].
    repeat constructor; simpl; assumption. }
  destruct outcome as [result|error].
  - destruct (GuardOptions.output options) as [outputSchema|].
    + destruct (outputSchema result) as [|firstError others].
      * exact (succeed_sound _ _ _ Hs1 H).
      * exact (outputInvalid_sound _ _ _ _ Hs1 H).
    + exact (succeed_sound _ _ _ Hs1 H).
  - exact (catchBlock_sound _ _ _ Hs1 H).
Qed.

Lemma attemptLoop_sound fuel : forall attempt s r s',
  soundCall s ->
  attemptLoop options fn args outer fuel attempt s = Some (r, s') ->
  soundCall s'.
Proof.
  induction fuel as [|fuel IH]; intros attempt s r s' Hs H; simpl in H.
  - destruct (attempt <=? maxAttemptsOf options); [discriminate|].
    injection H as <- <-. exact Hs.
  - destruct (attempt <=? maxAttemptsOf options).
    + destruct (attemptBody options fn args outer attempt s) as [sig s1] eqn:Hb.
      pose proof (attemptBody_sound _ Hs Hb) as Hs1.
      destruct sig as [|r1].
      * exact (IH _ _ _ _ Hs1 H).
      * injection H as <- <-. exact Hs1.
    + injection H as <- <-. exact Hs.
Qed.

Lemma guarded_sound w r s :
  guarded options fn args outer w = Some (r, s) -> soundCall s.
Proof.
  unfold guarded. intros H.
  assert (H0 : soundCall
                 {| Call.env := w; Call.history := []; Call.lastError := None;
                    Call.log := [] |}).
  { repeat split; constructor. }
  destruct (GuardOptions.input options) as [inputSchema|].
  - destruct (inputSchema (inputDataOf options args)) as [|firstError others].
    + eapply attemptLoop_sound; eassumption.
    + unfold contextOrThrow in H.
      destruct (JSON_stringify (inputDataOf options args)) as [text|error].
      * destruct (handleFailure _ _ _ w) as [r1 w1].
        injection H as <- <-. split; [constructor|]. split; [exact I|].
        constructor; [|constructor]. apply new_sound. exact I.
      * injection H as <- <-. exact H0.
  - eapply attemptLoop_sound; eassumption.
Qed.

End GuardInvariants.

(* ===================================================================== *)
(** ** The guard: termination and the shape of one attempt *)
(* ===================================================================== *)

Section GuardStructure.
Context {rt : Runtime}.
Variable options : GuardOptions.t.
Variable fn : Producer.t.
Variable args : list value.
Variable outer : Store.

(** The loop needs one unit of fuel for each attempt that is left. *)
Lemma attemptLoop_total fuel : forall attempt s,
  (Z.to_nat (maxAttemptsOf options - attempt + 1) <= fuel)%nat ->
  exists r s', attemptLoop options fn args outer fuel attempt s = Some (r, s').
Proof.
  induction fuel as [|fuel IH]; intros attempt s Hfuel; simpl.
  - destruct (Z.leb_spec attempt (maxAttemptsOf options)); [lia|].
    eauto.
  - destruct (Z.leb_spec attempt (maxAttemptsOf options)); [|eauto].
    destruct (attemptBody options fn args outer attempt s) as [[|r] s1].
    + apply IH. lia.
    + eauto.
Qed.

(** A guarded call always completes: it returns or it throws. *)
Lemma guarded_total w :
  exists r s, guarded options fn args outer w = Some (r, s).
Proof.
  unfold guarded.
  assert (Hrun : forall s0, exists r s,
             attemptLoop options fn args outer
               (Z.to_nat (maxAttemptsOf options)) 1 s0 = Some (r, s)).
  { intros s0. apply attemptLoop_total. lia. }
  destruct (GuardOptions.input options) as [inputSchema|]; [|apply Hrun].
  destruct (inputSchema (inputDataOf options args)); [apply Hrun|].
  destruct (contextOrThrow _ _ _ _ _); [|eauto].
  destruct (handleFailure _ _ _ w). eauto.
Qed.

(** The [catch] block appends at most one record and never removes
    one. *)
Lemma catchBlock_history attempt startTime error s sig s' :
  catchBlock options fn args attempt startTime error s = (sig, s') ->
  exists recs, Call.history s' = Call.history s ++ recs.
Proof.
  unfold catchBlock. intros H.
  destruct (Date_now (Call.env s)) as [t w].
  destruct error as [e|v|m|m|v].
  2-5: injection H as <- <-; exists []; simpl; symmetry; apply app_nil_r.
  destruct (Date_now w) as [stamp w1].
  destruct ((attempt <? maxAttemptsOf options)
            && includes (retryOnOf options) parse).
  { injection H as <- <-. eexists. reflexivity. }
  destruct ((maxAttemptsOf options =? 1)
            || negb (includes (retryOnOf options) parse)).
  { injection H as <- <-. eexists. reflexivity. }
  destruct (handleFailure _ _ _ _) as [r w2].
  injection H as <- <-. eexists. reflexivity.
Qed.

Lemma attemptBody_history attempt s sig s' :
  attemptBody options fn args outer attempt s = (sig, s') ->
  exists recs, Call.history s' = Call.history s ++ recs.
Proof.
  unfold attemptBody, runWithRetryStateAsync. intros H.
  destruct (Date_now (Call.env s)) as [startTime w1].
  destruct (Producer.apply fn _ _ w1) as [outcome w2].
  assert (Hsucceed : forall result s1 sig s',
             Call.history s1 = Call.history s ->
             succeed attempt startTime result s1 = (sig, s') ->
             exists recs, Call.history s' = Call.history s ++ recs).
  { intros result s1 sig0 s0 Hs1 H0. unfold succeed in H0.
    destruct (Date_now (Call.env s1)) as [stamp v1].
    destruct (Date_now v1) as [t v2].
    injection H0 as <- <-. simpl. rewrite Hs1. eexists. reflexivity. }
  destruct outcome as [result|error].
  - destruct (GuardOptions.output options) as [outputSchema|].
    + destruct (outputSchema result) as [|firstError others].
      * eapply Hsucceed; [|exact H]; reflexivity.
      * unfold outputInvalid in H.
        destruct (JSON_stringify result) as [text|error0];
          [|apply catchBlock_history in H; exact H].
        simpl in H.
        destruct (Date_now w2) as [stamp w3].
        destruct (Date_now w3) as [t w4].
        destruct ((attempt <? maxAttemptsOf options)
                  && includes (retryOnOf options) validation).
        { injection H as <- <-. eexists. reflexivity. }
        destruct (contextOrThrow _ _ _ _ _) as [context|error0].
        2: { apply catchBlock_history in H. destruct H as [recs H].
             simpl in H. rewrite H, <- app_assoc. eexists. reflexivity. }
        destruct (handleFailure _ _ _ _) as [r w5].
        destruct r as [v|error].
        -- injection H as <- <-. eexists. reflexivity.
        -- apply catchBlock_history in H. destruct H as [recs H].
           simpl in H. rewrite H, <- app_assoc. eexists. reflexivity.
    + eapply Hsucceed; [|exact H]; reflexivity.
  - apply catchBlock_history in H. exact H.
Qed.

End GuardStructure.

(* ===================================================================== *)
(** ** The guard: input violations, raised failures *)
(* ===================================================================== *)

Section GuardClaims.
Context {rt : Runtime}.
Variable options : GuardOptions.t.
Variable fn : Producer.t.
Variable args : list value.
Variable outer : Store.

Lemma attemptLoop_step fuel attempt s :
  attempt <= maxAttemptsOf options ->
  attemptLoop options fn args outer (S fuel) attempt s =
  match attemptBody options fn args outer attempt s with
  | (Continue, s') => attemptLoop options fn args outer fuel (attempt + 1) s'
  | (Done r, s') => Some (r, s')
  end.
Proof.
  intros H. simpl.
  destruct (Z.leb_spec attempt (maxAttemptsOf options)); [reflexivity | lia].
Qed.

(** One attempt is the producer's outcome followed by the branch of the
    [try] statement that the outcome selects. *)
Lemma attemptBody_outcome attempt s :
  attemptBody options fn args outer attempt s =
  let startTime := fst (Date_now (Call.env s)) in
  let (outcome, w2) := producerOutcome options fn args attempt s in
  let s1 :=
    {| Call.env := w2; Call.history := Call.history s;
       Call.lastError := Call.lastError s;
       Call.log := Call.log s ++ [invocationOf options args attempt s] |} in
  match outcome with
  | Returned result =>
      match GuardOptions.output options with
      | Some outputSchema =>
          match outputSchema result with
          | ParseFailure firstError _ =>
              outputInvalid options fn args attempt startTime result
                firstError s1
          | ParseSuccess => succeed attempt startTime result s1
          end
      | None => succeed attempt startTime result s1
      end
  | Threw error => catchBlock options fn args attempt startTime error s1
  end.
Proof.
  unfold attemptBody, producerOutcome, invocationOf, runWithRetryStateAsync.
  destruct (Date_now (Call.env s)) as [startTime w1]. reflexivity.
Qed.

(** The call is the rest of its loop. *)
Lemma Attempting_guarded w fuel attempt s :
  Attempting options fn args outer w fuel attempt s ->
  guarded options fn args outer w
  = attemptLoop options fn args outer fuel attempt s.
Proof.
  induction 1 as [Hinput | fuel attempt s s' _ IH Hle Hbody].
  - unfold guarded, initialCall.
    destruct (GuardOptions.input options) as [inputSchema|] eqn:Hin;
      [|reflexivity].
    rewrite (Hinput inputSchema Hin). reflexivity.
  - rewrite IH, attemptLoop_step by assumption. rewrite Hbody. reflexivity.
Qed.

(** Attempts are numbered from 1 and the fuel covers those left. *)
Lemma Attempting_fuel w fuel attempt s :
  Attempting options fn args outer w fuel attempt s ->
  1 <= attempt
  /\ Z.of_nat fuel = Z.max 0 (maxAttemptsOf options + 1 - attempt).
Proof.
  induction 1 as [Hinput | fuel attempt s s' _ [IH1 IH2] Hle Hbody]; lia.
Qed.

(** An input the schema rejects, while [JSON.stringify] renders it: the
    failure policy is applied to a violation of the input contract. *)
Lemma input_violation_applies_policy
    (w : world) (inputSchema : ZodType)
    (firstError : ZodIssue.t) (others : list ZodIssue.t) :
  GuardOptions.input options = Some inputSchema ->
  inputSchema (resolveInputData args (GuardOptions.inputParam options))
    = ParseFailure firstError others ->
  serialisable (inputDataOf options args) ->
  exists violation s,
    guarded options fn args outer w
      = Some (fst (handleFailure violation (inputDataOf options args)
                     (onFailOf options) w), s)
    /\ Call.env s
       = snd (handleFailure violation (inputDataOf options args)
                (onFailOf options) w)
    /\ Call.log s = [PolicyApplied violation]
    /\ invocations (Call.log s) = []
    /\ Call.history s = []
    /\ ViolationContext.contractType (HandoffViolation.context violation)
       = input_contract
    /\ HandoffViolation.history violation = []
    /\ HandoffViolation.totalAttempts violation = 1.
Proof.
  intros Hin Hfail [text Hs]. unfold guarded. rewrite Hin.
  unfold inputDataOf at 1. rewrite Hfail.
  fold (inputDataOf options args). unfold contextOrThrow. rewrite Hs.
  exists (HandoffViolation.new
            (schemaContext options fn input_contract firstError
               (inputDataOf options args)) None).
  destruct (handleFailure _ _ _ w) as [r w1] eqn:Hpolicy.
  eexists. split; [reflexivity|]. repeat split.
Qed.

(** The same input, while [JSON.stringify] throws on it: line 65 is
    outside any [try], the call throws what [JSON.stringify] threw and
    the failure policy is not reached. *)
Lemma input_violation_not_built
    (w : world) (inputSchema : ZodType)
    (firstError : ZodIssue.t) (others : list ZodIssue.t) (error : thrown) :
  GuardOptions.input options = Some inputSchema ->
  inputSchema (resolveInputData args (GuardOptions.inputParam options))
    = ParseFailure firstError others ->
  JSON_stringify (inputDataOf options args) = Threw error ->
  guarded options fn args outer w = Some (Threw error, initialCall w).
Proof.
  intros Hin Hfail Hs. unfold guarded. rewrite Hin.
  unfold inputDataOf at 1. rewrite Hfail.
  fold (inputDataOf options args). unfold contextOrThrow. rewrite Hs.
  reflexivity.
Qed.

(** Either way the producer is not invoked and nothing is recorded. *)
Lemma input_violation_no_invocation
    (w : world) (inputSchema : ZodType)
    (firstError : ZodIssue.t) (others : list ZodIssue.t) :
  GuardOptions.input options = Some inputSchema ->
  inputSchema (resolveInputData args (GuardOptions.inputParam options))
    = ParseFailure firstError others ->
  exists r s,
    guarded options fn args outer w = Some (r, s)
    /\ invocations (Call.log s) = []
    /\ Call.history s = [].
Proof.
  intros Hin Hfail.
  destruct (JSON_stringify (inputDataOf options args)) as [text|error] eqn:Hs.
  - destruct (input_violation_applies_policy w Hin Hfail
                (ex_intro _ text Hs))
      as (violation & s & Hrun & _ & _ & Hcalls & Hhist & _).
    eauto.
  - rewrite (input_violation_not_built w Hin Hfail Hs).
    do 2 eexists. split; [reflexivity|]. split; reflexivity.
Qed.

(** C7.  When the invocation of an attempt of a guarded call raises a
    failure that is not a [ParseError], the call completes at once by
    throwing that very failure: no record is appended, [lastError] is
    unchanged, the invocation is the last observation of the call, so no
    further attempt is made, whatever number of attempts is left, and
    the failure policy is not applied. *)
Theorem other_failure_propagates
    (w : world) (fuel : nat) (attempt : Z) (s : Call.t)
    (error : thrown) (w1 : world) :
  Attempting options fn args outer w fuel attempt s ->
  attempt <= maxAttemptsOf options ->
  producerOutcome options fn args attempt s = (Threw error, w1) ->
  (forall e, error <> ThrownParseError e) ->
  exists s',
    guarded options fn args outer w = Some (Threw error, s')
    /\ Call.history s' = Call.history s
    /\ Call.lastError s' = Call.lastError s
    /\ Call.log s' = Call.log s ++ [invocationOf options args attempt s]
    /\ violations (Call.log s') = violations (Call.log s).
Proof.
  intros Hat Hle Hout Hnp.
  rewrite (Attempting_guarded Hat).
  destruct (Attempting_fuel Hat) as [_ Hfuel].
  destruct fuel as [|fuel]; [lia|].
  rewrite attemptLoop_step by assumption.
  rewrite attemptBody_outcome. cbv zeta. rewrite Hout.
  unfold catchBlock. cbn [Call.env Call.history Call.lastError Call.log].
  destruct (Date_now w1) as [t w2].
  assert (Hv : violations (Call.log s ++ [invocationOf options args attempt s])
               = violations (Call.log s)).
  { induction (Call.log s) as [|[st ca|v] l IH]; simpl; congruence. }
  destruct error as [e|v|m|m|v];
    [exfalso; exact (Hnp e eq_refl) | | | |];
    (eexists; split; [reflexivity|]; repeat split; exact Hv).
Qed.


End GuardClaims.

(** C2.  When an input schema is configured and the input fails it, the
    producer is not invoked and nothing is recorded, whatever
    [maxAttempts] is.  Where [JSON.stringify] renders the input, the
    only observation of the call is the failure policy applied to a
    violation of the input contract with an empty ledger and
    [totalAttempts = 1], and the call completes with what the policy
    gives.  Where [JSON.stringify] throws on the input, as on the
    [bigint] [10n], line 65 throws while the violation is being built:
    the call throws that [TypeError] and the failure policy is not
    applied. *)
Theorem input_violation_skips_producer :
  (forall (rt : Runtime) (options : GuardOptions.t) (fn : Producer.t)
          (args : list value) (outer : Store) (w : world)
          (inputSchema : ZodType) (firstError : ZodIssue.t)
          (others : list ZodIssue.t),
      GuardOptions.input options = Some inputSchema ->
      inputSchema (resolveInputData args (GuardOptions.inputParam options))
        = ParseFailure firstError others ->
      (exists r s,
          guarded options fn args outer w = Some (r, s)
          /\ invocations (Call.log s) = []
          /\ Call.history s = [])
      /\ (serialisable (inputDataOf options args) ->
          exists violation s,
            guarded options fn args outer w
              = Some (fst (handleFailure violation (inputDataOf options args)
                             (onFailOf options) w), s)
            /\ Call.env s
               = snd (handleFailure violation (inputDataOf options args)
                        (onFailOf options) w)
            /\ Call.log s = [PolicyApplied violation]
            /\ invocations (Call.log s) = []
            /\ Call.history s = []
            /\ ViolationContext.contractType
                 (HandoffViolation.context violation)
               = input_contract
            /\ HandoffViolation.history violation = []
            /\ HandoffViolation.totalAttempts violation = 1))
  /\ (exists s,
         guarded (demoOptions (Some requireScore) 3 None raise None)
           (returning VNull) [VBigInt 10] None 0%nat
         = Some (Threw (ThrownTypeError
                          (lit "Do not know how to serialize a BigInt")), s)
         /\ Call.log s = []).
Proof.
  split.
  - intros rt options fn args outer w inputSchema firstError others
      Hin Hfail.
    split.
    + eapply input_violation_no_invocation; eassumption.
    + intros Hs. eapply input_violation_applies_policy; eassumption.
  - eexists. split; [vm_compute; reflexivity | reflexivity].
Qed.

(* ===================================================================== *)
(** ** The guard: exhaustion *)
(* ===================================================================== *)

Lemma numbered_nth (ledger : list AttemptRecord.t) (n : nat) :
  map AttemptRecord.attempt ledger = map Z.of_nat (seq 1 n) ->
  length ledger = n
  /\ forall i record,
       nth_error ledger i = Some record ->
       AttemptRecord.attempt record = Z.of_nat i + 1.
Proof.
  intros H. split.
  - rewrite <- (length_map AttemptRecord.attempt), H, length_map, length_seq.
    reflexivity.
  - intros i record Hi.
    pose proof (map_nth_error AttemptRecord.attempt _ _ Hi) as Hm.
    rewrite H in Hm.
    destruct (nth_error (seq 1 n) i) as [k|] eqn:Hk.
    + rewrite (map_nth_error Z.of_nat _ _ Hk) in Hm. injection Hm as <-.
      assert (Hlt : (i < n)%nat).
      { assert (Hsome : nth_error (seq 1 n) i <> None) by congruence.
        apply nth_error_Some in Hsome. rewrite length_seq in Hsome.
        exact Hsome. }
      rewrite (nth_error_nth' _ 0%nat) in Hk by (rewrite length_seq; exact Hlt).
      rewrite seq_nth in Hk by exact Hlt. injection Hk as <-. lia.
    + apply nth_error_None in Hk.
      assert (Hlen : (i < length (map Z.of_nat (seq 1 n)))%nat)
        by (apply nth_error_Some; congruence).
      rewrite length_map in Hlen. lia.
Qed.

Lemma numbered_snoc (ledger : list AttemptRecord.t) (r : AttemptRecord.t)
    (attempt : Z) :
  1 <= attempt ->
  map AttemptRecord.attempt ledger
    = map Z.of_nat (seq 1 (Z.to_nat (attempt - 1))) ->
  AttemptRecord.attempt r = attempt ->
  map AttemptRecord.attempt (ledger ++ [r])
    = map Z.of_nat (seq 1 (Z.to_nat attempt)).
Proof.
  intros Hge Hl Hr.
  replace (Z.to_nat attempt) with (S (Z.to_nat (attempt - 1))) by lia.
  rewrite seq_S, !map_app, Hl. simpl. rewrite Hr. do 2 f_equal. lia.
Qed.

Lemma invocations_app (a b : list event) :
  invocations (a ++ b) = invocations a ++ invocations b.
Proof.
  induction a as [|[st ca|v] a IH]; simpl; [reflexivity | f_equal; exact IH | exact IH].
Qed.

Lemma violations_app (a b : list event) :
  violations (a ++ b) = violations a ++ violations b.
Proof.
  induction a as [|[st ca|v] a IH]; simpl; [reflexivity | exact IH | f_equal; exact IH].
Qed.

Lemma violations_In (log : list event) (v : HandoffViolation.t) :
  In v (violations log) -> In (PolicyApplied v) log.
Proof.
  induction log as [|[st ca|v'] log IH]; simpl; intros H.
  - exact H.
  - right. exact (IH H).
  - destruct H as [-> | H]; [left; reflexivity | right; exact (IH H)].
Qed.

Section Exhaustion.
Context {rt : Runtime}.
Variable options : GuardOptions.t.
Variable fn : Producer.t.
Variable args : list value.
Variable outer : Store.
Variable outputSchema : ZodType.

Hypothesis Hretry : includes (retryOnOf options) validation = true.
Hypothesis Houtput : GuardOptions.output options = Some outputSchema.
Hypothesis Hinvalid : alwaysInvalid fn outputSchema.
Hypothesis Hserial : returnsSerialisable fn.

(** Before the last attempt an invalid output is recorded and the loop
    goes on. *)
Lemma invalid_attempt_retries (attempt : Z) (s : Call.t) :
  attempt < maxAttemptsOf options ->
  exists s1 record,
    attemptBody options fn args outer attempt s = (Continue, s1)
    /\ Call.history s1 = Call.history s ++ [record]
    /\ AttemptRecord.attempt record = attempt
    /\ Call.log s1 = Call.log s ++ [invocationOf options args attempt s].
Proof.
  intros Hlt. rewrite attemptBody_outcome. cbv zeta.
  unfold producerOutcome.
  destruct (Hinvalid (Some (stateOf options attempt s))
              (buildCallArgs args (stateOf options attempt s))
              (snd (Date_now (Call.env s))))
    as (v & w' & Happ & firstError & others & Hschema).
  destruct (Hserial _ _ _ Happ) as [text Hs].
  rewrite Happ, Houtput, Hschema. unfold outputInvalid, contextOrThrow.
  rewrite Hs. cbn [Call.env Call.history Call.lastError Call.log].
  destruct (Date_now w') as [stamp w1]. destruct (Date_now w1) as [t w2].
  rewrite Hretry.
  destruct (Z.ltb_spec attempt (maxAttemptsOf options)); [|lia].
  cbn [andb]. do 2 eexists. split; [reflexivity|]. repeat split.
Qed.

(** On the last attempt an invalid output is recorded and the failure
    policy is applied to the violation that carries the ledger.  Unless
    the policy itself throws a [ParseError], nothing follows. *)
Lemma invalid_attempt_exhausts (s : Call.t) :
  exists r s' violation later record wp,
    attemptBody options fn args outer (maxAttemptsOf options) s
      = (Done r, s')
    /\ invocations (Call.log s')
       = invocations (Call.log s)
           ++ [stateOf options (maxAttemptsOf options) s]
    /\ violations (Call.log s')
       = violations (Call.log s) ++ violation :: later
    /\ HandoffViolation.history violation = Call.history s ++ [record]
    /\ AttemptRecord.attempt record = maxAttemptsOf options
    /\ ViolationContext.contractType (HandoffViolation.context violation)
       = output_contract
    /\ ((forall e,
            fst (handleFailure violation (inputDataOf options args)
                   (onFailOf options) wp)
            <> Threw (ThrownParseError e)) ->
        later = []
        /\ r = fst (handleFailure violation (inputDataOf options args)
                      (onFailOf options) wp)).
Proof.
  rewrite attemptBody_outcome. cbv zeta. unfold producerOutcome.
  destruct (Hinvalid (Some (stateOf options (maxAttemptsOf options) s))
              (buildCallArgs args (stateOf options (maxAttemptsOf options) s))
              (snd (Date_now (Call.env s))))
    as (v & w' & Happ & firstError & others & Hschema).
  destruct (Hserial _ _ _ Happ) as [text Hs].
  rewrite Happ, Houtput, Hschema. unfold outputInvalid, contextOrThrow.
  rewrite Hs. cbn [Call.env Call.history Call.lastError Call.log].
  destruct (Date_now w') as [stamp w1]. destruct (Date_now w1) as [t w2].
  rewrite Z.ltb_irrefl. cbn [andb].
  match goal with
  | |- context [handleFailure ?v _ _ w2] => set (violation := v)
  end.
  destruct (handleFailure violation (inputDataOf options args)
              (onFailOf options) w2) as [rp w3] eqn:Hpolicy.
  destruct rp as [v1|error].
  - exists (Returned v1). eexists. exists violation, []. eexists. exists w2.
    split; [reflexivity|]. cbn [Call.log].
    rewrite invocations_app, violations_app, invocations_app, violations_app.
    simpl. rewrite !app_nil_r.
    repeat split; try reflexivity.
    rewrite Hpolicy. reflexivity.
  - unfold catchBlock.
    cbn [Call.env Call.history Call.lastError Call.log].
    destruct (Date_now w3) as [t1 w4].
    destruct error as [e|v1|m|m|v1].
    2-5: (eexists; eexists; exists violation, []; eexists; exists w2;
          split; [reflexivity|]; cbn [Call.log];
          rewrite invocations_app, violations_app, invocations_app,
            violations_app; simpl; rewrite !app_nil_r;
          repeat split; try reflexivity; rewrite Hpolicy; reflexivity).
    destruct (Date_now w4) as [stamp1 w5].
    rewrite Z.ltb_irrefl. cbn [andb].
    destruct ((maxAttemptsOf options =? 1)
              || negb (includes (retryOnOf options) parse)).
    + eexists. eexists. exists violation, []. eexists. exists w2.
      split; [reflexivity|]. cbn [Call.log].
      rewrite invocations_app, violations_app, invocations_app,
        violations_app. simpl. rewrite !app_nil_r.
      repeat split; try reflexivity;
        match goal with
        | Hnp : forall _, _ <> _ |- _ =>
            exfalso; rewrite Hpolicy in Hnp; exact (Hnp e eq_refl)
        end.
    + match goal with
      | |- context [handleFailure ?v _ _ w5] => set (second := v)
      end.
      destruct (handleFailure second (inputDataOf options args)
                  (onFailOf options) w5) as [r2 w6].
      exists r2. eexists. exists violation, [second]. eexists. exists w2.
      split; [reflexivity|]. cbn [Call.log].
      rewrite !invocations_app, !violations_app. simpl.
      rewrite !app_nil_r, <- !app_assoc. simpl.
      repeat split; try reflexivity;
        match goal with
        | Hnp : forall _, _ <> _ |- _ =>
            exfalso; rewrite Hpolicy in Hnp; exact (Hnp e eq_refl)
        end.
Qed.

Lemma exhaust_loop (k : nat) : forall attempt s fuel,
  attempt + Z.of_nat k = maxAttemptsOf options ->
  1 <= attempt ->
  (k < fuel)%nat ->
  map AttemptRecord.attempt (Call.history s)
    = map Z.of_nat (seq 1 (Z.to_nat (attempt - 1))) ->
  exists r s' violation later wp,
    attemptLoop options fn args outer fuel attempt s = Some (r, s')
    /\ length (invocations (Call.log s'))
       = (length (invocations (Call.log s)) + S k)%nat
    /\ violations (Call.log s')
       = violations (Call.log s) ++ violation :: later
    /\ map AttemptRecord.attempt (HandoffViolation.history violation)
       = map Z.of_nat (seq 1 (Z.to_nat (maxAttemptsOf options)))
    /\ ViolationContext.contractType (HandoffViolation.context violation)
       = output_contract
    /\ ((forall e,
            fst (handleFailure violation (inputDataOf options args)
                   (onFailOf options) wp)
            <> Threw (ThrownParseError e)) ->
        later = []
        /\ r = fst (handleFailure violation (inputDataOf options args)
                      (onFailOf options) wp)).
Proof.
  induction k as [|k IH]; intros attempt s fuel Hk Hge Hfuel Hnum;
    (destruct fuel as [|fuel]; [lia|]);
    rewrite attemptLoop_step by lia.
  - assert (attempt = maxAttemptsOf options) as -> by lia.
    destruct (invalid_attempt_exhausts s)
      as (r & s' & violation & later & record & wp
          & Hbody & Hinv & Hvio & Hhist & Hrec & Hctx & Hpolicy).
    rewrite Hbody. exists r, s', violation, later, wp.
    split; [reflexivity|].
    split; [rewrite Hinv, length_app; simpl; lia|].
    split; [exact Hvio|].
    split; [|split; assumption].
    rewrite Hhist. apply numbered_snoc; assumption.
  - destruct (@invalid_attempt_retries attempt s)
      as (s1 & record & Hbody & Hhist & Hrec & Hlog); [lia|].
    rewrite Hbody.
    destruct (IH (attempt + 1) s1 fuel)
      as (r & s' & violation & later & wp
          & Hloop & Hinv & Hvio & Hnumbered & Hctx & Hpolicy);
      [lia | lia | lia | |].
    + rewrite Hhist. replace (attempt + 1 - 1) with attempt by lia.
      apply numbered_snoc; assumption.
    + exists r, s', violation, later, wp.
      split; [exact Hloop|].
      rewrite Hlog, invocations_app, length_app in Hinv.
      rewrite Hlog, violations_app, app_nil_r in Hvio.
      split; [simpl in Hinv; lia|].
      split; [exact Hvio|].
      split; [exact Hnumbered|]. split; assumption.
Qed.

(** Exhaustion, for a producer whose outputs [JSON.stringify]
    renders. *)
Lemma exhaustion_general (w : world) (N : Z) :
  maxAttemptsOf options = N ->
  1 <= N ->
  inputAccepted options args ->
  exists r s violation later wp,
    guarded options fn args outer w = Some (r, s)
    /\ length (invocations (Call.log s)) = Z.to_nat N
    /\ violations (Call.log s) = violation :: later
    /\ Z.of_nat (length (HandoffViolation.history violation)) = N
    /\ (forall i record,
           nth_error (HandoffViolation.history violation) i = Some record ->
           AttemptRecord.attempt record = Z.of_nat i + 1)
    /\ HandoffViolation.totalAttempts violation = N
    /\ ViolationContext.contractType (HandoffViolation.context violation)
       = output_contract
    /\ ((forall e,
            fst (handleFailure violation (inputDataOf options args)
                   (onFailOf options) wp)
            <> Threw (ThrownParseError e)) ->
        later = []
        /\ r = fst (handleFailure violation (inputDataOf options args)
                      (onFailOf options) wp)).
Proof.
  intros HN Hpos Hinput.
  assert (Hrun : guarded options fn args outer w
                 = attemptLoop options fn args outer
                     (Z.to_nat (maxAttemptsOf options)) 1 (initialCall w)).
  { unfold guarded, initialCall.
    destruct (GuardOptions.input options) as [inputSchema|] eqn:Hin;
      [|reflexivity].
    rewrite (Hinput inputSchema Hin). reflexivity. }
  destruct (@exhaust_loop (Z.to_nat (N - 1)) 1 (initialCall w)
              (Z.to_nat (maxAttemptsOf options)))
    as (r & s & violation & later & wp
        & Hloop & Hinv & Hvio & Hnumbered & Hctx & Hpolicy);
    [lia | lia | lia | reflexivity |].
  rewrite <- Hrun in Hloop.
  destruct (numbered_nth _ _ Hnumbered) as [Hlen Hnth].
  exists r, s, violation, later, wp.
  split; [exact Hloop|].
  split; [simpl in Hinv; lia|].
  split; [exact Hvio|].
  split; [lia|].
  split; [exact Hnth|].
  split; [|split; assumption].
  destruct (guarded_sound _ _ _ _ _ Hloop) as (_ & _ & Hlog).
  assert (Hin : In (PolicyApplied violation) (Call.log s)).
  { apply violations_In. rewrite Hvio. left. reflexivity. }
  rewrite Forall_forall in Hlog. destruct (Hlog _ Hin) as [_ Htotal].
  rewrite Htotal. lia.
Qed.

End Exhaustion.

(** C1.  With [maxAttempts = N >= 1], [validation] retryable, an input
    that passes the input schema (if any) and a producer whose every
    invocation returns a value that the output schema rejects and that
    [JSON.stringify] renders, the call invokes the producer exactly [N]
    times; the violation it then hands to the failure policy has a
    ledger of exactly [N] records, record [i] carrying attempt number
    [i + 1], and [totalAttempts = N]; and unless the policy itself
    throws a [ParseError], that is the only violation and the call
    completes with what the policy gives.  Where [JSON.stringify] throws
    on the rejected value, as on the [bigint] [10n], line 108 throws
    inside the [try] block before anything is recorded: with three
    attempts allowed the call ends after one invocation with that
    [TypeError], an empty ledger and no violation. *)
Theorem exhaustion_ledger :
  (forall (rt : Runtime) (options : GuardOptions.t) (fn : Producer.t)
          (args : list value) (outer : Store) (outputSchema : ZodType)
          (w : world) (N : Z),
      includes (retryOnOf options) validation = true ->
      GuardOptions.output options = Some outputSchema ->
      alwaysInvalid fn outputSchema ->
      returnsSerialisable fn ->
      maxAttemptsOf options = N ->
      1 <= N ->
      inputAccepted options args ->
      exists r s violation later wp,
        guarded options fn args outer w = Some (r, s)
        /\ length (invocations (Call.log s)) = Z.to_nat N
        /\ violations (Call.log s) = violation :: later
        /\ Z.of_nat (length (HandoffViolation.history violation)) = N
        /\ (forall i record,
               nth_error (HandoffViolation.history violation) i
               = Some record ->
               AttemptRecord.attempt record = Z.of_nat i + 1)
        /\ HandoffViolation.totalAttempts violation = N
        /\ ViolationContext.contractType
             (HandoffViolation.context violation)
           = output_contract
        /\ ((forall e,
                fst (handleFailure violation (inputDataOf options args)
                       (onFailOf options) wp)
                <> Threw (ThrownParseError e)) ->
            later = []
            /\ r = fst (handleFailure violation (inputDataOf options args)
                          (onFailOf options) wp)))
  /\ observe
       (guarded (demoOptions None 3 None raise None)
          (returning (VBigInt 10)) [testInput] None 0%nat)
     = Some (Threw (ThrownTypeError
                      (lit "Do not know how to serialize a BigInt")),
             1%nat, [], []).
Proof.
  split.
  - intros rt options fn args outer outputSchema w N
      Hretry Houtput Hinvalid Hserial HN Hpos Hinput.
    eapply exhaustion_general; eassumption.
  - vm_compute. reflexivity.
Qed.

(* ===================================================================== *)
(** ** The guard: the failure policy that returns the input *)
(* ===================================================================== *)

Section ReturnInput.
Context {rt : Runtime}.
Variable options : GuardOptions.t.
Variable fn : Producer.t.
Variable args : list value.
Variable outer : Store.

Hypothesis Hpolicy :
  onFailOf options = return_input \/ onFailOf options = returnInput.

Lemma handleFailure_returnInput violation w :
  handleFailure violation (inputDataOf options args) (onFailOf options) w
  = (Returned (inputDataOf options args), w).
Proof. destruct Hpolicy as [-> | ->]; reflexivity. Qed.

(** An attempt either applies no failure policy or ends the call with
    the resolved input. *)
Lemma attemptBody_returnInput attempt s sig s' :
  attemptBody options fn args outer attempt s = (sig, s') ->
  violations (Call.log s') = violations (Call.log s)
  \/ sig = Done (Returned (inputDataOf options args)).
Proof.
  rewrite attemptBody_outcome. cbv zeta.
  destruct (producerOutcome options fn args attempt s) as [outcome w2].
  assert (Hlog : violations
                   (Call.log s ++ [invocationOf options args attempt s])
                 = violations (Call.log s)).
  { rewrite violations_app. simpl. apply app_nil_r. }
  assert (Hsucceed : forall result s1,
             Call.log s1
             = Call.log s ++ [invocationOf options args attempt s] ->
             succeed attempt (fst (Date_now (Call.env s))) result s1
             = (sig, s') ->
             violations (Call.log s') = violations (Call.log s)).
  { intros result s1 Hs1 H. unfold succeed in H.
    destruct (Date_now (Call.env s1)) as [stamp v1].
    destruct (Date_now v1) as [t v2]. injection H as <- <-.
    simpl. rewrite Hs1. exact Hlog. }
  assert (Hcatch : forall error s1,
             Call.log s1
             = Call.log s ++ [invocationOf options args attempt s] ->
             catchBlock options fn args attempt
               (fst (Date_now (Call.env s))) error s1 = (sig, s') ->
             violations (Call.log s') = violations (Call.log s)
             \/ sig = Done (Returned (inputDataOf options args))).
  { intros error s1 Hs1 H. unfold catchBlock in H.
    destruct (Date_now (Call.env s1)) as [t v1].
    destruct error as [e|v|m|m|v].
    2-5: injection H as <- <-; left; simpl; rewrite Hs1; exact Hlog.
    destruct (Date_now v1) as [stamp v2].
    destruct ((attempt <? maxAttemptsOf options)
              && includes (retryOnOf options) parse).
    { injection H as <- <-. left. simpl. rewrite Hs1. exact Hlog. }
    destruct ((maxAttemptsOf options =? 1)
              || negb (includes (retryOnOf options) parse)).
    { injection H as <- <-. left. simpl. rewrite Hs1. exact Hlog. }
    rewrite handleFailure_returnInput in H.
    injection H as <- <-. right. reflexivity. }
  intros H. destruct outcome as [result|error].
  - destruct (GuardOptions.output options) as [outputSchema|].
    + destruct (outputSchema result) as [|firstError others].
      * left. eapply Hsucceed; [|exact H]. reflexivity.
      * unfold outputInvalid, contextOrThrow in H.
        destruct (JSON_stringify result) as [text|error0];
          [|eapply Hcatch; [|exact H]; reflexivity].
        cbn [Call.env Call.history Call.lastError Call.log] in H.
        destruct (Date_now w2) as [stamp w3].
        destruct (Date_now w3) as [t w4].
        destruct ((attempt <? maxAttemptsOf options)
                  && includes (retryOnOf options) validation).
        { injection H as <- <-. left. exact Hlog. }
        cbv beta iota in H.
        rewrite handleFailure_returnInput in H.
        injection H as <- <-. right. reflexivity.
    + left. eapply Hsucceed; [|exact H]. reflexivity.
  - eapply Hcatch; [|exact H]. reflexivity.
Qed.

Lemma attemptLoop_returnInput fuel : forall attempt s r s',
  attemptLoop options fn args outer fuel attempt s = Some (r, s') ->
  violations (Call.log s') = violations (Call.log s)
  \/ r = Returned (inputDataOf options args).
Proof.
  induction fuel as [|fuel IH]; intros attempt s r s' H; simpl in H.
  - destruct (attempt <=? maxAttemptsOf options); [discriminate|].
    injection H as <- <-. left. reflexivity.
  - destruct (attempt <=? maxAttemptsOf options).
    + destruct (attemptBody options fn args outer attempt s) as [sig s1] eqn:Hb.
      destruct (attemptBody_returnInput _ _ Hb) as [Hsame | Hdone].
      * destruct sig as [|r1].
        -- destruct (IH _ _ _ _ H) as [Hs | Hr]; [left | right; exact Hr].
           rewrite Hs. exact Hsame.
        -- injection H as <- <-. left. exact Hsame.
      * subst sig. injection H as <- <-. right. reflexivity.
    + injection H as <- <-. left. reflexivity.
Qed.

(** C4, as the code has it.  Under the [return_input] / [returnInput]
    policy a call that reaches a violation returns the input the guard
    resolved from its arguments: the first argument itself when no
    [inputParam] is configured, and the value of the property
    [inputParam] of the first argument when that argument is an object
    that has the property. *)
Theorem returnInput_gives_resolved_input (w : world) r s :
  guarded options fn args outer w = Some (r, s) ->
  violations (Call.log s) <> [] ->
  r = Returned (resolveInputData args (GuardOptions.inputParam options))
  /\ (forall firstArg rest,
         args = firstArg :: rest ->
         GuardOptions.inputParam options = None ->
         r = Returned firstArg)
  /\ (forall props rest key,
         args = VObj props :: rest ->
         GuardOptions.inputParam options = Some key ->
         key <> [] ->
         hasProp key props = true ->
         r = Returned (getProp key props)).
Proof.
  intros H Hv.
  assert (Hr : r = Returned (inputDataOf options args)).
  { unfold guarded in H.
    assert (Hrun : attemptLoop options fn args outer
                     (Z.to_nat (maxAttemptsOf options)) 1
                     {| Call.env := w; Call.history := [];
                        Call.lastError := None; Call.log := [] |}
                   = Some (r, s) ->
                   r = Returned (inputDataOf options args)).
    { intros Hloop.
      destruct (attemptLoop_returnInput _ _ _ Hloop) as [Hsame | Hdone];
        [|exact Hdone].
      simpl in Hsame. contradiction. }
    destruct (GuardOptions.input options) as [inputSchema|];
      [|exact (Hrun H)].
    destruct (inputSchema (inputDataOf options args)); [exact (Hrun H)|].
    unfold contextOrThrow in H.
    destruct (JSON_stringify (inputDataOf options args)) as [text|error].
    - rewrite handleFailure_returnInput in H. injection H as <- <-.
      reflexivity.
    - injection H as <- <-. simpl in Hv. contradiction. }
  split; [exact Hr|]. split.
  - intros firstArg rest Hargs Hnone. rewrite Hr.
    unfold inputDataOf. rewrite Hargs, Hnone. reflexivity.
  - intros props rest key Hargs Hkey Hne Hhas. rewrite Hr.
    unfold inputDataOf. rewrite Hargs, Hkey. simpl.
    destruct key; [contradiction|]. simpl. rewrite Hhas. reflexivity.
Qed.

End ReturnInput.

(* ===================================================================== *)
(** ** Diagnostics and retry states *)
(* ===================================================================== *)

Section DiagnosticsAndStates.
Context {rt : Runtime}.

(** C5.  [createDiagnostic] bounds [rawOutput] by 500 code units
    whatever payload it is given; a guarded call always completes, and
    every diagnostic it holds by then - in its ledger, as its last
    error, in the states it published to the producer, in the ledgers
    of the violations it handed to the failure policy - is a value
    [createDiagnostic] returned, as it was returned, and so has a
    [rawOutput] of at most 500 code units; and an attempt only appends
    to the ledger, so no record is altered once it is written. *)
Theorem rawOutput_bounded_at_construction :
  (forall data, rawOutputBounded (createDiagnostic data))
  /\ (forall options fn args outer w,
         exists r s,
           guarded options fn args outer w = Some (r, s)
           /\ constructedLedger (Call.history s)
           /\ constructedDiagnostic (Call.lastError s)
           /\ (forall st callArgs,
                  In (Invoked st callArgs) (Call.log s) ->
                  constructedDiagnostic (RetryState.lastError st)
                  /\ constructedLedger (RetryState.history st))
           /\ (forall v,
                  In (PolicyApplied v) (Call.log s) ->
                  constructedLedger (HandoffViolation.history v)))
  /\ (forall options fn args outer attempt s sig s',
         attemptBody options fn args outer attempt s = (sig, s') ->
         exists recs, Call.history s' = Call.history s ++ recs).
Proof.
  split; [exact createDiagnostic_bounded|]. split.
  - intros options fn args outer w.
    destruct (guarded_total options fn args outer w) as (r & s & H).
    exists r, s. split; [exact H|].
    destruct (guarded_sound _ _ _ _ _ H) as (Hh & Hl & Hlog).
    rewrite Forall_forall in Hlog.
    split; [exact Hh|]. split; [exact Hl|]. split.
    + intros st callArgs Hin. destruct (Hlog _ Hin) as (_ & Hd & Hled).
      split; assumption.
    + intros v Hin. destruct (Hlog _ Hin) as [Hled _]. exact Hled.
  - intros options fn args outer attempt s sig s' H.
    exact (attemptBody_history _ _ _ _ _ _ H).
Qed.

(** C8.  Whatever store the library has established - none, the state
    of an attempt of a guarded call, the state [mockRetry] builds - the
    state read through the [retry] proxy has
    [remaining = maxAttempts - attempt], [isRetry = (attempt > 1)] and
    [isFinalAttempt = (attempt = maxAttempts)]; with no store the proxy
    reads [attempt = 1], [maxAttempts = 1], [isRetry = false],
    [lastError = null] and a [feedback] that returns null. *)
Theorem ambient_state_consistent (store : Store) :
  Published store ->
  (retry store RetryState.remaining
   = retry store RetryState.maxAttempts - retry store RetryState.attempt
   /\ retry store RetryState.isRetry = (1 <? retry store RetryState.attempt)
   /\ retry store RetryState.isFinalAttempt
      = (retry store RetryState.attempt =? retry store RetryState.maxAttempts))
  /\ (retry None RetryState.attempt = 1
      /\ retry None RetryState.maxAttempts = 1
      /\ retry None RetryState.isRetry = false
      /\ retry None RetryState.lastError = None
      /\ retry None RetryState.feedback tt = None).
Proof.
  intros Hpub. split; [|repeat split].
  destruct Hpub as [| options fn args outer w r s st callArgs Hrun Hin
                    | mockOptions].
  - repeat split.
  - destruct (guarded_sound _ _ _ _ _ Hrun) as (_ & _ & Hlog).
    rewrite Forall_forall in Hlog.
    destruct (Hlog _ Hin) as (Hc & _). exact Hc.
  - repeat split.
Qed.

End DiagnosticsAndStates.

(* ===================================================================== *)
(** ** The properties at concrete configurations *)
(* ===================================================================== *)

Lemma rejectAll_alwaysInvalid (v : value) :
  alwaysInvalid (returning v) rejectAll.
Proof.
  intros store callArgs w. exists v, (S w). split; [reflexivity|].
  exists missingScore, []. reflexivity.
Qed.

Lemma returning_serialisable (v : value) :
  serialisable (rt := demoRuntime) v ->
  returnsSerialisable (returning v).
Proof.
  intros Hv store callArgs w v' w' H. injection H as <- _. exact Hv.
Qed.

(** Three attempts, all invalid: three invocations and a ledger of three
    records. *)
Lemma exhaustion_ledger_witness :
  exists r s violation,
    guarded (demoOptions None 3 None raise None)
      (returning (VObj [(lit "result", VStr (lit "ok"))]))
      [testInput] None 0%nat = Some (r, s)
    /\ length (invocations (Call.log s)) = 3%nat
    /\ Z.of_nat (length (HandoffViolation.history violation)) = 3
    /\ r = Threw (ThrownViolation violation).
Proof.
  destruct (proj1 exhaustion_ledger demoRuntime
              (demoOptions None 3 None raise None)
              (returning (VObj [(lit "result", VStr (lit "ok"))]))
              [testInput] None rejectAll 0%nat 3
              eq_refl eq_refl (rejectAll_alwaysInvalid _))
    as (r & s & violation & later & wp & Hrun & Hcalls & Hvio & Hlen & _
        & _ & _ & Hpolicy).
  - apply returning_serialisable. eexists. reflexivity.
  - reflexivity.
  - lia.
  - intros inputSchema Hin. discriminate Hin.
  - exists r, s, violation. split; [exact Hrun|]. split; [exact Hcalls|].
    split; [exact Hlen|]. apply Hpolicy. intros e. discriminate.
Defined.

Lemma input_violation_skips_producer_witness :
  exists violation s,
    guarded (demoOptions (Some rejectAll) 3 None raise None)
      (returning VNull) [testInput] None 0%nat
    = Some (Threw (ThrownViolation violation), s)
    /\ invocations (Call.log s) = []
    /\ HandoffViolation.history violation = []
    /\ HandoffViolation.totalAttempts violation = 1.
Proof.
  destruct (proj1 input_violation_skips_producer demoRuntime
              (demoOptions (Some rejectAll) 3 None raise None)
              (returning VNull) [testInput] None 0%nat
              rejectAll missingScore [] eq_refl eq_refl)
    as [_ Happlied].
  destruct Happlied
    as (violation & s & Hrun & _ & _ & Hcalls & _ & _ & Hhist & Htotal).
  - eexists. reflexivity.
  - exists violation, s. repeat split; assumption.
Defined.

Lemma noInputSchema maxAttempts retryOn onFail inputParam args :
  inputAccepted (demoOptions None maxAttempts retryOn onFail inputParam) args.
Proof. intros inputSchema Hin. discriminate Hin. Qed.

(** Three attempts allowed, the first throws [new Error('missing')]: one
    invocation, no record, no policy. *)
Lemma other_failure_propagates_witness :
  exists s,
    guarded (demoOptions None 3 None raise None)
      (throwing (ThrownError (lit "missing"))) [testInput] None 0%nat
    = Some (Threw (ThrownError (lit "missing")), s)
    /\ Call.history s = []
    /\ length (invocations (Call.log s)) = 1%nat
    /\ violations (Call.log s) = [].
Proof.
  destruct (@other_failure_propagates demoRuntime
              (demoOptions None 3 None raise None)
              (throwing (ThrownError (lit "missing"))) [testInput] None
              0%nat 3%nat 1 (initialCall (rt := demoRuntime) 0%nat)
              (ThrownError (lit "missing")) 2%nat)
    as (s & Hrun & Hhist & _ & Hlog & Hvio).
  - apply (@Attempting_first demoRuntime
             (demoOptions None 3 None raise None)
             (throwing (ThrownError (lit "missing"))) [testInput] None 0%nat).
    apply noInputSchema.
  - vm_compute. discriminate.
  - reflexivity.
  - intros e. discriminate.
  - exists s. split; [exact Hrun|]. split; [exact Hhist|].
    split; [rewrite Hlog; reflexivity | exact Hvio].
Defined.


(** C4, as stated, fails: with [inputParam: 'state'] the call returns the
    value of [state], not the options object that was passed. *)
Lemma returnInput_returns_extracted_value :
  exists s,
    guarded (demoOptions None 1 None returnInput (Some (lit "state")))
      (returning (VObj [(lit "result", VStr (lit "ok"))]))
      [wrappedInput] None 0%nat
    = Some (Returned testInput, s)
    /\ violations (Call.log s) <> []
    /\ Returned testInput <> Returned wrappedInput.
Proof.
  eexists. split; [vm_compute; reflexivity|]. split; discriminate.
Defined.

Lemma returnInput_gives_resolved_input_witness :
  exists s,
    guarded (demoOptions None 2 None return_input None)
      (returning (VObj [(lit "result", VStr (lit "ok"))]))
      [testInput] None 0%nat
    = Some (Returned testInput, s).
Proof.
  destruct (guarded_total (demoOptions None 2 None return_input None)
              (returning (VObj [(lit "result", VStr (lit "ok"))]))
              [testInput] None 0%nat) as (r & s & Hrun).
  exists s. rewrite Hrun. do 2 f_equal.
  refine (proj1 (@returnInput_gives_resolved_input demoRuntime
                   (demoOptions None 2 None return_input None)
                   (returning (VObj [(lit "result", VStr (lit "ok"))]))
                   [testInput] None (or_introl eq_refl) 0%nat r s Hrun _)).
  vm_compute in Hrun. injection Hrun as _ <-. discriminate.
Defined.

Lemma rawOutput_bounded_at_construction_witness :
  rawOutputBounded
    (createDiagnostic
       {| Diagnostic.type := parse;
          Diagnostic.message := lit "bad json";
          Diagnostic.field := None;
          Diagnostic.expected := None;
          Diagnostic.received := None;
          Diagnostic.suggestion := None;
          Diagnostic.rawOutput := Some (repeat 120%N 2000) |})
  /\ exists recs,
       Call.history
         (snd (attemptBody (demoOptions None 2 None raise None)
                 (throwing (ThrownParseError badJson)) [testInput] None 1
                 (initialCall (rt := demoRuntime) 0%nat)))
       = [] ++ recs.
Proof.
  split.
  - apply (proj1 (@rawOutput_bounded_at_construction demoRuntime)).
  - eapply (proj2 (proj2 (@rawOutput_bounded_at_construction demoRuntime))
              _ _ _ _ _ (initialCall (rt := demoRuntime) 0%nat)).
    apply surjective_pairing.
Defined.

Lemma ambient_state_consistent_witness :
  retry (Some (mockRetryState
                 {| MockRetryOptions.attempt := Some 3;
                    MockRetryOptions.maxAttempts := Some 5;
                    MockRetryOptions.lastError := None;
                    MockRetryOptions.feedbackText := Some (lit "Fix the output")
                 |})) RetryState.remaining = 2
  /\ retry None RetryState.attempt = 1.
Proof.
  destruct (@ambient_state_consistent demoRuntime _
              (Published_mock
                 {| MockRetryOptions.attempt := Some 3;
                    MockRetryOptions.maxAttempts := Some 5;
                    MockRetryOptions.lastError := None;
                    MockRetryOptions.feedbackText := Some (lit "Fix the output")
                 |}))
    as [(Hrem & _) (Hdefault & _)].
  split; [exact Hrem | exact Hdefault].
Defined.


(* ===================================================================== *)
(** ** The scenarios of the test suite *)
(* ===================================================================== *)

(** "should succeed on second attempt" / "should be truthy on retry". *)
Example retry_succeeds_on_second_attempt :
  observe
    (guarded
       {| GuardOptions.input := None;
          GuardOptions.output := Some requireScore;
          GuardOptions.nodeName := None;
          GuardOptions.maxAttempts := Some 3;
          GuardOptions.retryOn := None;
          GuardOptions.onFail := None;
          GuardOptions.inputParam := None |}
       retryAware [VObj [(lit "x", VNum 1 0)]] None 0%nat)
  = Some (Returned (VObj [(lit "result", VStr (lit "ok"));
                          (lit "score", VNum 1 0)]),
          2%nat, [1; 2], []).
Proof. vm_compute. reflexivity. Qed.

(** "should propagate ParseError with max_attempts=1": the default
    configuration. *)
Example parse_error_with_one_attempt :
  observe
    (guarded
       {| GuardOptions.input := None;
          GuardOptions.output := Some requireScore;
          GuardOptions.nodeName := None;
          GuardOptions.maxAttempts := None;
          GuardOptions.retryOn := None;
          GuardOptions.onFail := None;
          GuardOptions.inputParam := None |}
       (throwing (ThrownParseError badJson)) [VObj [(lit "x", VNum 1 0)]]
       None 0%nat)
  = Some (Threw (ThrownParseError badJson), 1%nat, [1], []).
Proof. vm_compute. reflexivity. Qed.

(** "should truncate rawOutput in diagnostic to 500 chars": a payload of
    2000 code units, two attempts. *)
Example long_payload_is_cut_in_the_ledger :
  match guarded (demoOptions None 2 None raise None)
          (throwing
             (ThrownParseError
                (ParseError.new (lit "bad json") (Some (repeat 120%N 2000)))))
          [testInput] None 0%nat with
  | Some (Threw (ThrownViolation v), _) =>
      map (fun r =>
             match AttemptRecord.diagnostic r with
             | Some d => option_map (@length N) (Diagnostic.rawOutput d)
             | None => None
             end) (HandoffViolation.history v)
  | _ => []
  end = [Some 500%nat; Some 500%nat].
Proof. vm_compute. reflexivity. Qed.

(** The suggestion for a missing number. *)
Example suggestion_for_missing_score :
  generateSuggestion (rt := demoRuntime) missingScore
  = lit "'score' should be number, got undefined".
Proof. vm_compute. reflexivity. Qed.

(** The failure policy runs inside the [try] block: a handler that
    throws a [ParseError] is taken for a producer that did.  With two
    attempts, all invalid, the ledger gets a second record for attempt 2
    and the policy is applied a second time, to a violation with three
    records. *)
Example policy_parse_error_is_caught :
  observe
    (guarded (demoOptions None 2 None parseThrowingHandler None)
       (returning (VObj [(lit "result", VStr (lit "ok"))])) [testInput]
       None 0%nat)
  = Some (Threw (ThrownParseError badJson), 2%nat, [1; 2; 2], [2%nat; 3%nat]).
Proof. vm_compute. reflexivity. Qed.

(* ===================================================================== *)
(** ** Further scenarios *)
(* ===================================================================== *)

(** A value [JSON.stringify] has no text for is reported as
    [undefined]: a function where an object is required as input. *)
Example unrendered_input_is_reported :
  match guarded (demoOptions (Some requireScore) 3 None raise None)
          (returning VNull) [VFunction (lit "f")] None 0%nat with
  | Some (Threw (ThrownViolation v), s) =>
      Some (ViolationContext.received (HandoffViolation.context v),
            ViolationContext.receivedType (HandoffViolation.context v),
            length (invocations (Call.log s)))
  | _ => None
  end = Some (lit "undefined", lit "function", 0%nat).
Proof. vm_compute. reflexivity. Qed.

(** [inputParam: 'toString'] with an object that has no such property of
    its own: the inherited method is taken for the input. *)
Example inherited_key_is_resolved :
  resolveInputData [testInput] (Some (lit "toString"))
  = VFunction (lit "toString").
Proof. vm_compute. reflexivity. Qed.



(* ===================================================================== *)
(** ** Further properties: diagnostics, feedback, arguments *)
(* ===================================================================== *)

(** X1 (createDiagnostic).  [createDiagnostic] copies every field but
    [rawOutput]; of a payload it keeps a prefix, the whole of it up to
    500 code units and exactly 500 of a longer one; and applying it twice
    is applying it once. *)
Theorem createDiagnostic_keeps_a_prefix (data : Diagnostic.t) :
  Diagnostic.type (createDiagnostic data) = Diagnostic.type data
  /\ Diagnostic.message (createDiagnostic data) = Diagnostic.message data
  /\ Diagnostic.field (createDiagnostic data) = Diagnostic.field data
  /\ Diagnostic.expected (createDiagnostic data) = Diagnostic.expected data
  /\ Diagnostic.received (createDiagnostic data) = Diagnostic.received data
  /\ Diagnostic.suggestion (createDiagnostic data) = Diagnostic.suggestion data
  /\ match Diagnostic.rawOutput data with
     | None => Diagnostic.rawOutput (createDiagnostic data) = None
     | Some payload =>
         exists kept cut,
           Diagnostic.rawOutput (createDiagnostic data) = Some kept
           /\ payload = kept ++ cut
           /\ length kept = Nat.min 500 (length payload)
     end
  /\ createDiagnostic (createDiagnostic data) = createDiagnostic data.
Proof.
  destruct data as [type message field expected received suggestion raw].
  unfold createDiagnostic. cbn [Diagnostic.type Diagnostic.message
    Diagnostic.field Diagnostic.expected Diagnostic.received
    Diagnostic.suggestion Diagnostic.rawOutput].
  repeat (split; [reflexivity|]). split.
  - destruct raw as [payload|]; [|reflexivity].
    exists (firstn 500 payload), (skipn 500 payload). unfold slice_to.
    split; [reflexivity|]. split.
    + symmetry. apply firstn_skipn.
    + apply length_firstn.
  - f_equal. destruct raw as [payload|]; [|reflexivity].
    cbn [option_map]. unfold slice_to. rewrite firstn_firstn. reflexivity.
Qed.

Lemma join_two (sep a b : jsstring) (more : list jsstring) :
  exists tail, join sep (a :: b :: more) = a ++ sep ++ b ++ tail.
Proof.
  destruct more as [|c more].
  - exists []. simpl. rewrite app_nil_r. reflexivity.
  - eexists. reflexivity.
Qed.

(** X2 (formatFeedback).  There is no feedback without a diagnostic;
    with one, the text opens with the failure kind and the message, and
    it depends on the first 200 code units of [rawOutput] only. *)
Theorem formatFeedback_header_and_excerpt :
  formatFeedback None = None
  /\ (forall d, exists rest,
         formatFeedback (Some d)
         = Some (lit "[Retry] Previous attempt failed ("
                   ++ Kind_name (Diagnostic.type d) ++ lit "):"
                   ++ LF :: lit "  Message: " ++ Diagnostic.message d ++ rest))
  /\ (forall type message field expected received suggestion raw,
         formatFeedback
           (Some (Diagnostic.mk type message field expected received
                    suggestion (Some raw)))
         = formatFeedback
             (Some (Diagnostic.mk type message field expected received
                      suggestion (Some (slice_to 200 raw))))).
Proof.
  split; [reflexivity|]. split.
  - intros [type message field expected received suggestion raw].
    unfold formatFeedback.
    cbn [Diagnostic.type Diagnostic.message Diagnostic.field
         Diagnostic.suggestion Diagnostic.rawOutput].
    destruct field as [[|f0 f]|]; destruct suggestion as [[|g0 g]|];
      destruct raw as [[|r0 r]|]; cbn [nonEmpty app];
      match goal with
      | |- context [join ?sep (?a :: ?b :: ?more)] =>
          destruct (join_two sep a b more) as [tail Ht];
          exists tail; f_equal; etransitivity; [exact Ht|];
          rewrite <- !app_assoc; reflexivity
      end.
  - intros type message field expected received suggestion raw.
    unfold formatFeedback. cbn [Diagnostic.rawOutput].
    assert (Hne : nonEmpty (slice_to 200 raw) = nonEmpty raw)
      by (destruct raw; reflexivity).
    assert (Hcut : slice_to 200 (slice_to 200 raw) = slice_to 200 raw)
      by (unfold slice_to; rewrite firstn_firstn; reflexivity).
    rewrite Hne, Hcut. reflexivity.
Qed.

(** X3 (buildCallArgs).  The producer receives the retry state at most
    once; it receives none exactly when the caller passed two or more
    arguments with the second one set; every argument of the caller
    stays at its position, but for an unset second argument, which the
    state replaces, and a lone options object with an unset [retry]
    property, whose copy carries the state. *)
Theorem buildCallArgs_injects_state_once (args : list value)
    (state : RetryState.t) :
  (length (filter carriesState (buildCallArgs args state)) <= 1)%nat
  /\ (filter carriesState (buildCallArgs args state) = []
      <-> exists a0 a1 rest, args = a0 :: a1 :: rest /\ a1 <> VUndefined)
  /\ (forall i v,
         nth_error args i = Some v ->
         nth_error (buildCallArgs args state) i = Some (ArgValue v)
         \/ (i = 1%nat /\ v = VUndefined
             /\ nth_error (buildCallArgs args state) i = Some (ArgState state))
         \/ (exists asRecord,
                args = [VObj asRecord] /\ v = VObj asRecord
                /\ hasProp (lit "retry") asRecord = true
                /\ getProp (lit "retry") asRecord = VUndefined
                /\ buildCallArgs args state = [ArgOptions asRecord state])).
Proof.
  assert (Hvalues : forall l, filter carriesState (map ArgValue l) = []).
  { induction l as [|v l IH]; [reflexivity | exact IH]. }
  destruct args as [|a0 [|a1 rest]].
  - split; [simpl; lia|]. split.
    + split; [discriminate | intros (a0 & a1 & rest & H & _); discriminate].
    + intros [|i] v H; discriminate.
  - assert (Hone :
      buildCallArgs [a0] state = [ArgValue a0; ArgState state]
      \/ exists asRecord,
           a0 = VObj asRecord /\ hasProp (lit "retry") asRecord = true
           /\ getProp (lit "retry") asRecord = VUndefined
           /\ buildCallArgs [a0] state = [ArgOptions asRecord state]).
    { unfold buildCallArgs.
      destruct a0 as [| |b|m e|n|s|name|items|props]; try (left; reflexivity).
      destruct (hasProp (lit "retry") props) eqn:Hhas; [|left; reflexivity].
      destruct (getProp (lit "retry") props) eqn:Hget;
        try (left; reflexivity).
      right. exists props. repeat split; assumption. }
    destruct Hone as [Hplain | (asRecord & -> & Hhas & Hget & Hopt)].
    + rewrite Hplain. split; [simpl; lia|]. split.
      * split; [discriminate | intros (b0 & b1 & rest & H & _); discriminate].
      * intros [|[|i]] v H; try discriminate. injection H as <-.
        left. reflexivity.
    + rewrite Hopt. split; [simpl; lia|]. split.
      * split; [discriminate | intros (b0 & b1 & rest & H & _); discriminate].
      * intros [|[|i]] v H; try discriminate. injection H as <-.
        right. right. exists asRecord. repeat split; assumption.
  - assert (Htwo :
      (a1 = VUndefined
       /\ buildCallArgs (a0 :: a1 :: rest) state
          = ArgValue a0 :: ArgState state :: map ArgValue rest)
      \/ (a1 <> VUndefined
          /\ buildCallArgs (a0 :: a1 :: rest) state
             = map ArgValue (a0 :: a1 :: rest))).
    { unfold buildCallArgs. destruct a1;
        try (right; split; [discriminate | destruct a0; reflexivity]).
      left. split; [reflexivity | destruct a0; reflexivity]. }
    destruct Htwo as [[-> Hset] | [Hne Hkeep]].
    + rewrite Hset. cbn [filter carriesState]. rewrite Hvalues.
      split; [simpl; lia|]. split.
      * split; [discriminate|].
        intros (b0 & b1 & rest' & H & Hb). injection H as _ <- _.
        contradiction.
      * intros [|[|i]] v H.
        -- injection H as <-. left. reflexivity.
        -- injection H as <-. right. left. repeat split.
        -- left. simpl in *. apply map_nth_error. exact H.
    + rewrite Hkeep, Hvalues. split; [simpl; lia|]. split.
      * split; [|reflexivity]. intros _. exists a0, a1, rest.
        split; [reflexivity | exact Hne].
      * intros i v H. left. apply map_nth_error. exact H.
Qed.

(** X4 (HandoffViolation, toDict).  A violation takes its name and
    field path from its context; its [totalAttempts] is the length of its
    ledger, and 1 when the ledger is empty or left out; and [toDict]
    keeps these, the context and the ledger, record by record in order,
    with each timestamp rendered as text. *)
Theorem toDict_keeps_the_ledger (toISOString : Z -> jsstring)
    (context : ViolationContext.t) (history : option (list AttemptRecord.t)) :
  let ledger := match history with Some h => h | None => [] end in
  let dict := toDict toISOString (HandoffViolation.new context history) in
  ViolationDict.nodeName dict = ViolationContext.nodeName context
  /\ ViolationDict.fieldPath dict = ViolationContext.fieldPath context
  /\ ViolationDict.context dict = context
  /\ ViolationDict.totalAttempts dict = Z.max 1 (Z.of_nat (length ledger))
  /\ length (ViolationDict.history dict) = length ledger
  /\ map SerializedRecord.attempt (ViolationDict.history dict)
     = map AttemptRecord.attempt ledger
  /\ map SerializedRecord.durationMs (ViolationDict.history dict)
     = map AttemptRecord.durationMs ledger
  /\ map SerializedRecord.diagnostic (ViolationDict.history dict)
     = map AttemptRecord.diagnostic ledger
  /\ map SerializedRecord.timestamp (ViolationDict.history dict)
     = map (fun r => toISOString (AttemptRecord.timestamp r)) ledger.
Proof.
  cbv zeta. unfold toDict, HandoffViolation.new.
  cbn [HandoffViolation.nodeName HandoffViolation.fieldPath
       HandoffViolation.context HandoffViolation.totalAttempts
       HandoffViolation.history ViolationDict.nodeName
       ViolationDict.fieldPath ViolationDict.context
       ViolationDict.totalAttempts ViolationDict.history].
  set (ledger := match history with Some h => h | None => [] end).
  repeat (split; [reflexivity|]). split.
  - destruct (Z.eqb_spec (Z.of_nat (length ledger)) 0); lia.
  - split; [apply length_map|].
    repeat split; rewrite map_map; reflexivity.
Qed.


(* ===================================================================== *)
(** ** Further properties: what parseJson tolerates around a JSON text *)
(* ===================================================================== *)

Lemma trimEnd_app_blank (s w : jsstring) :
  blank w -> trimEnd (s ++ w) = trimEnd s.
Proof.
  intros Hw. revert s. induction Hw as [|c w Hc _ IH]; intros s.
  - rewrite app_nil_r. reflexivity.
  - change (s ++ c :: w) with (s ++ [c] ++ w). rewrite app_assoc, IH.
    apply trimEnd_snoc_ws. exact Hc.
Qed.

Lemma trimEnd_app_keep (a b : jsstring) :
  trimEnd b <> [] -> trimEnd (a ++ b) = a ++ trimEnd b.
Proof.
  intros Hb. induction a as [|c a IH]; simpl; [reflexivity|].
  rewrite IH. destruct (a ++ trimEnd b) eqn:E; [|reflexivity].
  apply app_eq_nil in E. destruct E as [_ E]. contradiction.
Qed.

Lemma trimEnd_idempotent (s : jsstring) : trimEnd (trimEnd s) = trimEnd s.
Proof.
  induction s as [|c s IH]; simpl; [reflexivity|].
  destruct (trimEnd s) as [|t ts] eqn:E.
  - destruct (isWhiteSpace c) eqn:Hc; simpl; [reflexivity|].
    rewrite Hc. reflexivity.
  - simpl. simpl in IH. rewrite IH. reflexivity.
Qed.

Lemma trimStart_app_blank (w s : jsstring) :
  blank w -> trimStart (w ++ s) = trimStart s.
Proof.
  induction 1 as [|c w Hc _ IH]; simpl; [reflexivity|].
  rewrite Hc. exact IH.
Qed.

Lemma trimStart_snoc_keep (s : jsstring) (c : N) :
  isWhiteSpace c = false -> exists x, trimStart (s ++ [c]) = x ++ [c].
Proof.
  intros Hc. induction s as [|d s [x IH]]; simpl.
  - rewrite Hc. exists []. reflexivity.
  - destruct (isWhiteSpace d).
    + exists x. exact IH.
    + exists (d :: s). reflexivity.
Qed.

(** Blanks around a text do not change its trimmed form, provided the
    text is not blank itself. *)
Lemma trim_around (w1 w2 s : jsstring) :
  blank w1 -> blank w2 -> trim s <> [] -> trim (w1 ++ s ++ w2) = trim s.
Proof.
  intros H1 H2 Hs. unfold trim in *.
  assert (He : trimEnd s <> []) by (intros E; rewrite E in Hs; contradiction).
  rewrite app_assoc, trimEnd_app_blank by assumption.
  rewrite trimEnd_app_keep by assumption.
  apply trimStart_app_blank. exact H1.
Qed.

Lemma JSON_parse_nonempty (s : jsstring) (v : value) :
  JSON_parse s = Some v -> s <> [].
Proof. intros H ->. discriminate H. Qed.

(** No JSON text ends with a backquote. *)
Lemma tokenize_ends_with_backquote (s : jsstring) :
  tokenize (s ++ [BACKTICK]) = None.
Proof.
  unfold tokenize. rewrite lex_run_app.
  destruct (lex_run (LIdle, []) s) as [[mode toks]|]; [|reflexivity].
  destruct mode; simpl; try reflexivity.
  - destruct (close_num acc); reflexivity.
  - destruct (close_word acc); reflexivity.
Qed.

Lemma endsWith_fence_last (s : jsstring) :
  endsWith s FENCE = true -> exists x, s = x ++ [BACKTICK].
Proof.
  unfold endsWith. intros H.
  destruct (rev s) as [|c r] eqn:E; [discriminate H|].
  change (N.eqb BACKTICK c && startsWith r [BACKTICK; BACKTICK] = true) in H.
  apply andb_true_iff in H. destruct H as [Hc _].
  apply N.eqb_eq in Hc. subst c.
  exists (rev r). rewrite <- (rev_involutive s), E. reflexivity.
Qed.

Section ParseJsonTolerance.
Context {rt : Runtime}.

(** X5 (parseJson).  Blanks of any kind around a valid JSON text - a
    byte-order mark, no-break spaces, line breaks - do not change what
    [parseJson] returns: the value the text denotes. *)
Theorem parseJson_ignores_surrounding_blanks
    (w1 w2 j : jsstring) (v : value) :
  blank w1 -> blank w2 -> JSON_parse j = Some v ->
  parseJson (VStr (w1 ++ j ++ w2)) = Returned v.
Proof.
  intros H1 H2 Hj. unfold parseJson.
  pose proof (JSON_parse_trim j Hj) as Ht.
  assert (Htrim : trim (w1 ++ j ++ w2) = trim j)
    by (apply trim_around; try assumption; exact (JSON_parse_nonempty Ht)).
  rewrite normalizedText_plain;
    rewrite Htrim; [rewrite Ht; reflexivity|].
  exact (JSON_parse_not_fenced _ Ht).
Qed.

(** X6 (parseJson).  A fence that is opened and never closed is
    tolerated: after the opening fence line, a valid JSON text is decoded
    to the value it denotes. *)
Theorem parseJson_unclosed_fence (info j : jsstring) (v : value) :
  Forall (fun c => c <> LF) info ->
  JSON_parse j = Some v ->
  parseJson (VStr (FENCE ++ info ++ LF :: j)) = Returned v.
Proof.
  intros Hinfo Hj. unfold parseJson.
  pose proof (JSON_parse_trim j Hj) as Ht.
  pose proof (JSON_parse_nonempty Ht) as Hne.
  assert (He : trimEnd j <> [])
    by (intros E; unfold trim in Hne; rewrite E in Hne; contradiction).
  assert (Hee : trimEnd (trimEnd j) <> [])
    by (rewrite trimEnd_idempotent; exact He).
  assert (Hnorm : normalizedText (FENCE ++ info ++ LF :: j) = trim j).
  { unfold normalizedText. rewrite trim_stripBOM.
    assert (Hstripped : trim (FENCE ++ info ++ LF :: j)
                        = (FENCE ++ info) ++ LF :: trimEnd j).
    { unfold trim.
      replace (FENCE ++ info ++ LF :: j)
        with ((FENCE ++ info ++ [LF]) ++ j)
        by (rewrite <- !app_assoc; reflexivity).
      rewrite trimEnd_app_keep by assumption.
      rewrite <- !app_assoc. reflexivity. }
    rewrite Hstripped.
    assert (Hstart : startsWith ((FENCE ++ info) ++ LF :: trimEnd j) FENCE
                     = true)
      by (rewrite <- app_assoc; apply startsWith_app).
    rewrite Hstart, (@firstLine_app (FENCE ++ info) (trimEnd j)).
    2:{ apply Forall_app. split; [|assumption].
        repeat constructor; discriminate. }
    assert (Hbody : slice_from (length (FENCE ++ info) + 1)
                      ((FENCE ++ info) ++ LF :: trimEnd j) = trimEnd j).
    { unfold slice_from. rewrite skipn_app, skipn_all2 by lia.
      replace (length (FENCE ++ info) + 1 - length (FENCE ++ info))%nat
        with 1%nat by lia.
      reflexivity. }
    rewrite Hbody, trimEnd_idempotent.
    destruct (endsWith (trimEnd j) FENCE) eqn:Hends.
    - exfalso. destruct (endsWith_fence_last _ Hends) as [x Hx].
      destruct (@trimStart_snoc_keep x BACKTICK eq_refl) as [y Hy].
      unfold JSON_parse, trim in Ht. rewrite Hx, Hy in Ht.
      rewrite tokenize_ends_with_backquote in Ht. discriminate Ht.
    - unfold trim. rewrite trimEnd_idempotent. reflexivity. }
  rewrite Hnorm, Ht. reflexivity.
Qed.

End ParseJsonTolerance.

Lemma parseJson_ignores_surrounding_blanks_witness :
  parseJson (rt := demoRuntime)
    (VStr ([BOM; 160%N] ++ lit "[1, {}]" ++ [LF]))
  = Returned (VArr [VNum 1 0; VObj []]).
Proof.
  apply (@parseJson_ignores_surrounding_blanks demoRuntime).
  - repeat constructor.
  - repeat constructor.
  - vm_compute. reflexivity.
Defined.

Lemma parseJson_unclosed_fence_witness :
  parseJson (rt := demoRuntime)
    (VStr (FENCE ++ lit "json" ++ LF :: lit "[1, {}] "))
  = Returned (VArr [VNum 1 0; VObj []]).
Proof.
  apply (@parseJson_unclosed_fence demoRuntime).
  - repeat constructor; discriminate.
  - vm_compute. reflexivity.
Defined.


(* ===================================================================== *)
(** ** The branches of one attempt *)
(* ===================================================================== *)

Section AttemptCases.
Context {rt : Runtime}.
Variable options : GuardOptions.t.
Variable fn : Producer.t.
Variable args : list value.
Variable outer : Store.

(** The branches of the [catch] block. *)
Lemma catchBlock_cases attempt startTime error s sig s' :
  catchBlock options fn args attempt startTime error s = (sig, s') ->
  ((forall e, error <> ThrownParseError e)
   /\ sig = Done (Threw error) /\ kept s s' [])
  \/ exists e record,
       error = ThrownParseError e
       /\ AttemptRecord.attempt record = attempt
       /\ AttemptRecord.diagnostic record = Some (parseDiagnostic e)
       /\ ((attempt < maxAttemptsOf options
            /\ includes (retryOnOf options) parse = true
            /\ sig = Continue
            /\ pushed s s' record (Some (parseDiagnostic e)) [])
           \/ ((maxAttemptsOf options <= attempt
                \/ includes (retryOnOf options) parse = false)
               /\ (maxAttemptsOf options = 1
                   \/ includes (retryOnOf options) parse = false)
               /\ sig = Done (Threw error)
               /\ pushed s s' record (Some (parseDiagnostic e)) [])
           \/ (maxAttemptsOf options <= attempt
               /\ maxAttemptsOf options <> 1
               /\ includes (retryOnOf options) parse = true
               /\ exists wp,
                    sig = Done
                            (fst (handleFailure
                                    (parseViolation options fn e
                                       (Call.history s ++ [record]))
                                    (inputDataOf options args)
                                    (onFailOf options) wp))
                    /\ pushed s s' record (Some (parseDiagnostic e))
                         [PolicyApplied
                            (parseViolation options fn e
                               (Call.history s ++ [record]))])).
Proof.
  unfold catchBlock. intros H.
  destruct (Date_now (Call.env s)) as [t w].
  destruct error as [e|v|m|m|v].
  2-5: (left; injection H as <- <-; split; [intros e; discriminate|];
        split; [reflexivity|]; repeat split; cbn [Call.log];
        symmetry; apply app_nil_r).
  right. destruct (Date_now w) as [stamp w1].
  exists e.
  exists {| AttemptRecord.attempt := attempt;
            AttemptRecord.timestamp := stamp;
            AttemptRecord.durationMs := t - startTime;
            AttemptRecord.diagnostic := Some (parseDiagnostic e) |}.
  split; [reflexivity|].
  destruct (Z.ltb_spec attempt (maxAttemptsOf options)) as [Hlt|Hge];
    destruct (includes (retryOnOf options) parse) eqn:Hin;
    cbn [andb negb orb] in H.
  - injection H as <- <-. split; [reflexivity|]. split; [reflexivity|].
    left. repeat split; try assumption. cbn [Call.log].
    symmetry; apply app_nil_r.
  - rewrite orb_true_r in H. injection H as <- <-.
    split; [reflexivity|]. split; [reflexivity|].
    right. left. split; [right; reflexivity|].
    split; [right; reflexivity|]. repeat split. cbn [Call.log].
    symmetry; apply app_nil_r.
  - rewrite orb_false_r in H.
    destruct (Z.eqb_spec (maxAttemptsOf options) 1) as [Hone|Hmany].
    + injection H as <- <-. split; [reflexivity|]. split; [reflexivity|].
      right. left. split; [left; lia|]. split; [left; exact Hone|].
      repeat split. cbn [Call.log]. symmetry; apply app_nil_r.
    + destruct (handleFailure _ _ _ w1) as [r w2] eqn:Hpolicy.
      injection H as <- <-. split; [reflexivity|]. split; [reflexivity|].
      right. right. split; [lia|]. split; [exact Hmany|].
      split; [reflexivity|]. exists w1.
      match goal with
      | |- context [handleFailure ?V ?i ?p w1] =>
          assert (Hp : handleFailure V i p w1 = (r, w2)) by exact Hpolicy;
          rewrite Hp
      end.
      repeat split.
  - rewrite orb_true_r in H. injection H as <- <-.
    split; [reflexivity|]. split; [reflexivity|].
    right. left. split; [right; reflexivity|].
    split; [right; reflexivity|]. repeat split. cbn [Call.log].
    symmetry; apply app_nil_r.
Qed.

Lemma pushed_after_kept s s1 s' record d events1 events2 :
  kept s s1 events1 -> pushed s1 s' record d events2 ->
  pushed s s' record d (events1 ++ events2).
Proof.
  intros (Hh & Hl & Hlog) (Hh' & Hl' & Hlog'). repeat split.
  - rewrite Hh', Hh. reflexivity.
  - exact Hl'.
  - rewrite Hlog', Hlog, app_assoc. reflexivity.
Qed.

(** The branches of lines 101-139, after an output was rejected:
    [JSON.stringify] throws at line 108 and the [catch] block takes
    over with nothing recorded, or the failure is recorded and then
    retried or handed to the policy. *)
Lemma outputInvalid_cases attempt startTime v firstError s1 sig s' :
  outputInvalid options fn args attempt startTime v firstError s1 = (sig, s') ->
  (exists error,
      JSON_stringify v = Threw error
      /\ catchBlock options fn args attempt startTime error s1 = (sig, s'))
  \/
  serialisable v /\
  exists record,
    AttemptRecord.attempt record = attempt
    /\ AttemptRecord.diagnostic record
       = Some (validationDiagnostic firstError v)
    /\ ((attempt < maxAttemptsOf options
         /\ includes (retryOnOf options) validation = true
         /\ sig = Continue
         /\ pushed s1 s' record (Some (validationDiagnostic firstError v)) [])
        \/ ((maxAttemptsOf options <= attempt
             \/ includes (retryOnOf options) validation = false)
            /\ exists wp s2,
                 pushed s1 s2 record
                   (Some (validationDiagnostic firstError v))
                   [PolicyApplied
                      (outputViolation options fn firstError v
                         (Call.history s1 ++ [record]))]
                 /\ (((forall e,
                          fst (handleFailure
                                 (outputViolation options fn firstError v
                                    (Call.history s1 ++ [record]))
                                 (inputDataOf options args)
                                 (onFailOf options) wp)
                          <> Threw (ThrownParseError e))
                      /\ sig
                         = Done
                             (fst (handleFailure
                                     (outputViolation options fn firstError v
                                        (Call.history s1 ++ [record]))
                                     (inputDataOf options args)
                                     (onFailOf options) wp))
                      /\ kept s2 s' [])
                     \/ (exists e,
                            fst (handleFailure
                                   (outputViolation options fn firstError v
                                      (Call.history s1 ++ [record]))
                                   (inputDataOf options args)
                                   (onFailOf options) wp)
                            = Threw (ThrownParseError e)
                            /\ catchBlock options fn args attempt startTime
                                 (ThrownParseError e) s2 = (sig, s'))))).
Proof.
  unfold outputInvalid, contextOrThrow. intros H.
  destruct (JSON_stringify v) as [text|error] eqn:Hs.
  2: { left. exists error. split; [reflexivity | exact H]. }
  right. split; [exists text; exact Hs|].
  destruct (Date_now (Call.env s1)) as [stamp w3].
  destruct (Date_now w3) as [t w4].
  match type of H with
  | context [createDiagnostic ?data] =>
      assert (Hvd : createDiagnostic data = validationDiagnostic firstError v)
        by (unfold validationDiagnostic; rewrite Hs; reflexivity);
      rewrite Hvd in H
  end.
  set (record := {| AttemptRecord.attempt := attempt;
                    AttemptRecord.timestamp := stamp;
                    AttemptRecord.durationMs := t - startTime;
                    AttemptRecord.diagnostic :=
                      Some (validationDiagnostic firstError v) |}).
  exists record. split; [reflexivity|]. split; [reflexivity|].
  assert (Hnil : forall l : list event, l = l ++ [])
    by (intros l; symmetry; apply app_nil_r).
  destruct ((attempt <? maxAttemptsOf options)
            && includes (retryOnOf options) validation) eqn:Hretry.
  - apply andb_true_iff in Hretry. destruct Hretry as [Hlt Hin].
    apply Z.ltb_lt in Hlt. injection H as <- <-.
    left. repeat split; try assumption. apply Hnil.
  - right. split.
    { apply andb_false_iff in Hretry. destruct Hretry as [Hge | Hin].
      - left. apply Z.ltb_ge in Hge. exact Hge.
      - right. exact Hin. }
    exists w4.
    destruct (handleFailure _ _ _ w4) as [r w5] eqn:Hq in H.
    assert (Hp : handleFailure
                   (outputViolation options fn firstError v
                      (Call.history s1 ++ [record]))
                   (inputDataOf options args) (onFailOf options) w4 = (r, w5))
      by exact Hq.
    rewrite Hp. cbn [fst]. clear Hq Hp.
    exists {| Call.env := w5; Call.history := Call.history s1 ++ [record];
              Call.lastError := Some (validationDiagnostic firstError v);
              Call.log :=
                Call.log s1
                  ++ [PolicyApplied
                        (outputViolation options fn firstError v
                           (Call.history s1 ++ [record]))] |}.
    split; [repeat split|].
    rename H into H'.
    destruct r as [x|[e|v0|m|m|v0]].
    + left. injection H' as <- <-. split; [intros e; discriminate|].
      split; [reflexivity|]. repeat split. apply Hnil.
    + right. exists e. split; [reflexivity | exact H'].
    + left. unfold catchBlock in H'.
      cbn [Call.env Call.history Call.lastError Call.log] in H'.
      destruct (Date_now w5) as [t5 w6]. injection H' as <- <-.
      split; [intros e; discriminate|]. split; [reflexivity|].
      repeat split. apply Hnil.
    + left. unfold catchBlock in H'.
      cbn [Call.env Call.history Call.lastError Call.log] in H'.
      destruct (Date_now w5) as [t5 w6]. injection H' as <- <-.
      split; [intros e; discriminate|]. split; [reflexivity|].
      repeat split. apply Hnil.
    + left. unfold catchBlock in H'.
      cbn [Call.env Call.history Call.lastError Call.log] in H'.
      destruct (Date_now w5) as [t5 w6]. injection H' as <- <-.
      split; [intros e; discriminate|]. split; [reflexivity|].
      repeat split. apply Hnil.
    + left. unfold catchBlock in H'.
      cbn [Call.env Call.history Call.lastError Call.log] in H'.
      destruct (Date_now w5) as [t5 w6]. injection H' as <- <-.
      split; [intros e; discriminate|]. split; [reflexivity|].
      repeat split. apply Hnil.
Qed.

(** The branches of one attempt: the output is accepted; the output is
    rejected; the producer throws. *)
Lemma attemptBody_cases attempt s sig s' :
  attemptBody options fn args outer attempt s = (sig, s') ->
  exists outcome w1 startTime s1,
    producerOutcome options fn args attempt s = (outcome, w1)
    /\ kept s s1 [invocationOf options args attempt s]
    /\ ((exists v record,
            outcome = Returned v
            /\ outputAccepts options v
            /\ sig = Done (Returned v)
            /\ AttemptRecord.attempt record = attempt
            /\ AttemptRecord.diagnostic record = None
            /\ pushed s1 s' record (Call.lastError s) [])
        \/ (exists v outputSchema firstError others,
               outcome = Returned v
               /\ GuardOptions.output options = Some outputSchema
               /\ outputSchema v = ParseFailure firstError others
               /\ outputInvalid options fn args attempt startTime v
                    firstError s1 = (sig, s'))
        \/ (exists error,
               outcome = Threw error
               /\ catchBlock options fn args attempt startTime error s1
                  = (sig, s'))).
Proof.
  rewrite attemptBody_outcome. cbv zeta.
  destruct (producerOutcome options fn args attempt s) as [outcome w2].
  intros H. exists outcome, w2, (fst (Date_now (Call.env s))).
  exists {| Call.env := w2; Call.history := Call.history s;
            Call.lastError := Call.lastError s;
            Call.log := Call.log s ++ [invocationOf options args attempt s] |}.
  split; [reflexivity|]. split; [repeat split|].
  set (s1 := {| Call.env := w2; Call.history := Call.history s;
                Call.lastError := Call.lastError s;
                Call.log := Call.log s
                              ++ [invocationOf options args attempt s] |})
    in *.
  assert (Hl : Call.lastError s1 = Call.lastError s) by reflexivity.
  assert (Hsucceed : forall v,
             outputAccepts options v ->
             succeed attempt (fst (Date_now (Call.env s))) v s1 = (sig, s') ->
             exists record,
               outputAccepts options v
               /\ sig = Done (Returned v)
               /\ AttemptRecord.attempt record = attempt
               /\ AttemptRecord.diagnostic record = None
               /\ pushed s1 s' record (Call.lastError s) []).
  { intros v Hacc H0. unfold succeed in H0.
    destruct (Date_now (Call.env s1)) as [stamp v1].
    destruct (Date_now v1) as [t v2].
    injection H0 as <- <-.
    exists {| AttemptRecord.attempt := attempt;
              AttemptRecord.timestamp := stamp;
              AttemptRecord.durationMs := t - fst (Date_now (Call.env s));
              AttemptRecord.diagnostic := None |}.
    split; [exact Hacc|]. repeat split; try exact Hl.
    cbn [Call.log]. symmetry. apply app_nil_r. }
  destruct outcome as [v|error].
  - destruct (GuardOptions.output options) as [outputSchema|] eqn:Hout.
    + destruct (outputSchema v) as [|firstError others] eqn:Hschema.
      * left. exists v.
        assert (Hacc : outputAccepts options v)
          by (unfold outputAccepts; rewrite Hout; exact Hschema).
        destruct (Hsucceed v Hacc H) as (record & Hrec).
        exists record. split; [reflexivity|]. exact Hrec.
      * right. left. exists v, outputSchema, firstError, others.
        repeat split; try assumption.
    + left. exists v.
      assert (Hacc : outputAccepts options v)
        by (unfold outputAccepts; rewrite Hout; exact I).
      destruct (Hsucceed v Hacc H) as (record & Hrec).
      exists record. split; [reflexivity|]. exact Hrec.
  - right. right. exists error. split; [reflexivity | exact H].
Qed.

End AttemptCases.


(* ===================================================================== *)
(** ** Reasoning on the loop *)
(* ===================================================================== *)

Section LoopReasoning.
Context {rt : Runtime}.
Variable options : GuardOptions.t.
Variable fn : Producer.t.
Variable args : list value.
Variable outer : Store.

(** What one attempt adds to the observations: its invocation, then the
    violations the failure policy was applied to, at most two. *)
Lemma attemptBody_log attempt s sig s' :
  attemptBody options fn args outer attempt s = (sig, s') ->
  exists policies,
    Call.log s'
    = Call.log s
        ++ invocationOf options args attempt s :: map PolicyApplied policies
    /\ Forall (loopViolation options fn) policies
    /\ (sig = Continue -> attempt < maxAttemptsOf options).
Proof.
  intros H.
  assert (Hcatch : forall startTime error s1 policies1,
             Call.log s1
             = Call.log s
                 ++ invocationOf options args attempt s
                    :: map PolicyApplied policies1 ->
             Forall (loopViolation options fn) policies1 ->
             catchBlock options fn args attempt startTime error s1 = (sig, s') ->
             exists policies,
               Call.log s'
               = Call.log s
                   ++ invocationOf options args attempt s
                      :: map PolicyApplied policies
               /\ Forall (loopViolation options fn) policies
               /\ (sig = Continue -> attempt < maxAttemptsOf options)).
  { intros startTime error s1 policies1 Hs1 Hp1 Hc.
    destruct (catchBlock_cases _ _ _ _ _ _ _ Hc)
      as [(_ & -> & _ & _ & Hlog)
         | (e & record & -> & _ & _
            & [(Hlt & _ & -> & _ & _ & Hlog)
              | [(_ & _ & -> & _ & _ & Hlog)
                | (_ & _ & _ & wp & -> & _ & _ & Hlog)]])].
    - exists policies1. rewrite Hlog, Hs1, app_nil_r.
      repeat split; [assumption | discriminate].
    - exists policies1. rewrite Hlog, Hs1, app_nil_r.
      repeat split; [assumption | intros _; exact Hlt].
    - exists policies1. rewrite Hlog, Hs1, app_nil_r.
      repeat split; [assumption | discriminate].
    - exists (policies1
                ++ [parseViolation options fn e (Call.history s1 ++ [record])]).
      rewrite Hlog, Hs1, map_app, <- app_assoc. simpl.
      repeat split; [|discriminate].
      apply Forall_app. split; [assumption|].
      constructor; [|constructor]. right. eauto. }
  destruct (attemptBody_cases _ _ _ _ _ _ H)
    as (outcome & w1 & startTime & s1 & _ & (_ & _ & Hlog1) & Hcases).
  destruct Hcases
    as [(v & record & _ & _ & -> & _ & _ & _ & _ & Hlog)
       | [(v & outputSchema & firstError & others & _ & _ & _ & Hinvalid)
         | (error & _ & Hc)]].
  - exists []. rewrite Hlog, Hlog1, app_nil_r.
    repeat split; [constructor | discriminate].
  - destruct (outputInvalid_cases _ _ _ _ _ _ _ _ Hinvalid)
      as [(error & _ & Hc)
         | (_ & record & _ & _
            & [(Hlt & _ & -> & _ & _ & Hlog)
              | (_ & wp & s2 & (_ & _ & Hlog2)
                 & [(_ & -> & _ & _ & Hlog) | (e & _ & Hc)])])].
    + apply (Hcatch _ _ _ []) in Hc; [exact Hc | | constructor].
      rewrite Hlog1. reflexivity.
    + exists []. rewrite Hlog, Hlog1, app_nil_r.
      repeat split; [constructor | intros _; exact Hlt].
    + exists [outputViolation options fn firstError v
                (Call.history s1 ++ [record])].
      rewrite Hlog, Hlog2, Hlog1, app_nil_r, <- app_assoc.
      repeat split; [|discriminate].
      constructor; [|constructor]. left. eauto.
    + apply (Hcatch _ _ _
               [outputViolation options fn firstError v
                  (Call.history s1 ++ [record])] ) in Hc.
      * exact Hc.
      * rewrite Hlog2, Hlog1, <- app_assoc. reflexivity.
      * constructor; [|constructor]. left. eauto.
  - apply (Hcatch _ _ _ []) in Hc; [exact Hc | | constructor].
    rewrite Hlog1. reflexivity.
Qed.

(** The loop goes on only after a failure that it recorded: the last
    record of the ledger carries the diagnostic that [lastError] holds. *)
Lemma attemptBody_continue attempt s s' :
  attemptBody options fn args outer attempt s = (Continue, s') ->
  exists record d,
    Call.history s' = removelast (Call.history s') ++ [record]
    /\ (exists more, removelast (Call.history s') = Call.history s ++ more)
    /\ AttemptRecord.attempt record = attempt
    /\ AttemptRecord.diagnostic record = Some d
    /\ Call.lastError s' = Some d.
Proof.
  intros H.
  assert (Hpushed : forall base record d events,
             (exists more, Call.history base = Call.history s ++ more) ->
             AttemptRecord.attempt record = attempt ->
             AttemptRecord.diagnostic record = Some d ->
             pushed base s' record (Some d) events ->
             exists record d,
               Call.history s' = removelast (Call.history s') ++ [record]
               /\ (exists more,
                      removelast (Call.history s') = Call.history s ++ more)
               /\ AttemptRecord.attempt record = attempt
               /\ AttemptRecord.diagnostic record = Some d
               /\ Call.lastError s' = Some d).
  { intros base record d events [more Hbase] Ha Hd (Hh & Hl & _).
    exists record, d. rewrite Hh, removelast_last.
    repeat split; try assumption. exists more. exact Hbase. }
  assert (Hcatch : forall startTime error base,
             (exists more, Call.history base = Call.history s ++ more) ->
             catchBlock options fn args attempt startTime error base
             = (Continue, s') ->
             exists record d,
               Call.history s' = removelast (Call.history s') ++ [record]
               /\ (exists more,
                      removelast (Call.history s') = Call.history s ++ more)
               /\ AttemptRecord.attempt record = attempt
               /\ AttemptRecord.diagnostic record = Some d
               /\ Call.lastError s' = Some d).
  { intros startTime error base Hbase Hc.
    destruct (catchBlock_cases _ _ _ _ _ _ _ Hc)
      as [(_ & Hsig & _)
         | (e & record & _ & Ha & Hd
            & [(_ & _ & _ & Hp)
              | [(_ & _ & Hsig & _) | (_ & _ & _ & wp & Hsig & _)]])];
      try discriminate Hsig.
    exact (Hpushed _ _ _ _ Hbase Ha Hd Hp). }
  destruct (attemptBody_cases _ _ _ _ _ _ H)
    as (outcome & w1 & startTime & s1 & _ & (Hh1 & _ & _) & Hcases).
  assert (Hbase1 : exists more, Call.history s1 = Call.history s ++ more)
    by (exists []; rewrite Hh1, app_nil_r; reflexivity).
  destruct Hcases
    as [(v & record & _ & _ & Hsig & _)
       | [(v & outputSchema & firstError & others & _ & _ & _ & Hinvalid)
         | (error & _ & Hc)]].
  - discriminate Hsig.
  - destruct (outputInvalid_cases _ _ _ _ _ _ _ _ Hinvalid)
      as [(error & _ & Hc)
         | (_ & record & Ha & Hd
            & [(_ & _ & _ & Hp)
              | (_ & wp & s2 & (Hh2 & _ & _)
                 & [(_ & Hsig & _) | (e & _ & Hc)])])].
    + eapply Hcatch; [exact Hbase1 | exact Hc].
    + exact (Hpushed _ _ _ _ Hbase1 Ha Hd Hp).
    + discriminate Hsig.
    + eapply Hcatch; [|exact Hc].
      exists [record]. rewrite Hh2, Hh1. reflexivity.
  - eapply Hcatch; [exact Hbase1 | exact Hc].
Qed.

(** Induction on the loop: what holds when an attempt starts and is kept
    by an attempt that lets the loop go on, gives what holds when the
    call completes. *)
Lemma attemptLoop_invariant
    (P : Z -> Call.t -> Prop) (Q : completion value -> Call.t -> Prop) :
  (forall attempt s s',
      P attempt s -> attempt <= maxAttemptsOf options ->
      attemptBody options fn args outer attempt s = (Continue, s') ->
      P (attempt + 1) s') ->
  (forall attempt s r s',
      P attempt s -> attempt <= maxAttemptsOf options ->
      attemptBody options fn args outer attempt s = (Done r, s') ->
      Q r s') ->
  (forall attempt s,
      P attempt s -> maxAttemptsOf options < attempt ->
      Q (Threw (ThrownError (lit "Unexpected end of retry loop"))) s) ->
  forall fuel attempt s r s',
    P attempt s ->
    attemptLoop options fn args outer fuel attempt s = Some (r, s') ->
    Q r s'.
Proof.
  intros Hstep Hdone Hexit.
  induction fuel as [|fuel IH]; intros attempt s r s' HP H; simpl in H;
    destruct (Z.leb_spec attempt (maxAttemptsOf options)) as [Hle|Hgt];
    try discriminate;
    try (injection H as <- <-; apply (Hexit attempt); assumption).
  destruct (attemptBody options fn args outer attempt s) as [[|r1] s1] eqn:Hb.
  - exact (IH _ _ _ _ (Hstep _ _ _ HP Hle Hb) H).
  - injection H as <- <-. exact (Hdone _ _ _ _ HP Hle Hb).
Qed.

(** The same for a whole call, with the exits through input validation:
    the policy applied to the input violation, or [JSON.stringify]
    throwing while that violation is built. *)
Lemma guarded_invariant
    (P : Z -> Call.t -> Prop) (Q : completion value -> Call.t -> Prop)
    (w : world) :
  P 1 (initialCall w) ->
  (forall attempt s s',
      P attempt s -> attempt <= maxAttemptsOf options ->
      attemptBody options fn args outer attempt s = (Continue, s') ->
      P (attempt + 1) s') ->
  (forall attempt s r s',
      P attempt s -> attempt <= maxAttemptsOf options ->
      attemptBody options fn args outer attempt s = (Done r, s') ->
      Q r s') ->
  (forall attempt s,
      P attempt s -> maxAttemptsOf options < attempt ->
      Q (Threw (ThrownError (lit "Unexpected end of retry loop"))) s) ->
  (forall inputSchema firstError others,
      GuardOptions.input options = Some inputSchema ->
      inputSchema (inputDataOf options args) = ParseFailure firstError others ->
      Q (fst (handleFailure (inputViolation options fn args firstError)
                (inputDataOf options args) (onFailOf options) w))
        {| Call.env :=
             snd (handleFailure (inputViolation options fn args firstError)
                    (inputDataOf options args) (onFailOf options) w);
           Call.history := []; Call.lastError := None;
           Call.log :=
             [PolicyApplied (inputViolation options fn args firstError)] |}) ->
  (forall inputSchema firstError others error,
      GuardOptions.input options = Some inputSchema ->
      inputSchema (inputDataOf options args) = ParseFailure firstError others ->
      JSON_stringify (inputDataOf options args) = Threw error ->
      Q (Threw error) (initialCall w)) ->
  exists r s, guarded options fn args outer w = Some (r, s) /\ Q r s.
Proof.
  intros Hinit Hstep Hdone Hexit Hinput Hthrow.
  destruct (guarded_total options fn args outer w) as (r & s & Hrun).
  exists r, s. split; [exact Hrun|].
  unfold guarded in Hrun.
  assert (Hloop : attemptLoop options fn args outer
                    (Z.to_nat (maxAttemptsOf options)) 1 (initialCall w)
                  = Some (r, s) -> Q r s)
    by (apply attemptLoop_invariant with (P := P); assumption).
  destruct (GuardOptions.input options) as [inputSchema|] eqn:Hin;
    [|exact (Hloop Hrun)].
  destruct (inputSchema (inputDataOf options args))
    as [|firstError others] eqn:Hschema; [exact (Hloop Hrun)|].
  specialize (Hinput inputSchema firstError others eq_refl Hschema).
  specialize (Hthrow inputSchema firstError others).
  unfold inputViolation in Hinput. unfold contextOrThrow in Hrun.
  destruct (JSON_stringify (inputDataOf options args)) as [text|error].
  - destruct (handleFailure _ _ _ w) as [r1 w1].
    injection Hrun as <- <-. exact Hinput.
  - injection Hrun as <- <-. exact (Hthrow error eq_refl Hschema eq_refl).
Qed.

End LoopReasoning.


(* ===================================================================== *)
(** ** Further properties of a guarded call *)
(* ===================================================================== *)

Lemma invocations_policies (policies : list HandoffViolation.t) :
  invocations (map PolicyApplied policies) = [].
Proof. induction policies as [|v l IH]; [reflexivity | exact IH]. Qed.

Lemma violations_policies (policies : list HandoffViolation.t) :
  violations (map PolicyApplied policies) = policies.
Proof.
  induction policies as [|v l IH]; [reflexivity | simpl; f_equal; exact IH].
Qed.

Lemma counting_snoc (l : list Z) (attempt : Z) :
  1 <= attempt ->
  l = map Z.of_nat (seq 1 (Z.to_nat (attempt - 1))) ->
  l ++ [attempt] = map Z.of_nat (seq 1 (Z.to_nat attempt)).
Proof.
  intros Hge ->.
  replace (Z.to_nat attempt) with (S (Z.to_nat (attempt - 1))) by lia.
  rewrite seq_S, map_app. simpl. do 2 f_equal. lia.
Qed.

Lemma formatFeedback_some (d : Diagnostic.t) :
  formatFeedback (Some d) <> None.
Proof. unfold formatFeedback. discriminate. Qed.

Section CallProperties.
Context {rt : Runtime}.
Variable options : GuardOptions.t.
Variable fn : Producer.t.
Variable args : list value.
Variable outer : Store.

Lemma attemptBody_invocations attempt s sig s' :
  attemptBody options fn args outer attempt s = (sig, s') ->
  invocations (Call.log s')
  = invocations (Call.log s) ++ [stateOf options attempt s]
  /\ (sig = Continue -> attempt < maxAttemptsOf options).
Proof.
  intros H. destruct (attemptBody_log _ _ _ _ _ _ H) as (pols & Hlog & _ & Hc).
  split; [|exact Hc].
  rewrite Hlog, invocations_app. simpl. rewrite invocations_policies.
  reflexivity.
Qed.

(** X7 (guard, the attempt loop).  Whatever the producer and the
    policy do, a guarded call completes, and the attempt numbers under
    which it invoked the producer are 1, 2, ..., k in this order, with
    k at most [maxAttempts] (no invocation when [maxAttempts] is below
    1); every state shows the configured [maxAttempts]. *)
Theorem attempts_are_counted_from_one (w : world) :
  exists r s k,
    guarded options fn args outer w = Some (r, s)
    /\ map RetryState.attempt (invocations (Call.log s))
       = map Z.of_nat (seq 1 k)
    /\ Z.of_nat k <= Z.max 0 (maxAttemptsOf options)
    /\ Forall (fun st => RetryState.maxAttempts st = maxAttemptsOf options)
         (invocations (Call.log s)).
Proof.
  pose (P := fun (attempt : Z) (s : Call.t) =>
    1 <= attempt
    /\ attempt - 1 <= Z.max 0 (maxAttemptsOf options)
    /\ map RetryState.attempt (invocations (Call.log s))
       = map Z.of_nat (seq 1 (Z.to_nat (attempt - 1)))
    /\ Forall (fun st => RetryState.maxAttempts st = maxAttemptsOf options)
         (invocations (Call.log s))).
  pose (Q := fun (r : completion value) (s : Call.t) =>
    exists k,
      map RetryState.attempt (invocations (Call.log s))
      = map Z.of_nat (seq 1 k)
      /\ Z.of_nat k <= Z.max 0 (maxAttemptsOf options)
      /\ Forall (fun st => RetryState.maxAttempts st = maxAttemptsOf options)
           (invocations (Call.log s))).
  assert (Hstep : forall attempt s sig s',
             P attempt s -> attempt <= maxAttemptsOf options ->
             attemptBody options fn args outer attempt s = (sig, s') ->
             map RetryState.attempt (invocations (Call.log s'))
             = map Z.of_nat (seq 1 (Z.to_nat attempt))
             /\ Forall (fun st => RetryState.maxAttempts st
                                  = maxAttemptsOf options)
                  (invocations (Call.log s'))
             /\ (sig = Continue -> attempt < maxAttemptsOf options)).
  { intros attempt s sig s' (Hge & _ & Hmap & Hall) Hle Hb.
    destruct (attemptBody_invocations _ _ Hb) as [Hinv Hc].
    rewrite Hinv, map_app. split; [|split; [|exact Hc]].
    - apply counting_snoc; assumption.
    - apply Forall_app. split; [exact Hall|]. repeat constructor. }
  destruct (@guarded_invariant rt options fn args outer P Q w)
    as (r & s & Hrun & k & Hk).
  - unfold P. split; [lia|]. split; [lia|]. split; [reflexivity | constructor].
  - intros attempt s s' HP Hle Hb.
    destruct (Hstep _ _ _ _ HP Hle Hb) as (Hmap & Hall & Hc).
    destruct HP as (Hge & _). specialize (Hc eq_refl).
    unfold P. replace (attempt + 1 - 1) with attempt by lia.
    split; [lia|]. split; [lia|]. split; assumption.
  - intros attempt s r s' HP Hle Hb.
    destruct (Hstep _ _ _ _ HP Hle Hb) as (Hmap & Hall & _).
    destruct HP as (Hge & _).
    exists (Z.to_nat attempt).
    split; [exact Hmap|]. split; [lia | exact Hall].
  - intros attempt s (Hge & Hbound & Hmap & Hall) Hgt.
    exists (Z.to_nat (attempt - 1)).
    split; [exact Hmap|]. split; [lia | exact Hall].
  - intros inputSchema firstError others _ _.
    exists 0%nat. split; [reflexivity|]. split; [lia | constructor].
  - intros inputSchema firstError others error _ _ _.
    exists 0%nat. split; [reflexivity|]. split; [lia | constructor].
  - exists r, s, k. split; assumption.
Qed.

(** X8 (guard, the published state).  In every guarded call, the state
    of the first attempt shows no earlier failure - [isRetry] false,
    [lastError] null, an empty ledger, [feedback()] null - and the state
    of every later attempt shows [isRetry] true and, as [lastError], the
    diagnostic of the last record of its ledger, which [feedback()]
    renders as a text. *)
Theorem published_state_shows_last_failure (w : world) :
  exists r s,
    guarded options fn args outer w = Some (r, s)
    /\ Forall firstOrRetry (invocations (Call.log s)).
Proof.
  pose (P := fun (attempt : Z) (s : Call.t) =>
    1 <= attempt
    /\ ((attempt = 1 /\ Call.history s = [] /\ Call.lastError s = None)
        \/ (1 < attempt
            /\ exists earlier record d,
                 Call.history s = earlier ++ [record]
                 /\ AttemptRecord.diagnostic record = Some d
                 /\ Call.lastError s = Some d))
    /\ Forall firstOrRetry (invocations (Call.log s))).
  assert (Hstep : forall attempt s sig s',
             P attempt s ->
             attemptBody options fn args outer attempt s = (sig, s') ->
             Forall firstOrRetry (invocations (Call.log s'))).
  { intros attempt s sig s' (Hge & Hshape & Hall) Hb.
    destruct (attemptBody_invocations _ _ Hb) as [Hinv _].
    rewrite Hinv. apply Forall_app. split; [exact Hall|].
    constructor; [|constructor].
    destruct Hshape as [(-> & Hh & Hl) | (Hgt & earlier & record & d
                                          & Hh & Hd & Hl)].
    - left. unfold stateOf. cbn. rewrite Hh, Hl. repeat split.
    - right. unfold stateOf.
      cbn [RetryState.attempt RetryState.isRetry RetryState.lastError
           RetryState.history RetryState.feedback].
      split; [exact Hgt|]. split.
      + destruct (Z.ltb_spec 1 attempt); [reflexivity | lia].
      + exists earlier, record, d. rewrite Hl.
        repeat split; try assumption. apply formatFeedback_some. }
  apply (@guarded_invariant rt options fn args outer P
           (fun _ s => Forall firstOrRetry (invocations (Call.log s))) w).
  - split; [lia|]. split; [left; repeat split | constructor].
  - intros attempt s s' HP Hle Hb.
    pose proof (Hstep _ _ _ _ HP Hb) as Hall.
    destruct HP as (Hge & _).
    destruct (attemptBody_continue _ _ _ _ _ _ Hb)
      as (record & d & Hh & _ & _ & Hd & Hl).
    split; [lia|]. split; [|exact Hall].
    right. split; [lia|]. eauto 6.
  - intros attempt s r s' HP _ Hb. exact (Hstep _ _ _ _ HP Hb).
  - intros attempt s (_ & _ & Hall) _. exact Hall.
  - intros inputSchema firstError others _ _. constructor.
  - intros inputSchema firstError others error _ _ _. constructor.
Qed.

End CallProperties.


(* ===================================================================== *)
(** ** What one attempt does to the call *)
(* ===================================================================== *)

Section AttemptProperties.
Context {rt : Runtime}.
Variable options : GuardOptions.t.
Variable fn : Producer.t.
Variable args : list value.
Variable outer : Store.

Lemma violations_invocation (log : list event) (ev : event) :
  (exists st callArgs, ev = Invoked st callArgs) ->
  violations (log ++ [ev]) = violations log.
Proof.
  intros (st & callArgs & ->). rewrite violations_app. simpl.
  apply app_nil_r.
Qed.

(** X9 (guard, lines 141-149).  When the producer returns a value the
    output schema accepts (or there is no output schema), the call
    returns this value at once: one record without diagnostic is pushed
    for the attempt, no later attempt is made, the failure policy is not
    applied and [lastError] stays as it was. *)
Theorem accepted_output_is_returned
    (w : world) (fuel : nat) (attempt : Z) (s : Call.t)
    (v : value) (w1 : world) :
  Attempting options fn args outer w fuel attempt s ->
  attempt <= maxAttemptsOf options ->
  producerOutcome options fn args attempt s = (Returned v, w1) ->
  outputAccepts options v ->
  exists s' record,
    guarded options fn args outer w = Some (Returned v, s')
    /\ Call.history s' = Call.history s ++ [record]
    /\ AttemptRecord.attempt record = attempt
    /\ AttemptRecord.diagnostic record = None
    /\ Call.lastError s' = Call.lastError s
    /\ Call.log s' = Call.log s ++ [invocationOf options args attempt s]
    /\ violations (Call.log s') = violations (Call.log s).
Proof.
  intros Hat Hle Hout Hok.
  rewrite (Attempting_guarded Hat).
  destruct (Attempting_fuel Hat) as [_ Hfuel].
  destruct fuel as [|fuel]; [lia|].
  rewrite attemptLoop_step by assumption.
  rewrite attemptBody_outcome. cbv zeta. rewrite Hout.
  assert (Hv : violations (Call.log s ++ [invocationOf options args attempt s])
               = violations (Call.log s))
    by (apply violations_invocation; unfold invocationOf; eauto).
  unfold outputAccepts in Hok.
  destruct (GuardOptions.output options) as [outputSchema|];
    [rewrite Hok|];
    unfold succeed; cbn [Call.env Call.history Call.lastError Call.log];
    destruct (Date_now w1) as [stamp w2]; destruct (Date_now w2) as [t w3];
    (eexists; eexists; split; [reflexivity|];
     cbn [Call.history Call.lastError Call.log AttemptRecord.attempt
          AttemptRecord.diagnostic];
     split; [reflexivity|]; split; [reflexivity|]; split; [reflexivity|];
     split; [reflexivity|]; split; [reflexivity | exact Hv]).
Qed.

(** X10 (guard, lines 78 and 200).  With [maxAttempts] zero or negative
    and an input that passes, the loop body never runs: the producer is
    not invoked, nothing is recorded, the policy is not applied, and the
    call throws [Error('Unexpected end of retry loop')]. *)
Theorem no_attempt_without_budget (w : world) :
  maxAttemptsOf options <= 0 ->
  inputAccepted options args ->
  guarded options fn args outer w
  = Some (Threw (ThrownError (lit "Unexpected end of retry loop")),
          initialCall w).
Proof.
  intros Hmax Hin.
  rewrite (Attempting_guarded (Attempting_first fn outer w Hin)).
  destruct (Z.to_nat (maxAttemptsOf options)) as [|fuel]; simpl;
    destruct (Z.leb_spec 1 (maxAttemptsOf options)); try lia; reflexivity.
Qed.

(** X11 (guard, lines 101-123).  When the output schema rejects the
    returned value on an attempt that is not the last, [JSON.stringify]
    renders that value (it does not throw on it), and validation
    failures are retried, the call goes on to the next attempt: a record
    with the validation diagnostic is pushed, the policy is not applied,
    and the state of the next attempt shows this diagnostic as
    [lastError], with [isRetry] true and the ledger so far. *)
Theorem rejected_output_is_retried
    (w : world) (fuel : nat) (attempt : Z) (s : Call.t)
    (v : value) (w1 : world) (outputSchema : ZodType)
    (firstError : ZodIssue.t) (others : list ZodIssue.t) :
  Attempting options fn args outer w fuel attempt s ->
  attempt < maxAttemptsOf options ->
  includes (retryOnOf options) validation = true ->
  producerOutcome options fn args attempt s = (Returned v, w1) ->
  GuardOptions.output options = Some outputSchema ->
  outputSchema v = ParseFailure firstError others ->
  serialisable v ->
  exists s' record,
    Attempting options fn args outer w (Nat.pred fuel) (attempt + 1) s'
    /\ Call.history s' = Call.history s ++ [record]
    /\ AttemptRecord.attempt record = attempt
    /\ AttemptRecord.diagnostic record
       = Some (validationDiagnostic firstError v)
    /\ Call.log s' = Call.log s ++ [invocationOf options args attempt s]
    /\ RetryState.isRetry (stateOf options (attempt + 1) s') = true
    /\ RetryState.lastError (stateOf options (attempt + 1) s')
       = Some (validationDiagnostic firstError v)
    /\ RetryState.history (stateOf options (attempt + 1) s')
       = Call.history s ++ [record]
    /\ RetryState.feedback (stateOf options (attempt + 1) s') tt
       = formatFeedback (Some (validationDiagnostic firstError v)).
Proof.
  intros Hat Hlt Hin Hout Hschema Hrej [text Hs].
  destruct (Attempting_fuel Hat) as [Hge Hfuel].
  destruct fuel as [|fuel]; [lia|].
  destruct (attemptBody options fn args outer attempt s) as [sig s'] eqn:Hb.
  pose proof Hb as Hb'.
  rewrite attemptBody_outcome in Hb'. cbv zeta in Hb'.
  rewrite Hout, Hschema, Hrej in Hb'.
  destruct (outputInvalid_cases _ _ _ _ _ _ _ _ Hb')
    as [(error & Hthrows & _)
       | (_ & record & Hnum & Hdiag & [(_ & _ & -> & Hh & Hl & Hlog)
                                      | ([Hge' | Hno] & _)])];
    [congruence | | lia | congruence].
  cbn [Call.history Call.lastError Call.log] in Hh, Hl, Hlog.
  exists s', record. split.
  { apply (Attempting_next Hat); [lia | exact Hb]. }
  unfold stateOf.
  cbn [RetryState.isRetry RetryState.lastError RetryState.history
       RetryState.feedback].
  rewrite Hh, Hl, Hlog, app_nil_r.
  repeat split; try assumption.
  destruct (Z.ltb_spec 1 (attempt + 1)); [reflexivity | lia].
Qed.

(** X12 (guard, lines 151-178).  When the producer throws a
    [ParseError] on an attempt that is not the last, and parse failures
    are retried, the error is swallowed and the call goes on to the next
    attempt: a record with the parse diagnostic (the raw output cut to
    500 code units) is pushed, the policy is not applied, and the state
    of the next attempt shows this diagnostic as [lastError]. *)
Theorem parse_failure_is_retried
    (w : world) (fuel : nat) (attempt : Z) (s : Call.t)
    (e : ParseError.t) (w1 : world) :
  Attempting options fn args outer w fuel attempt s ->
  attempt < maxAttemptsOf options ->
  includes (retryOnOf options) parse = true ->
  producerOutcome options fn args attempt s
    = (Threw (ThrownParseError e), w1) ->
  exists s' record,
    Attempting options fn args outer w (Nat.pred fuel) (attempt + 1) s'
    /\ Call.history s' = Call.history s ++ [record]
    /\ AttemptRecord.attempt record = attempt
    /\ AttemptRecord.diagnostic record = Some (parseDiagnostic e)
    /\ Diagnostic.rawOutput (parseDiagnostic e)
       = Some (slice_to 500 (ParseError.rawOutput e))
    /\ Call.log s' = Call.log s ++ [invocationOf options args attempt s]
    /\ RetryState.isRetry (stateOf options (attempt + 1) s') = true
    /\ RetryState.lastError (stateOf options (attempt + 1) s')
       = Some (parseDiagnostic e)
    /\ RetryState.history (stateOf options (attempt + 1) s')
       = Call.history s ++ [record]
    /\ RetryState.feedback (stateOf options (attempt + 1) s') tt
       = formatFeedback (Some (parseDiagnostic e)).
Proof.
  intros Hat Hlt Hin Hout.
  destruct (Attempting_fuel Hat) as [Hge Hfuel].
  destruct fuel as [|fuel]; [lia|].
  destruct (attemptBody options fn args outer attempt s) as [sig s'] eqn:Hb.
  pose proof Hb as Hb'.
  rewrite attemptBody_outcome in Hb'. cbv zeta in Hb'.
  rewrite Hout in Hb'.
  apply catchBlock_cases in Hb'.
  destruct Hb'
    as [(Hnp & _) | (e' & record & He & Hnum & Hdiag & Hcases)];
    [exfalso; exact (Hnp e eq_refl)|].
  injection He as <-.
  destruct Hcases as [(_ & _ & -> & Hh & Hl & Hlog)
                     | [([Hge' | Hno] & _) | (Hge' & _)]];
    [| lia | congruence | lia].
  cbn [Call.history Call.lastError Call.log] in Hh, Hl, Hlog.
  exists s', record. split.
  { apply (Attempting_next Hat); [lia | exact Hb]. }
  unfold stateOf.
  cbn [RetryState.isRetry RetryState.lastError RetryState.history
       RetryState.feedback].
  rewrite Hh, Hl, Hlog, app_nil_r.
  repeat split; try assumption.
  destruct (Z.ltb_spec 1 (attempt + 1)); [reflexivity | lia].
Qed.

End AttemptProperties.


(* ===================================================================== *)
(** ** The outcome of a call whose policy throws no ParseError *)
(* ===================================================================== *)

Lemma new_history (context : ViolationContext.t)
    (ledger : list AttemptRecord.t) :
  HandoffViolation.history (HandoffViolation.new context (Some ledger))
  = ledger.
Proof. reflexivity. Qed.

Lemma new_totalAttempts (context : ViolationContext.t)
    (history : option (list AttemptRecord.t)) :
  HandoffViolation.totalAttempts (HandoffViolation.new context history)
  = Z.max 1
      (Z.of_nat
         (length (HandoffViolation.history
                    (HandoffViolation.new context history)))).
Proof.
  unfold HandoffViolation.new.
  cbn [HandoffViolation.totalAttempts HandoffViolation.history].
  destruct (Z.eqb_spec
              (Z.of_nat (length match history with
                                | Some h => h
                                | None => []
                                end)) 0); lia.
Qed.

Lemma counted_numbered (ledger : list AttemptRecord.t) (n : nat) :
  map AttemptRecord.attempt ledger = map Z.of_nat (seq 1 n) ->
  length ledger = n /\ numbered ledger.
Proof.
  intros H.
  assert (Hlen : length ledger = n).
  { apply (f_equal (@length Z)) in H.
    rewrite !length_map, length_seq in H. exact H. }
  split; [exact Hlen|]. unfold numbered. rewrite Hlen. exact H.
Qed.

Section QuietPolicy.
Context {rt : Runtime}.
Variable options : GuardOptions.t.
Variable fn : Producer.t.
Variable args : list value.
Variable outer : Store.

Lemma isAction_quiet :
  isAction (onFailOf options) = true ->
  policyThrowsNoParseError options args.
Proof.
  intros Hact violation w e.
  destruct (onFailOf options); simpl; try discriminate.
Qed.

Lemma policyRaises_quiet :
  policyRaises options -> policyThrowsNoParseError options args.
Proof.
  intros [H | H]; apply isAction_quiet; rewrite H; reflexivity.
Qed.

Lemma loopViolation_output (v : HandoffViolation.t) :
  loopViolation options fn v ->
  ViolationContext.contractType (HandoffViolation.context v)
  = output_contract
  /\ HandoffViolation.totalAttempts v
     = Z.max 1 (Z.of_nat (length (HandoffViolation.history v))).
Proof.
  intros [(firstError & result & ledger & ->) | (e & ledger & ->)];
    (split; [reflexivity | apply new_totalAttempts]).
Qed.

(** The four ways an attempt ends when the policy throws no
    [ParseError]: the output is accepted; the failure is recorded and
    retried; an error leaves the call; the policy is applied. *)
Lemma attemptBody_quiet attempt s sig s' :
  policyThrowsNoParseError options args ->
  attemptBody options fn args outer attempt s = (sig, s') ->
  (exists v record,
      sig = Done (Returned v)
      /\ outputAccepts options v
      /\ Call.history s' = Call.history s ++ [record]
      /\ AttemptRecord.attempt record = attempt
      /\ AttemptRecord.diagnostic record = None
      /\ violations (Call.log s') = violations (Call.log s))
  \/ (exists record,
         sig = Continue
         /\ attempt < maxAttemptsOf options
         /\ Call.history s' = Call.history s ++ [record]
         /\ AttemptRecord.attempt record = attempt
         /\ failed record
         /\ violations (Call.log s') = violations (Call.log s))
  \/ (exists error,
         sig = Done (Threw error)
         /\ violations (Call.log s') = violations (Call.log s)
         /\ (Call.history s' = Call.history s
             \/ exists record,
                  Call.history s' = Call.history s ++ [record]
                  /\ AttemptRecord.attempt record = attempt
                  /\ failed record))
  \/ (exists violation wp record,
         sig = Done (fst (handleFailure violation (inputDataOf options args)
                            (onFailOf options) wp))
         /\ loopViolation options fn violation
         /\ HandoffViolation.history violation = Call.history s'
         /\ Call.history s' = Call.history s ++ [record]
         /\ AttemptRecord.attempt record = attempt
         /\ failed record
         /\ violations (Call.log s') = violations (Call.log s) ++ [violation]).
Proof.
  intros Hq Hb. apply attemptBody_cases in Hb.
  destruct Hb as (outcome & w1 & startTime & s1 & Hout
                  & (Hh1 & Hl1 & Hlog1) & Hcases).
  assert (Hv1 : violations (Call.log s1) = violations (Call.log s)).
  { rewrite Hlog1, violations_app. unfold invocationOf. simpl.
    apply app_nil_r. }
  assert (Hfail : forall record d,
             AttemptRecord.diagnostic record = Some d -> failed record).
  { intros record d H. unfold failed. rewrite H. discriminate. }
  assert (Hthrown : forall error,
             catchBlock options fn args attempt startTime error s1
             = (sig, s') ->
             (exists v record,
                 sig = Done (Returned v)
                 /\ outputAccepts options v
                 /\ Call.history s' = Call.history s ++ [record]
                 /\ AttemptRecord.attempt record = attempt
                 /\ AttemptRecord.diagnostic record = None
                 /\ violations (Call.log s') = violations (Call.log s))
             \/ (exists record,
                    sig = Continue
                    /\ attempt < maxAttemptsOf options
                    /\ Call.history s' = Call.history s ++ [record]
                    /\ AttemptRecord.attempt record = attempt
                    /\ failed record
                    /\ violations (Call.log s') = violations (Call.log s))
             \/ (exists error,
                    sig = Done (Threw error)
                    /\ violations (Call.log s') = violations (Call.log s)
                    /\ (Call.history s' = Call.history s
                        \/ exists record,
                             Call.history s' = Call.history s ++ [record]
                             /\ AttemptRecord.attempt record = attempt
                             /\ failed record))
             \/ (exists violation wp record,
                    sig = Done (fst (handleFailure violation
                                       (inputDataOf options args)
                                       (onFailOf options) wp))
                    /\ loopViolation options fn violation
                    /\ HandoffViolation.history violation = Call.history s'
                    /\ Call.history s' = Call.history s ++ [record]
                    /\ AttemptRecord.attempt record = attempt
                    /\ failed record
                    /\ violations (Call.log s')
                       = violations (Call.log s) ++ [violation])).
  { intros error Hcatch.
    apply catchBlock_cases in Hcatch.
    destruct Hcatch
      as [(Hnp & -> & (Hh & Hl & Hlog))
         | (e & record & -> & Hnum & Hd
            & [(Hlt & Hin & -> & (Hh & Hl & Hlog))
              | [(_ & _ & -> & (Hh & Hl & Hlog))
                | (Hge & Hne & Hin & wp & -> & (Hh & Hl & Hlog))]])].
    + right. right. left. exists error. split; [reflexivity|].
      split; [rewrite Hlog, app_nil_r; exact Hv1|].
      left. rewrite Hh, Hh1. reflexivity.
    + right. left. exists record. split; [reflexivity|].
      split; [exact Hlt|]. split; [rewrite Hh, Hh1; reflexivity|].
      split; [exact Hnum|]. split; [exact (Hfail _ _ Hd)|].
      rewrite Hlog, app_nil_r. exact Hv1.
    + right. right. left. exists (ThrownParseError e).
      split; [reflexivity|].
      split; [rewrite Hlog, app_nil_r; exact Hv1|].
      right. exists record. split; [rewrite Hh, Hh1; reflexivity|].
      split; [exact Hnum | exact (Hfail _ _ Hd)].
    + right. right. right.
      exists (parseViolation options fn e (Call.history s1 ++ [record])),
        wp, record.
      split; [reflexivity|].
      split; [right; eauto|].
      split; [unfold parseViolation; rewrite new_history, Hh; reflexivity|].
      split; [rewrite Hh, Hh1; reflexivity|].
      split; [exact Hnum|]. split; [exact (Hfail _ _ Hd)|].
      rewrite Hlog, violations_app, Hv1. reflexivity. }
  destruct Hcases
    as [(v & record & -> & Hok & -> & Hnum & Hd & (Hh & Hl & Hlog))
       | [(v & outputSchema & firstError & others & -> & Hschema & Hrej
           & Hinv)
         | (error & -> & Hcatch)]];
    [| | exact (Hthrown _ Hcatch)].
  - left. exists v, record. split; [reflexivity|]. split; [exact Hok|].
    split; [rewrite Hh, Hh1; reflexivity|]. split; [exact Hnum|].
    split; [exact Hd|]. rewrite Hlog, app_nil_r. exact Hv1.
  - apply outputInvalid_cases in Hinv.
    destruct Hinv
      as [(error & _ & Hc)
         | (_ & record & Hnum & Hd
            & [(Hlt & Hin & -> & (Hh & Hl & Hlog))
              | (Hterm & wp & s2 & (Hh2 & Hl2 & Hlog2)
                 & [(Hnp & -> & (Hh & Hl & Hlog)) | (e & He & Hc)])])];
      [exact (Hthrown _ Hc) | | |].
    + right. left. exists record. split; [reflexivity|].
      split; [exact Hlt|]. split; [rewrite Hh, Hh1; reflexivity|].
      split; [exact Hnum|]. split; [exact (Hfail _ _ Hd)|].
      rewrite Hlog, app_nil_r. exact Hv1.
    + right. right. right.
      exists (outputViolation options fn firstError v
                (Call.history s1 ++ [record])), wp, record.
      split; [reflexivity|].
      split; [left; eauto|].
      split; [unfold outputViolation; rewrite new_history, Hh, Hh2;
              reflexivity|].
      split; [rewrite Hh, Hh2, Hh1; reflexivity|].
      split; [exact Hnum|]. split; [exact (Hfail _ _ Hd)|].
      rewrite Hlog, app_nil_r, Hlog2, violations_app, Hv1. reflexivity.
    + exfalso. exact (Hq _ _ _ He).
Qed.

(** X13 (guard and handleFailure).  In a call whose failure policy
    throws no [ParseError] (every named action; a handler that does
    not), the policy is applied at most once, and then what it returns
    or throws is what the call returns or throws.  The violation it is
    given carries the whole ledger of the call, one record per producer
    invocation, numbered from 1; an input violation has an empty ledger
    and no invocation.  When the policy is not applied, a returned value
    is one the output schema accepts. *)
Theorem policy_decides_the_outcome (w : world) :
  policyThrowsNoParseError options args ->
  exists r s,
    guarded options fn args outer w = Some (r, s)
    /\ numbered (Call.history s)
    /\ (length (Call.history s) <= length (invocations (Call.log s)))%nat
    /\ ((violations (Call.log s) = []
         /\ forall v, r = Returned v -> outputAccepts options v)
        \/ exists violation wp,
             violations (Call.log s) = [violation]
             /\ r = fst (handleFailure violation (inputDataOf options args)
                           (onFailOf options) wp)
             /\ HandoffViolation.history violation = Call.history s
             /\ length (Call.history s)
                = length (invocations (Call.log s))
             /\ HandoffViolation.totalAttempts violation
                = Z.max 1 (Z.of_nat (length (invocations (Call.log s))))
             /\ ((ViolationContext.contractType
                    (HandoffViolation.context violation) = input_contract
                  /\ invocations (Call.log s) = [])
                 \/ (ViolationContext.contractType
                       (HandoffViolation.context violation) = output_contract
                     /\ invocations (Call.log s) <> []))).
Proof.
  intros Hq.
  pose (P := fun (attempt : Z) (s : Call.t) =>
    1 <= attempt
    /\ violations (Call.log s) = []
    /\ map AttemptRecord.attempt (Call.history s)
       = map Z.of_nat (seq 1 (Z.to_nat (attempt - 1)))
    /\ length (invocations (Call.log s)) = Z.to_nat (attempt - 1)).
  assert (Hinvs : forall attempt s sig s',
             P attempt s ->
             attemptBody options fn args outer attempt s = (sig, s') ->
             length (invocations (Call.log s')) = Z.to_nat attempt
             /\ invocations (Call.log s') <> []).
  { intros attempt s sig s' (Hge & _ & _ & Hlen) Hb.
    destruct (attemptBody_invocations _ _ _ _ _ _ Hb) as [Hinv _].
    rewrite Hinv. split.
    - rewrite length_app, Hlen. simpl. lia.
    - intros Hnil. apply app_eq_nil in Hnil. destruct Hnil; discriminate. }
  apply (@guarded_invariant rt options fn args outer P); unfold P.
  - split; [lia|]. repeat split.
  - intros attempt s s' HP Hle Hb.
    destruct (Hinvs _ _ _ _ HP Hb) as [Hlen' _].
    destruct HP as (Hge & Hvio & Hmap & Hlen).
    replace (attempt + 1 - 1) with attempt by lia.
    pose proof Hb as Hb2. apply attemptBody_quiet in Hb2; [|exact Hq].
    destruct Hb2
      as [(v & record & Hsig & _)
         | [(record & _ & Hlt & Hh & Hnum & _ & Hv)
           | [(error & Hsig & _)
             | (violation & wp & record & Hsig & _)]]];
      try discriminate.
    split; [lia|]. split; [rewrite Hv; exact Hvio|].
    split; [|exact Hlen'].
    rewrite Hh. apply numbered_snoc; assumption.
  - intros attempt s r s' HP Hle Hb.
    destruct (Hinvs _ _ _ _ HP Hb) as [Hlen' Hne].
    destruct HP as (Hge & Hvio & Hmap & Hlen).
    pose proof Hb as Hb2. apply attemptBody_quiet in Hb2; [|exact Hq].
    destruct Hb2
      as [(v & record & Hsig & Hok & Hh & Hnum & _ & Hv)
         | [(record & Hsig & _)
           | [(error & Hsig & Hv & Hhist)
             | (violation & wp & record & Hsig & Hloop & HhV & Hh & Hnum
                & _ & Hv)]]];
      try discriminate; injection Hsig as ->.
    + assert (Hm : map AttemptRecord.attempt (Call.history s')
                   = map Z.of_nat (seq 1 (Z.to_nat attempt)))
        by (rewrite Hh; apply numbered_snoc; assumption).
      destruct (counted_numbered _ _ Hm) as [Hl Hn].
      split; [exact Hn|]. split; [lia|]. left.
      split; [rewrite Hv; exact Hvio|].
      intros v' Hv'. injection Hv' as <-. exact Hok.
    + assert (Hm : exists n, (n <= Z.to_nat attempt)%nat
                   /\ map AttemptRecord.attempt (Call.history s')
                      = map Z.of_nat (seq 1 n)).
      { destruct Hhist as [Hh | (record & Hh & Hnum & _)].
        - exists (Z.to_nat (attempt - 1)). split; [lia|].
          rewrite Hh. exact Hmap.
        - exists (Z.to_nat attempt). split; [lia|].
          rewrite Hh. apply numbered_snoc; assumption. }
      destruct Hm as (n & Hn & Hm).
      destruct (counted_numbered _ _ Hm) as [Hl Hnumd].
      split; [exact Hnumd|]. split; [lia|]. left.
      split; [rewrite Hv; exact Hvio|]. intros v' Hv'. discriminate.
    + assert (Hm : map AttemptRecord.attempt (Call.history s')
                   = map Z.of_nat (seq 1 (Z.to_nat attempt)))
        by (rewrite Hh; apply numbered_snoc; assumption).
      destruct (counted_numbered _ _ Hm) as [Hl Hn].
      destruct (loopViolation_output Hloop) as [Hout Htotal].
      split; [exact Hn|]. split; [lia|]. right.
      exists violation, wp.
      split; [rewrite Hv, Hvio; reflexivity|].
      split; [reflexivity|]. split; [exact HhV|].
      split; [lia|].
      split; [rewrite Htotal, HhV, Hl, Hlen'; reflexivity|].
      right. split; assumption.
  - intros attempt s (Hge & Hvio & Hmap & Hlen) Hgt.
    destruct (counted_numbered _ _ Hmap) as [Hl Hn].
    split; [exact Hn|]. split; [lia|]. left.
    split; [exact Hvio|]. intros v Hv. discriminate.
  - intros inputSchema firstError others _ _.
    cbn [Call.history Call.log]. split; [reflexivity|].
    split; [apply Nat.le_refl|]. right.
    exists (inputViolation options fn args firstError), w.
    split; [reflexivity|]. split; [reflexivity|].
    split; [reflexivity|]. split; [reflexivity|].
    split; [reflexivity|]. left. split; reflexivity.
  - intros inputSchema firstError others error _ _ _.
    cbn [initialCall Call.history Call.log]. split; [reflexivity|].
    split; [apply Nat.le_refl|]. left.
    split; [reflexivity|]. intros v Hv. discriminate.
Qed.

(** X14 (guard with the policy [raise], the default).  When the policy
    is to throw the violation, whatever a call returns is a value of the
    producer that the output schema accepts; and when the policy was
    applied, the call throws that violation, carrying the ledger of the
    call. *)
Theorem raising_policy_returns_accepted_output_only (w : world) :
  policyRaises options ->
  exists r s,
    guarded options fn args outer w = Some (r, s)
    /\ (forall v, r = Returned v ->
           outputAccepts options v /\ violations (Call.log s) = [])
    /\ (forall violation,
           In violation (violations (Call.log s)) ->
           r = Threw (ThrownViolation violation)
           /\ violations (Call.log s) = [violation]
           /\ HandoffViolation.history violation = Call.history s).
Proof.
  intros Hraise.
  pose proof (policyRaises_quiet Hraise) as Hq.
  assert (Hthrow : forall violation wp,
             fst (handleFailure violation (inputDataOf options args)
                    (onFailOf options) wp)
             = Threw (ThrownViolation violation)).
  { intros violation wp. destruct Hraise as [-> | ->]; reflexivity. }
  apply (@guarded_invariant rt options fn args outer
           (fun _ s => violations (Call.log s) = [])).
  - reflexivity.
  - intros attempt s s' Hvio Hle Hb.
    pose proof Hb as Hb2. apply attemptBody_quiet in Hb2; [|exact Hq].
    destruct Hb2
      as [(v & record & Hsig & _)
         | [(record & _ & _ & _ & _ & _ & Hv)
           | [(error & Hsig & _)
             | (violation & wp & record & Hsig & _)]]];
      try discriminate.
    rewrite Hv. exact Hvio.
  - intros attempt s r s' Hvio Hle Hb.
    pose proof Hb as Hb2. apply attemptBody_quiet in Hb2; [|exact Hq].
    destruct Hb2
      as [(v & record & Hsig & Hok & _ & _ & _ & Hv)
         | [(record & Hsig & _)
           | [(error & Hsig & Hv & _)
             | (violation & wp & record & Hsig & _ & HhV & _ & _ & _ & Hv)]]];
      try discriminate; injection Hsig as ->.
    + split.
      * intros v' Hv'. injection Hv' as <-.
        split; [exact Hok | rewrite Hv; exact Hvio].
      * rewrite Hv, Hvio. intros violation [].
    + split; [intros v Hr; discriminate|].
      rewrite Hv, Hvio. intros violation [].
    + rewrite Hthrow, Hv, Hvio. split; [intros v Hr; discriminate|].
      intros violation' [<- | []]. repeat split. exact HhV.
  - intros attempt s Hvio Hgt. split; [intros v Hr; discriminate|].
    rewrite Hvio. intros violation [].
  - intros inputSchema firstError others _ _.
    rewrite Hthrow. cbn [Call.log Call.history violations].
    split; [intros v Hr; discriminate|].
    intros violation [<- | []]. repeat split.
  - intros inputSchema firstError others error _ _ _.
    split; [intros v Hr; discriminate|]. intros violation [].
Qed.

End QuietPolicy.


(* ===================================================================== *)
(** ** The violations and the ledger of any call *)
(* ===================================================================== *)

Lemma orElse_nonempty (a b : jsstring) : b <> [] -> orElse a b <> [].
Proof.
  intros Hb. unfold orElse. destruct a as [|c a]; simpl; [exact Hb|].
  discriminate.
Qed.

Section LedgerProperties.
Context {rt : Runtime}.
Variable options : GuardOptions.t.
Variable fn : Producer.t.
Variable args : list value.
Variable outer : Store.

Lemma schemaContext_received contractType firstError subject :
  (length (ViolationContext.received
             (schemaContext options fn contractType firstError subject))
   <= 200)%nat.
Proof.
  unfold schemaContext. cbn [ViolationContext.received].
  destruct (JSON_stringify subject) as [[text|]|error].
  - apply slice_to_length.
  - simpl. lia.
  - simpl. lia.
Qed.

Lemma schemaContext_fieldPath contractType firstError subject :
  ViolationContext.fieldPath
    (schemaContext options fn contractType firstError subject) <> [].
Proof.
  unfold schemaContext. cbn [ViolationContext.fieldPath].
  apply orElse_nonempty. discriminate.
Qed.

Lemma loopViolation_wellFormed (v : HandoffViolation.t) :
  loopViolation options fn v -> violationWellFormed options fn v.
Proof.
  intros [(firstError & result & ledger & ->) | (e & ledger & ->)];
    unfold violationWellFormed.
  - split; [reflexivity|]. split; [reflexivity|]. split; [reflexivity|].
    split; [apply schemaContext_fieldPath|].
    split; [apply schemaContext_received|].
    split; [reflexivity|]. intros H. discriminate.
  - split; [reflexivity|]. split; [reflexivity|]. split; [reflexivity|].
    split; [discriminate|].
    split; [apply slice_to_length|].
    split; [reflexivity|]. intros H. discriminate.
Qed.

Lemma inputViolation_wellFormed (firstError : ZodIssue.t) :
  violationWellFormed options fn (inputViolation options fn args firstError).
Proof.
  unfold violationWellFormed.
  split; [reflexivity|]. split; [reflexivity|]. split; [reflexivity|].
  split; [apply schemaContext_fieldPath|].
  split; [apply schemaContext_received|].
  split; [reflexivity|]. intros _. reflexivity.
Qed.

(** X15 (guard, the three places that build a violation).  Every
    violation a call hands to its failure policy names the resolved node
    ([nodeName], else the name of the producer) at top level and in its
    context, repeats the field path of its context, which is never
    empty, shows at most 200 code units of what was received, has the
    message [Validation failed at '<node>': <expected>], and has an
    empty ledger when it is an input violation. *)
Theorem violations_are_well_formed (w : world) :
  exists r s,
    guarded options fn args outer w = Some (r, s)
    /\ Forall (violationWellFormed options fn) (violations (Call.log s)).
Proof.
  assert (Hstep : forall attempt s sig s',
             Forall (violationWellFormed options fn)
               (violations (Call.log s)) ->
             attemptBody options fn args outer attempt s = (sig, s') ->
             Forall (violationWellFormed options fn)
               (violations (Call.log s'))).
  { intros attempt s sig s' Hall Hb. apply attemptBody_log in Hb.
    destruct Hb as (policies & Hlog & Hloop & _).
    rewrite Hlog, violations_app. apply Forall_app. split; [exact Hall|].
    unfold invocationOf. simpl. rewrite violations_policies.
    eapply Forall_impl; [|exact Hloop].
    intros v Hv. apply loopViolation_wellFormed. exact Hv. }
  apply (@guarded_invariant rt options fn args outer
           (fun _ s => Forall (violationWellFormed options fn)
                         (violations (Call.log s)))).
  - constructor.
  - intros attempt s s' HP _ Hb. exact (Hstep _ _ _ _ HP Hb).
  - intros attempt s r s' HP _ Hb. exact (Hstep _ _ _ _ HP Hb).
  - intros attempt s HP _. exact HP.
  - intros inputSchema firstError others _ _.
    cbn [Call.log violations]. constructor; [|constructor].
    apply inputViolation_wellFormed.
  - intros inputSchema firstError others error _ _ _. constructor.
Qed.

Lemma catchBlock_failed attempt startTime error s sig s' :
  catchBlock options fn args attempt startTime error s = (sig, s') ->
  exists recs pols,
    Call.history s' = Call.history s ++ recs
    /\ Forall failed recs
    /\ violations (Call.log s') = violations (Call.log s) ++ pols
    /\ Forall (fun v => HandoffViolation.history v = Call.history s') pols.
Proof.
  intros Hc. apply catchBlock_cases in Hc.
  assert (Hfail : forall record d,
             AttemptRecord.diagnostic record = Some d -> failed record).
  { intros record d H. unfold failed. rewrite H. discriminate. }
  destruct Hc
    as [(Hnp & -> & (Hh & Hl & Hlog))
       | (e & record & -> & Hnum & Hd
          & [(Hlt & Hin & -> & (Hh & Hl & Hlog))
            | [(_ & _ & -> & (Hh & Hl & Hlog))
              | (Hge & Hne & Hin & wp & -> & (Hh & Hl & Hlog))]])].
  - exists [], []. rewrite Hh, Hlog, !app_nil_r.
    split; [reflexivity|]. split; [constructor|].
    split; [reflexivity | constructor].
  - exists [record], []. rewrite Hh, Hlog, !app_nil_r.
    split; [reflexivity|].
    split; [constructor; [exact (Hfail _ _ Hd) | constructor]|].
    split; [reflexivity | constructor].
  - exists [record], []. rewrite Hh, Hlog, !app_nil_r.
    split; [reflexivity|].
    split; [constructor; [exact (Hfail _ _ Hd) | constructor]|].
    split; [reflexivity | constructor].
  - exists [record],
      [parseViolation options fn e (Call.history s ++ [record])].
    rewrite Hh, Hlog, violations_app.
    split; [reflexivity|].
    split; [constructor; [exact (Hfail _ _ Hd) | constructor]|].
    split; [reflexivity|]. constructor; [|constructor].
    unfold parseViolation. apply new_history.
Qed.

(** An attempt either ends the call with an accepted output, or pushes
    records of failures only. *)
Lemma attemptBody_failed attempt s sig s' :
  attemptBody options fn args outer attempt s = (sig, s') ->
  (exists v record,
      sig = Done (Returned v)
      /\ outputAccepts options v
      /\ Call.history s' = Call.history s ++ [record]
      /\ AttemptRecord.attempt record = attempt
      /\ AttemptRecord.diagnostic record = None
      /\ violations (Call.log s') = violations (Call.log s))
  \/ (exists recs pols,
         Call.history s' = Call.history s ++ recs
         /\ Forall failed recs
         /\ violations (Call.log s') = violations (Call.log s) ++ pols
         /\ Forall (fun v => exists more,
                        Call.history s' = HandoffViolation.history v ++ more)
              pols).
Proof.
  intros Hb. apply attemptBody_cases in Hb.
  destruct Hb as (outcome & w1 & startTime & s1 & Hout
                  & (Hh1 & Hl1 & Hlog1) & Hcases).
  assert (Hv1 : violations (Call.log s1) = violations (Call.log s)).
  { rewrite Hlog1, violations_app. unfold invocationOf. simpl.
    apply app_nil_r. }
  assert (Hfail : forall record d,
             AttemptRecord.diagnostic record = Some d -> failed record).
  { intros record d H. unfold failed. rewrite H. discriminate. }
  assert (Hsame : forall pols : list HandoffViolation.t,
             Forall (fun v => HandoffViolation.history v = Call.history s')
               pols ->
             Forall (fun v => exists more,
                         Call.history s' = HandoffViolation.history v ++ more)
               pols).
  { intros pols Hall. eapply Forall_impl; [|exact Hall].
    intros v Hv. exists []. rewrite Hv, app_nil_r. reflexivity. }
  destruct Hcases
    as [(v & record & -> & Hok & -> & Hnum & Hd & (Hh & Hl & Hlog))
       | [(v & outputSchema & firstError & others & -> & Hschema & Hrej
           & Hinv)
         | (error & -> & Hcatch)]].
  - left. exists v, record. split; [reflexivity|]. split; [exact Hok|].
    split; [rewrite Hh, Hh1; reflexivity|]. split; [exact Hnum|].
    split; [exact Hd|]. rewrite Hlog, app_nil_r. exact Hv1.
  - right. apply outputInvalid_cases in Hinv.
    destruct Hinv
      as [(error & _ & Hc)
         | (_ & record & Hnum & Hd
            & [(Hlt & Hin & -> & (Hh & Hl & Hlog))
              | (Hterm & wp & s2 & (Hh2 & Hl2 & Hlog2)
                 & [(Hnp & -> & (Hh & Hl & Hlog)) | (e & He & Hc)])])].
    + apply catchBlock_failed in Hc.
      destruct Hc as (recs & pols & Hh & Hrecs & Hv & Hpols).
      exists recs, pols. split; [rewrite Hh, Hh1; reflexivity|].
      split; [exact Hrecs|]. split; [rewrite Hv, Hv1; reflexivity|].
      exact (Hsame _ Hpols).
    + exists [record], []. rewrite Hh, Hh1, Hlog, !app_nil_r.
      split; [reflexivity|].
      split; [constructor; [exact (Hfail _ _ Hd) | constructor]|].
      split; [exact Hv1 | constructor].
    + rewrite Hh1 in Hh2, Hlog2.
      exists [record],
        [outputViolation options fn firstError v
           (Call.history s ++ [record])].
      rewrite Hh, Hh2, Hlog, app_nil_r, Hlog2, violations_app, Hv1.
      split; [reflexivity|].
      split; [constructor; [exact (Hfail _ _ Hd) | constructor]|].
      split; [reflexivity|]. constructor; [|constructor].
      exists []. unfold outputViolation.
      rewrite new_history, app_nil_r. reflexivity.
    + rewrite Hh1 in Hh2, Hlog2.
      apply catchBlock_failed in Hc.
      destruct Hc as (recs & pols & Hh & Hrecs & Hv & Hpols).
      exists (record :: recs),
        (outputViolation options fn firstError v
           (Call.history s ++ [record]) :: pols).
      split; [rewrite Hh, Hh2, <- app_assoc; reflexivity|].
      split; [constructor; [exact (Hfail _ _ Hd) | exact Hrecs]|].
      split; [rewrite Hv, Hlog2, violations_app, Hv1, <- app_assoc;
              reflexivity|].
      constructor; [|exact (Hsame _ Hpols)].
      exists recs. unfold outputViolation.
      rewrite new_history, Hh, Hh2. reflexivity.
  - right. apply catchBlock_failed in Hcatch.
    destruct Hcatch as (recs & pols & Hh & Hrecs & Hv & Hpols).
    exists recs, pols. split; [rewrite Hh, Hh1; reflexivity|].
    split; [exact Hrecs|]. split; [rewrite Hv, Hv1; reflexivity|].
    exact (Hsame _ Hpols).
Qed.

(** X16 (guard, the ledger).  In any call, a record without diagnostic
    can only be the last record of the ledger, of a call that returned
    an output its schema accepts; that record bears the number of the
    last attempt.  Every other record, and every record of the ledger of
    a violation, is the record of a failure. *)
Theorem success_record_is_last (w : world) :
  exists r s,
    guarded options fn args outer w = Some (r, s)
    /\ (Forall failed (Call.history s)
        \/ exists earlier record v,
             Call.history s = earlier ++ [record]
             /\ Forall failed earlier
             /\ AttemptRecord.diagnostic record = None
             /\ AttemptRecord.attempt record
                = Z.of_nat (length (invocations (Call.log s)))
             /\ r = Returned v
             /\ outputAccepts options v)
    /\ Forall (fun v => Forall failed (HandoffViolation.history v))
         (violations (Call.log s)).
Proof.
  pose (P := fun (attempt : Z) (s : Call.t) =>
    1 <= attempt
    /\ length (invocations (Call.log s)) = Z.to_nat (attempt - 1)
    /\ Forall failed (Call.history s)
    /\ Forall (fun v => Forall failed (HandoffViolation.history v))
         (violations (Call.log s))).
  assert (Hstep : forall attempt s sig s',
             P attempt s ->
             attemptBody options fn args outer attempt s = (sig, s') ->
             length (invocations (Call.log s')) = Z.to_nat attempt
             /\ ((Forall failed (Call.history s')
                  \/ exists earlier record v,
                       Call.history s' = earlier ++ [record]
                       /\ Forall failed earlier
                       /\ AttemptRecord.diagnostic record = None
                       /\ AttemptRecord.attempt record = attempt
                       /\ sig = Done (Returned v)
                       /\ outputAccepts options v)
                 /\ Forall (fun v => Forall failed (HandoffViolation.history v))
                      (violations (Call.log s')))).
  { intros attempt s sig s' (Hge & Hlen & Hhist & Hvio) Hb.
    split.
    { pose proof Hb as Hb2. apply attemptBody_invocations in Hb2.
      destruct Hb2 as [Hinv _]. rewrite Hinv, length_app, Hlen. simpl. lia. }
    apply attemptBody_failed in Hb.
    destruct Hb as [(v & record & -> & Hok & Hh & Hnum & Hd & Hv)
                   | (recs & pols & Hh & Hrecs & Hv & Hpols)].
    - split; [|rewrite Hv; exact Hvio].
      right. exists (Call.history s), record, v.
      repeat split; assumption.
    - assert (Hall : Forall failed (Call.history s'))
        by (rewrite Hh; apply Forall_app; split; assumption).
      split; [left; exact Hall|].
      rewrite Hv. apply Forall_app. split; [exact Hvio|].
      eapply Forall_impl; [|exact Hpols].
      intros v (more & Hmore). rewrite Hmore in Hall.
      apply Forall_app in Hall. exact (proj1 Hall). }
  apply (@guarded_invariant rt options fn args outer P); unfold P.
  - split; [lia|]. split; [reflexivity|]. split; constructor.
  - intros attempt s s' HP Hle Hb.
    destruct (Hstep _ _ _ _ HP Hb) as (Hlen & Hhist & Hvio).
    destruct HP as (Hge & _).
    replace (attempt + 1 - 1) with attempt by lia.
    split; [lia|]. split; [exact Hlen|]. split; [|exact Hvio].
    destruct Hhist as [Hall | (earlier & record & v & _ & _ & _ & _ & Hsig
                               & _)];
      [exact Hall | discriminate].
  - intros attempt s r s' HP Hle Hb.
    destruct (Hstep _ _ _ _ HP Hb) as (Hlen & Hhist & Hvio).
    destruct HP as (Hge & _).
    split; [|exact Hvio].
    destruct Hhist as [Hall | (earlier & record & v & Hh & Hearlier & Hd
                               & Hnum & Hsig & Hok)];
      [left; exact Hall|].
    right. exists earlier, record, v. injection Hsig as ->.
    split; [exact Hh|]. split; [exact Hearlier|]. split; [exact Hd|].
    split; [rewrite Hlen, Hnum; lia|]. split; [reflexivity | exact Hok].
  - intros attempt s (_ & _ & Hhist & Hvio) _.
    split; [left; exact Hhist | exact Hvio].
  - intros inputSchema firstError others _ _.
    cbn [Call.history Call.log violations].
    split; [left; constructor|]. constructor; [|constructor].
    unfold inputViolation. cbn. constructor.
  - intros inputSchema firstError others error _ _ _.
    split; [left; constructor | constructor].
Qed.

End LedgerProperties.


(* ===================================================================== *)
(** ** Suggestions and the mock state *)
(* ===================================================================== *)

Lemma startsWith_split (p s : jsstring) :
  startsWith s p = true -> s = p ++ skipn (length p) s.
Proof.
  revert s. induction p as [|c p IH]; intros s H.
  - reflexivity.
  - destruct s as [|d s]; simpl in H; [discriminate|].
    apply andb_true_iff in H. destruct H as [Hc Hp].
    apply N.eqb_eq in Hc. subst d. simpl. f_equal. exact (IH _ Hp).
Qed.

Lemma takeWord_split (s : jsstring) :
  Forall (fun c => isWordChar c = true) (takeWord s)
  /\ exists after,
       s = takeWord s ++ after
       /\ match after with
          | [] => True
          | c :: _ => isWordChar c = false
          end.
Proof.
  induction s as [|c s (Hall & after & Hs & Hafter)]; simpl.
  - split; [constructor|]. exists []. split; [reflexivity | exact I].
  - destruct (isWordChar c) eqn:Hc.
    + split; [constructor; assumption|].
      exists after. split; [simpl; f_equal; exact Hs | exact Hafter].
    + split; [constructor|]. exists (c :: s). split; [reflexivity | exact Hc].
Qed.

Lemma matchReceived_step (c : N) (r : jsstring) :
  matchReceived (c :: r)
  = if startsWith (c :: r) (lit "received ")
    then if nonEmpty (takeWord (slice_from 9 (c :: r)))
         then Some (takeWord (slice_from 9 (c :: r)))
         else matchReceived r
    else matchReceived r.
Proof. reflexivity. Qed.

(** X17 (generateSuggestion, the match of [received (\w+)]).  The word
    the suggestion of an [invalid_type] issue quotes after [got] is a
    non-empty run of word characters that follows the text [received ]
    in the message and is not continued by a word character; and no
    word is found only when no [received ] in the message is followed
    by a word character. *)
Theorem matchReceived_finds_a_word (s : jsstring) :
  match matchReceived s with
  | Some w =>
      w <> []
      /\ Forall (fun c => isWordChar c = true) w
      /\ exists before after,
           s = before ++ lit "received " ++ w ++ after
           /\ match after with
              | [] => True
              | c :: _ => isWordChar c = false
              end
  | None =>
      forall before c after,
        s = before ++ lit "received " ++ c :: after ->
        isWordChar c = false
  end.
Proof.
  induction s as [|c r IH].
  - simpl. intros [|b before] c after H; discriminate.
  - rewrite matchReceived_step.
    assert (Hskip : forall before c' after,
               c :: r = before ++ lit "received " ++ c' :: after ->
               before <> [] ->
               exists before',
                 r = before' ++ lit "received " ++ c' :: after).
    { intros [|b before] c' after H Hne; [contradiction|].
      injection H as _ H. exists before. exact H. }
    destruct (startsWith (c :: r) (lit "received ")) eqn:Hstart.
    + apply startsWith_split in Hstart.
      change (skipn (length (lit "received ")) (c :: r))
        with (slice_from 9 (c :: r)) in Hstart.
      destruct (takeWord_split (slice_from 9 (c :: r)))
        as (Hall & after & Hs & Hafter).
      destruct (takeWord (slice_from 9 (c :: r))) as [|w0 w] eqn:Hw;
        cbn [nonEmpty].
      * destruct (matchReceived r) as [w'|].
        -- destruct IH as (Hne & Hall' & before & after' & Hr & Hafter').
           split; [exact Hne|]. split; [exact Hall'|].
           exists (c :: before), after'. split; [|exact Hafter'].
           simpl. f_equal. exact Hr.
        -- intros [|b before] c' after' H.
           ++ rewrite Hstart, app_nil_l in H. apply app_inv_head in H.
              rewrite Hs in H. simpl in H. subst after. exact Hafter.
           ++ injection H as _ H. exact (IH _ _ _ H).
      * split; [discriminate|]. split; [exact Hall|].
        exists [], after. split; [|exact Hafter].
        rewrite Hstart at 1. rewrite Hs at 1. reflexivity.
    + destruct (matchReceived r) as [w'|].
      * destruct IH as (Hne & Hall' & before & after' & Hr & Hafter').
        split; [exact Hne|]. split; [exact Hall'|].
        exists (c :: before), after'. split; [|exact Hafter'].
        simpl. f_equal. exact Hr.
      * intros [|b before] c' after' H.
        -- rewrite H in Hstart.
           change ([] ++ lit "received " ++ c' :: after')
             with (lit "received " ++ c' :: after') in Hstart.
           rewrite startsWith_app in Hstart. discriminate.
        -- injection H as _ H. exact (IH _ _ _ H).
Qed.

Section Suggestions.
Context {rt : Runtime}.

(** X18 (generateSuggestion and the field path).  Every suggestion
    names the field in quotes: the path of the issue joined by dots, or
    [value] when the path is empty, whereas the field path of the
    violation and the field of the diagnostic are [root] for an empty
    path. *)
Theorem suggestion_names_the_field (error : ZodIssue.t) :
  let field := orElse (pathJoin (ZodIssue.path error)) (lit "value") in
  (exists before after,
      generateSuggestion error
      = before ++ lit "'" ++ field ++ lit "'" ++ after)
  /\ field <> []
  /\ (pathJoin (ZodIssue.path error) = [] ->
      field = lit "value"
      /\ forall options fn contractType subject result,
           ViolationContext.fieldPath
             (schemaContext options fn contractType error subject)
           = lit "root"
           /\ Diagnostic.field (validationDiagnostic error result)
              = Some (lit "root")).
Proof.
  cbv zeta. split; [|split].
  - unfold generateSuggestion. cbv zeta.
    set (field := orElse (pathJoin (ZodIssue.path error)) (lit "value")).
    clearbody field.
    destruct (ZodIssue.code error).
    + exists (lit "Increase the length/value of "), [].
      simpl. reflexivity.
    + exists (lit "Decrease the length/value of "), [].
      simpl. reflexivity.
    + destruct (matchReceived (ZodIssue.message error)) as [received|];
        eexists [], _; simpl; reflexivity.
    + eexists [], _. simpl. reflexivity.
    + exists (lit "Fix "). eexists. simpl. reflexivity.
  - apply orElse_nonempty. discriminate.
  - intros Hempty. split.
    + unfold orElse. rewrite Hempty. reflexivity.
    + intros options fn contractType subject result.
      unfold schemaContext, validationDiagnostic, createDiagnostic.
      cbn [ViolationContext.fieldPath Diagnostic.field].
      unfold orElse. rewrite Hempty. split; reflexivity.
Qed.

End Suggestions.

Lemma formatFeedback_bracket (d : Diagnostic.t) :
  exists rest, formatFeedback (Some d) = Some (91%N :: rest).
Proof.
  unfold formatFeedback.
  destruct (Diagnostic.field d) as [[|f0 f]|];
    destruct (Diagnostic.suggestion d) as [[|g0 g]|];
    destruct (Diagnostic.rawOutput d) as [[|r0 r]|]; cbn [nonEmpty app];
    match goal with
    | |- context [join ?sep (?a :: ?b :: ?more)] =>
        destruct (join_two sep a b more) as [tail Ht];
        eexists; f_equal; etransitivity; [exact Ht|]; reflexivity
    end.
Qed.

(** X19 (mockRetry and the retry proxy).  Inside [mockRetry] the proxy
    reads the synthesised state, whatever state was in force outside:
    attempt 2 of 3 by default, an empty ledger, a given [lastError]
    before a [feedbackText], which counts only when it is not empty;
    [feedback()] is null exactly when [lastError] is, and otherwise the
    text [Mock feedback for: <message>], which is never the text the
    guard renders for the same diagnostic. *)
Theorem mockRetry_state (options : MockRetryOptions.t) (outer : Store) :
  let st := mockRetryState options in
  (forall (A : Type) (prop : RetryState.t -> A),
      mockRetry options (fun store => retry store prop) outer = prop st)
  /\ (MockRetryOptions.attempt options = None -> RetryState.attempt st = 2)
  /\ (MockRetryOptions.maxAttempts options = None ->
      RetryState.maxAttempts st = 3)
  /\ RetryState.remaining st
     = RetryState.maxAttempts st - RetryState.attempt st
  /\ RetryState.history st = []
  /\ (forall d, MockRetryOptions.lastError options = Some d ->
         RetryState.lastError st = Some d)
  /\ (MockRetryOptions.lastError options = None ->
      RetryState.lastError st
      = match MockRetryOptions.feedbackText options with
        | Some (c :: text) =>
            Some (Diagnostic.mk validation (c :: text) None None None None
                    None)
        | _ => None
        end)
  /\ (RetryState.feedback st tt = None <-> RetryState.lastError st = None)
  /\ (forall d, RetryState.lastError st = Some d ->
         RetryState.feedback st tt
         = Some (lit "Mock feedback for: " ++ Diagnostic.message d)
         /\ RetryState.feedback st tt <> formatFeedback (Some d)).
Proof.
  cbv zeta. unfold mockRetry, runWithRetryStateAsync, retry, mockRetryState.
  cbn [RetryState.attempt RetryState.maxAttempts RetryState.remaining
       RetryState.history RetryState.lastError RetryState.feedback].
  split; [reflexivity|].
  split; [intros ->; reflexivity|].
  split; [intros ->; reflexivity|].
  split; [reflexivity|]. split; [reflexivity|].
  split; [intros d ->; reflexivity|].
  split.
  { intros ->. destruct (MockRetryOptions.feedbackText options) as [[|c t]|];
      reflexivity. }
  split.
  { destruct (MockRetryOptions.lastError options) as [d|];
      [split; discriminate|].
    destruct (MockRetryOptions.feedbackText options) as [[|c t]|];
      cbn [nonEmpty]; split; try discriminate; reflexivity. }
  intros d Hd. rewrite Hd. split; [reflexivity|].
  destruct (formatFeedback_bracket d) as [rest ->].
  intros H. discriminate.
Qed.

Lemma blank_stripBOM (s : jsstring) : blank s -> blank (stripBOM s).
Proof.
  intros H. destruct s as [|c r]; [exact H|]. simpl.
  destruct (N.eqb c BOM); [|exact H]. inversion H. assumption.
Qed.

Lemma blank_normalizedText (s : jsstring) : blank s -> normalizedText s = [].
Proof.
  intros H. apply blank_stripBOM in H. unfold normalizedText. cbv zeta.
  assert (Ht : trim (stripBOM s) = []).
  { unfold trim.
    rewrite (trimEnd_app_blank [] H : trimEnd (stripBOM s) = trimEnd []).
    reflexivity. }
  rewrite Ht. reflexivity.
Qed.

Section BlankInput.
Context {rt : Runtime}.

(** X20 (parseJson, lines 19-44).  A text of blanks only - the empty
    text, spaces, line breaks, a lone byte-order mark - is never taken
    for JSON: [parseJson] throws a [ParseError] with the message of the
    [SyntaxError] for the empty text and the input itself, unchanged, as
    [rawOutput]. *)
Theorem parseJson_rejects_blank_text (s : jsstring) :
  blank s ->
  parseJson (VStr s)
  = Threw (ThrownParseError
             {| ParseError.message := SyntaxError_message [];
                ParseError.rawOutput := s |}).
Proof.
  intros H. rewrite parseJson_invalid;
    rewrite (blank_normalizedText H); reflexivity.
Qed.

End BlankInput.


(* ===================================================================== *)
(** ** The further properties at closed configurations *)
(* ===================================================================== *)

Lemma scoreOptions_inputAccepted maxAttempts retryOn onFail args :
  inputAccepted (scoreOptions maxAttempts retryOn onFail) args.
Proof. intros inputSchema H. discriminate. Qed.

(** Three attempts allowed, the first returns an object with a score:
    the call returns it after one attempt. *)
Lemma accepted_output_is_returned_witness :
  exists s,
    guarded (scoreOptions (Some 3) None None) (returning scored)
      [testInput] None 0%nat
    = Some (Returned scored, s)
    /\ map AttemptRecord.attempt (Call.history s) = [1]
    /\ violations (Call.log s) = [].
Proof.
  destruct (@accepted_output_is_returned demoRuntime
              (scoreOptions (Some 3) None None) (returning scored)
              [testInput] None 0%nat 3%nat 1
              (initialCall (rt := demoRuntime) 0%nat) scored 2%nat)
    as (s & record & Hrun & Hh & Hnum & _ & _ & _ & Hv).
  - apply (@Attempting_first demoRuntime
             (scoreOptions (Some 3) None None) (returning scored)
             [testInput] None 0%nat).
    apply scoreOptions_inputAccepted.
  - vm_compute. discriminate.
  - reflexivity.
  - reflexivity.
  - exists s. split; [exact Hrun|]. split; [|exact Hv].
    rewrite Hh. simpl. rewrite Hnum. reflexivity.
Defined.

(** [maxAttempts: 0]. *)
Lemma no_attempt_without_budget_witness :
  guarded (scoreOptions (Some 0) None None) (returning scored)
    [testInput] None 0%nat
  = Some (Threw (ThrownError (lit "Unexpected end of retry loop")),
          initialCall (rt := demoRuntime) 0%nat).
Proof.
  apply (@no_attempt_without_budget demoRuntime
           (scoreOptions (Some 0) None None) (returning scored)
           [testInput] None 0%nat).
  - vm_compute. discriminate.
  - apply scoreOptions_inputAccepted.
Defined.

(** Three attempts allowed, the first returns an object without score:
    the second attempt is a retry. *)
Lemma rejected_output_is_retried_witness :
  exists s,
    Attempting (scoreOptions (Some 3) None None) (returning unscored)
      [testInput] None 0%nat 2%nat 2 s
    /\ length (Call.history s) = 1%nat
    /\ RetryState.isRetry (stateOf (scoreOptions (Some 3) None None) 2 s)
       = true.
Proof.
  destruct (@rejected_output_is_retried demoRuntime
              (scoreOptions (Some 3) None None) (returning unscored)
              [testInput] None 0%nat 3%nat 1
              (initialCall (rt := demoRuntime) 0%nat) unscored 2%nat
              requireScore missingScore [])
    as (s & record & Hat & Hh & _ & _ & _ & Hretry & _).
  - apply (@Attempting_first demoRuntime
             (scoreOptions (Some 3) None None) (returning unscored)
             [testInput] None 0%nat).
    apply scoreOptions_inputAccepted.
  - vm_compute. reflexivity.
  - reflexivity.
  - reflexivity.
  - reflexivity.
  - reflexivity.
  - eexists. reflexivity.
  - exists s. split; [exact Hat|]. split; [|exact Hretry].
    rewrite Hh. reflexivity.
Defined.

(** Three attempts allowed, the first throws a [ParseError]. *)
Lemma parse_failure_is_retried_witness :
  exists s,
    Attempting (scoreOptions (Some 3) None None)
      (throwing (ThrownParseError badJson)) [testInput] None 0%nat 2%nat 2 s
    /\ length (Call.history s) = 1%nat
    /\ RetryState.lastError (stateOf (scoreOptions (Some 3) None None) 2 s)
       = Some (parseDiagnostic badJson).
Proof.
  destruct (@parse_failure_is_retried demoRuntime
              (scoreOptions (Some 3) None None)
              (throwing (ThrownParseError badJson))
              [testInput] None 0%nat 3%nat 1
              (initialCall (rt := demoRuntime) 0%nat) badJson 2%nat)
    as (s & record & Hat & Hh & _ & _ & _ & _ & _ & Hlast & _).
  - apply (@Attempting_first demoRuntime
             (scoreOptions (Some 3) None None)
             (throwing (ThrownParseError badJson))
             [testInput] None 0%nat).
    apply scoreOptions_inputAccepted.
  - vm_compute. reflexivity.
  - reflexivity.
  - reflexivity.
  - exists s. split; [exact Hat|]. split; [|exact Hlast].
    rewrite Hh. reflexivity.
Defined.

(** Two attempts, every output rejected, the policy [return_none]. *)
Lemma policy_decides_the_outcome_witness :
  exists r s,
    guarded (demoOptions None 2 None return_none None)
      (returning unscored) [testInput] None 0%nat
    = Some (r, s)
    /\ numbered (Call.history s)
    /\ (length (Call.history s) <= length (invocations (Call.log s)))%nat.
Proof.
  destruct (@policy_decides_the_outcome demoRuntime
              (demoOptions None 2 None return_none None)
              (returning unscored) [testInput] None 0%nat)
    as (r & s & Hrun & Hnum & Hlen & _).
  - apply isAction_quiet. reflexivity.
  - exists r, s. split; [exact Hrun|]. split; [exact Hnum | exact Hlen].
Defined.

(** Two attempts, every output rejected, the policy [raise]. *)
Lemma raising_policy_returns_accepted_output_only_witness :
  exists r s,
    guarded (demoOptions None 2 None raise None)
      (returning unscored) [testInput] None 0%nat
    = Some (r, s)
    /\ forall v, r = Returned v ->
         outputAccepts (demoOptions None 2 None raise None) v
         /\ violations (Call.log s) = [].
Proof.
  destruct (@raising_policy_returns_accepted_output_only demoRuntime
              (demoOptions None 2 None raise None)
              (returning unscored) [testInput] None 0%nat)
    as (r & s & Hrun & Hret & _).
  - left. reflexivity.
  - exists r, s. split; [exact Hrun | exact Hret].
Defined.

(** A byte-order mark, a space and a line feed. *)
Lemma parseJson_rejects_blank_text_witness :
  parseJson (rt := demoRuntime) (VStr [BOM; 32%N; LF])
  = Threw (ThrownParseError
             {| ParseError.message :=
                  SyntaxError_message (Runtime := demoRuntime) [];
                ParseError.rawOutput := [BOM; 32%N; LF] |}).
Proof.
  apply (@parseJson_rejects_blank_text demoRuntime [BOM; 32%N; LF]).
  repeat constructor.
Defined.
